(** * Bambu flow: port extraction, pin allocation and stage commands

    A shallow embedding of the Bambu HLS flow of the FDE front end
    ([parseHLSVerilogPorts], [generateBambuConstraintFile] and the
    [runBambu*FlowCommand] builders) together with the properties its
    specification states about them.

    Conventions of the embedding.
    - A JavaScript string is a [string]; a code unit is an [ascii], so
      texts range over the code units below 256.  The regular
      expressions work on the list of code units of a string.
    - A JavaScript number is a double.  The numbers of the flow are
      non-negative integers or [Infinity]; they are kept in [N], with
      2^1024, the first integer past the finite doubles, for
      [Infinity].  What produces a number rounds to the nearest double
      ([toNumber]), so [parseInt] and [i++] lose precision from 2^53 on
      as they do in the source.
    - [null] and [undefined] results are [None].
    - The file system and the notifications are threaded explicitly
      through a [world]; every call of [exists], [readTextFile],
      [writeTextFile] and [showFailedNotification] is recorded in its
      event log, in call order. *)

From Stdlib Require Import String Ascii NArith List Lia DecimalString.
From stdpp Require Import base option list strings gmap.

Local Open Scope string_scope.
Local Open Scope N_scope.
Local Open Scope list_scope.

(** ** Code units and character classes *)

Definition code (c : ascii) : N := N_of_ascii c.

Definition inRange (lo hi : N) (c : ascii) : bool :=
  (lo <=? code c) && (code c <=? hi).

(** [\s]: TAB, LF, VT, FF, CR, SPACE and NO-BREAK SPACE are the white
    space and line terminator code units below 256. *)
Definition isSpace (c : ascii) : bool :=
  inRange 9 13 c || (code c =? 32) || (code c =? 160).

(** [\d] *)
Definition isDigit (c : ascii) : bool := inRange 48 57 c.

(** [\w]: [A-Za-z0-9_] *)
Definition isWord (c : ascii) : bool :=
  inRange 97 122 c || inRange 65 90 c || isDigit c || (code c =? 95).

(** [[\s\S]] *)
Definition anyChar (c : ascii) : bool := isSpace c || negb (isSpace c).

(** [String.prototype.toLowerCase] on one code unit below 256: the
    letters A-Z and the Latin-1 capitals (all of 192-222 but the
    multiplication sign 215) move up by 32. *)
Definition lowerChar (c : ascii) : ascii :=
  if inRange 65 90 c || (inRange 192 222 c && negb (code c =? 215))
  then ascii_of_N (code c + 32) else c.

(** The canonical form two code units are compared in under the [i]
    flag: the upper-case code unit when there is one below 256 (a-z and
    the Latin-1 small letters 224-254 but the division sign 247). *)
Definition upperChar (c : ascii) : ascii :=
  if inRange 97 122 c || (inRange 224 254 c && negb (code c =? 247))
  then ascii_of_N (code c - 32) else c.

Definition chars (s : string) : list ascii := list_ascii_of_string s.
Definition text (l : list ascii) : string := string_of_list_ascii l.

Definition toLowerCase (s : string) : string :=
  text (map lowerChar (chars s)).

Fixpoint startsWith (s pre : list ascii) {struct pre} : bool :=
  match pre, s with
  | [], _ => true
  | _ :: _, [] => false
  | p :: pre', c :: s' => Ascii.eqb p c && startsWith s' pre'
  end.

Fixpoint includesFrom (s sub : list ascii) : bool :=
  startsWith s sub ||
  match s with
  | [] => false
  | _ :: s' => includesFrom s' sub
  end.

(** [String.prototype.includes] *)
Definition includes (s sub : string) : bool :=
  includesFrom (chars s) (chars sub).

(** ** Numbers *)

Definition Infinity : N := 2 ^ 1024.

(** The double an integer rounds to: itself below 2^53; from there on
    the nearest multiple of the unit in the last place that has a
    mantissa of 53 bits, the one with the even mantissa for a tie, and
    [Infinity] past the largest finite double. *)
Definition toNumber (n : N) : N :=
  if n <? 2 ^ 53 then n
  else
    let ulp := 2 ^ (N.log2 n - 52) in
    let q := n / ulp in
    let r := n mod ulp in
    let m :=
      if (ulp <? 2 * r) || ((2 * r =? ulp) && N.odd q) then q + 1 else q in
    N.min (m * ulp) Infinity.

(** [i++]: the sum [i + 1], as a number *)
Definition increment (i : N) : N := toNumber (i + 1).

(** [Math.min] and [Math.max], of the numbers their arguments convert to *)
Definition Math_min (a b : N) : N := N.min (toNumber a) (toNumber b).
Definition Math_max (a b : N) : N := N.max (toNumber a) (toNumber b).

(** [parseInt] on a run of decimal digits: the number nearest to the
    integer the digits write *)
Definition digitValue (c : ascii) : N := code c - 48.

Definition parseInt (ds : list ascii) : N :=
  toNumber (fold_left (fun acc c => 10 * acc + digitValue c) ds 0).

Definition digits (n : N) : string := NilEmpty.string_of_uint (N.to_uint n).

(** The shortest decimal that rounds to the double [n], for [n] from
    10^21 on: with one more significant digit per round, the multiple of
    the power of ten [p] below [n] and the one above are tried, and of
    two that round to [n] the nearer one is taken (the even one when
    they are as near). *)
Fixpoint shortest (rounds : nat) (p n : N) : N :=
  match rounds with
  | O => n
  | S rounds' =>
      let lo := n / p * p in
      let hi := lo + p in
      let okLo := toNumber lo =? n in
      let okHi := toNumber hi =? n in
      if okLo && okHi then
        if n - lo <? hi - n then lo
        else if hi - n <? n - lo then hi
        else if N.even (n / p) then lo else hi
      else if okLo then lo
      else if okHi then hi
      else shortest rounds' (p / 10) n
  end.

Fixpoint dropZeros (l : list ascii) : list ascii :=
  match l with
  | "0"%char :: l' => dropZeros l'
  | _ => l
  end.

(** [d.ddde+x], the form of a number from 10^21 on: a double is
    written with 17 significant digits at most. *)
Definition exponential (n : N) : string :=
  let size := N.of_nat (String.length (digits n)) in
  let ds := chars (digits (shortest 17 (10 ^ (size - 1)) n)) in
  let exponent := digits (N.of_nat (length ds) - 1) in
  match rev (dropZeros (rev ds)) with
  | [] => ""
  | [d] => text [d] +:+ "e+" +:+ exponent
  | d :: rest => text (d :: "."%char :: rest) +:+ "e+" +:+ exponent
  end.

(** A number in a template literal or added to a string
    ([Number::toString]): its decimal digits below 10^21. *)
Definition numberToString (n : N) : string :=
  let v := toNumber n in
  if v <? 10 ^ 21 then digits v
  else if Infinity <=? v then "Infinity"
  else exponential v.

(** ** Backtracking regular expressions

    The fragment of ECMAScript patterns used by the flow, with the
    matcher in continuation-passing style: a continuation is the rest
    of the pattern, [None] is a failure that makes the caller try its
    next alternative.  A greedy repetition tries one more code unit
    before it tries the continuation, a lazy one the continuation
    first. *)

Inductive regex : Type :=
  | Eps
  | Chr (c : ascii)
  | ChrI (c : ascii)
  | Cls (p : ascii → bool)
  | Seq (r1 r2 : regex)
  | Alt (r1 r2 : regex)
  | Rep (greedy : bool) (p : ascii → bool)
  | Group (n : nat) (r : regex)
  | AtEnd.

(** a pattern written as the sequence of its terms *)
Definition Cat (rs : list regex) : regex := fold_right Seq Eps rs.

Fixpoint litChars (l : list ascii) : regex :=
  match l with
  | [] => Eps
  | [c] => Chr c
  | c :: l' => Seq (Chr c) (litChars l')
  end.

Definition Lit (s : string) : regex := litChars (chars s).

(** the same, under the [i] flag *)
Fixpoint litCharsI (l : list ascii) : regex :=
  match l with
  | [] => Eps
  | [c] => ChrI c
  | c :: l' => Seq (ChrI c) (litCharsI l')
  end.

Definition LitI (s : string) : regex := litCharsI (chars s).

(** [p+], [p*], [p*?] and [r?] *)
Definition Plus (p : ascii → bool) : regex := Seq (Cls p) (Rep true p).
Definition Star (p : ascii → bool) : regex := Rep true p.
Definition LazyStar (p : ascii → bool) : regex := Rep false p.
Definition Opt (r : regex) : regex := Alt r Eps.

Abbreviation captures := (gmap nat (list ascii)).

(** What a match leaves: the capture groups and the text after it. *)
Definition outcome : Type := captures * list ascii.
Definition cont : Type := list ascii → captures → option outcome.

Definition orElse {A} (x : option A) (y : option A) : option A :=
  match x with
  | Some _ => x
  | None => y
  end.

Fixpoint repGreedy (p : ascii → bool) (k : cont) (s : list ascii)
    (c : captures) : option outcome :=
  match s with
  | x :: s' => if p x then orElse (repGreedy p k s' c) (k s c) else k s c
  | [] => k s c
  end.

Fixpoint repLazy (p : ascii → bool) (k : cont) (s : list ascii)
    (c : captures) : option outcome :=
  match k s c with
  | Some o => Some o
  | None =>
      match s with
      | x :: s' => if p x then repLazy p k s' c else None
      | [] => None
      end
  end.

Definition consumed (s s' : list ascii) : list ascii :=
  take (length s - length s') s.

Fixpoint matchRe (r : regex) (k : cont) (s : list ascii) (c : captures)
    {struct r} : option outcome :=
  match r with
  | Eps => k s c
  | Chr a =>
      match s with
      | x :: s' => if Ascii.eqb x a then k s' c else None
      | [] => None
      end
  | ChrI a =>
      match s with
      | x :: s' =>
          if Ascii.eqb (upperChar x) (upperChar a) then k s' c else None
      | [] => None
      end
  | Cls p =>
      match s with
      | x :: s' => if p x then k s' c else None
      | [] => None
      end
  | Seq r1 r2 => matchRe r1 (matchRe r2 k) s c
  | Alt r1 r2 => orElse (matchRe r1 k s c) (matchRe r2 k s c)
  | Rep true p => repGreedy p k s c
  | Rep false p => repLazy p k s c
  | Group n r => matchRe r (fun s' c' => k s' (<[n := consumed s s']> c')) s c
  | AtEnd =>
      match s with
      | [] => k s c
      | _ :: _ => None
      end
  end.

Definition accept : cont := fun s c => Some (c, s).

(** A match that starts at the first code unit of [s]. *)
Definition matchHere (r : regex) (s : list ascii) : option outcome :=
  matchRe r accept s ∅.

(** The leftmost match in [s]: the skipped code units, the capture
    groups and the text after the match. *)
Fixpoint search (r : regex) (s : list ascii)
    : option (list ascii * outcome) :=
  match matchHere r s with
  | Some o => Some ([], o)
  | None =>
      match s with
      | [] => None
      | x :: s' =>
          match search r s' with
          | Some (skipped, o) => Some (x :: skipped, o)
          | None => None
          end
      end
  end.

(** [RegExp.prototype.exec] under the [g] flag, with the text from
    [lastIndex] on as the state: the capture groups of the leftmost
    match and the text from the new [lastIndex] on. *)
Definition exec (r : regex) (s : list ascii) : option outcome :=
  match search r s with
  | Some (_, o) => Some o
  | None => None
  end.

(** A capture group of a match, [None] when the group did not take part. *)
Definition group (n : nat) (c : captures) : option (list ascii) := c !! n.

(** A group every match sets: the source reads it as a string. *)
Definition groupText (n : nat) (c : captures) : string :=
  text (default [] (c !! n)).

(** ** Port extraction *)

Inductive direction : Type := Input | Output.

Global Instance direction_eq_dec : EqDecision direction.
Proof. solve_decision. Defined.

Definition directionName (d : direction) : string :=
  match d with
  | Input => "input"
  | Output => "output"
  end.

Record Port : Type := mkPort {
  portName : string;
  portDirection : direction;
  msb : N;
  lsb : N
}.

Record ParseResult : Type := mkParseResult {
  moduleName : string;
  ports : list Port
}.

(** [/module\s+(_Z\d+\w+)\s*\(([\s\S]*?)\);([\s\S]*?)endmodule/g] *)
Definition moduleRegex : regex :=
  Cat [ Lit "module"; Plus isSpace;
        Group 1 (Cat [Lit "_Z"; Plus isDigit; Plus isWord]);
        Star isSpace; Chr "(";
        Group 2 (LazyStar anyChar); Lit ");";
        Group 3 (LazyStar anyChar); Lit "endmodule" ].

(** [/(input|output)\s+(?:\[(\d+):(\d+)\]\s+)?(\w+)\s*;/g] *)
Definition portRegex : regex :=
  Cat [ Group 1 (Alt (Lit "input") (Lit "output")); Plus isSpace;
        Opt (Cat [ Chr "["; Group 2 (Plus isDigit); Chr ":";
                   Group 3 (Plus isDigit); Chr "]"; Plus isSpace ]);
        Group 4 (Plus isWord); Star isSpace; Chr ";" ].

(** The port a match of [portRegex] declares. *)
Definition portOfMatch (c : captures) : Port :=
  let direction :=
    if String.eqb (groupText 1 c) "input" then Input else Output in
  let msb := match group 2 c with Some ds => parseInt ds | None => 0 end in
  let lsb := match group 3 c with Some ds => parseInt ds | None => 0 end in
  mkPort (groupText 4 c) direction msb lsb.

(** The inner loop [while ((portMatch = portRegex.exec(moduleBody)) !== null)];
    [fuel] bounds the number of iterations. *)
Fixpoint portLoop (fuel : nat) (body : list ascii) : list Port :=
  match fuel with
  | O => []
  | S fuel' =>
      match exec portRegex body with
      | Some (c, rest) => portOfMatch c :: portLoop fuel' rest
      | None => []
      end
  end.

Definition parsePorts (moduleBody : string) : list Port :=
  portLoop (String.length moduleBody) (chars moduleBody).

(** The outer loop [while ((match = moduleRegex.exec(content)) !== null)]
    with its early [return]. *)
Fixpoint moduleLoop (fuel : nat) (topFunctionName : string)
    (content : list ascii) : option ParseResult :=
  match fuel with
  | O => None
  | S fuel' =>
      match exec moduleRegex content with
      | Some (c, rest) =>
          let moduleName := groupText 1 c in
          let moduleBody := groupText 3 c in
          if includes (toLowerCase moduleName) (toLowerCase topFunctionName)
          then Some (mkParseResult moduleName (parsePorts moduleBody))
          else moduleLoop fuel' topFunctionName rest
      | None => None
      end
  end.

(** The body of [parseHLSVerilogPorts] once [content] is read. *)
Definition parseVerilogText (content topFunctionName : string)
    : option ParseResult :=
  moduleLoop (String.length content) topFunctionName (chars content).

(** ** Pin allocation *)

Record PinAssignment : Type := mkAssignment {
  instanceName : string;
  pin : string;
  pinDirection : direction
}.

Global Instance PinAssignment_eq_dec : EqDecision PinAssignment.
Proof. solve_decision. Defined.

(** The mutable locals of the allocation: the two cursors into the
    catalog and the entries pushed on [portConstraints], each kept as
    the port instance name and the pin of its line, with the direction
    the pin was asked for. *)
Record AllocState : Type := mkAlloc {
  inputIdx : nat;
  outputIdx : nat;
  portConstraints : list PinAssignment
}.

Definition initialAlloc : AllocState := mkAlloc 0 0 [].

(** [!pin] on a [string | null] *)
Definition falsy (v : option string) : bool :=
  match v with
  | None => true
  | Some s => String.eqb s ""
  end.

(** [`${port.name}[${i}]`] *)
Definition bitName (name : string) (i : N) : string :=
  name +:+ "[" +:+ numberToString i +:+ "]".

Section Allocation.

(** [devicePorts.FDP3P7.input] and [devicePorts.FDP3P7.output] *)
Variables inputPins outputPins : list string.

Definition catalog (d : direction) : list string :=
  match d with
  | Input => inputPins
  | Output => outputPins
  end.

Definition assignPin (portName : string) (d : direction) (st : AllocState)
    : option string * AllocState :=
  match d with
  | Input =>
      if (length inputPins <=? inputIdx st)%nat then (None, st)
      else (inputPins !! inputIdx st,
            mkAlloc (S (inputIdx st)) (outputIdx st) (portConstraints st))
  | Output =>
      if (length outputPins <=? outputIdx st)%nat then (None, st)
      else (outputPins !! outputIdx st,
            mkAlloc (inputIdx st) (S (outputIdx st)) (portConstraints st))
  end.

(** One pin for one port instance: [inl d] is the early [return null]
    after the notification that the pins of direction [d] ran out. *)
Definition allocInstance (name : string) (d : direction) (st : AllocState)
    : direction + AllocState :=
  let '(pin, st') := assignPin name d st in
  if falsy pin then inl d
  else inr (mkAlloc (inputIdx st') (outputIdx st')
              (portConstraints st' ++ [mkAssignment name (default "" pin) d])).

(** The loop [for (let i = low; i <= high; i++)] from the value [i] of
    its variable on.  A round that goes on has taken a pin, so the loop
    makes no more rounds than the sequence holds pins: [rounds] is a
    bound that is not reached when it is larger than the number of the
    pins left. *)
Fixpoint allocBits (rounds : nat) (name : string) (d : direction) (i high : N)
    (st : AllocState) : direction + AllocState :=
  match rounds with
  | O => if i <=? high then inl d else inr st
  | S rounds' =>
      if i <=? high then
        match allocInstance (bitName name i) d st with
        | inl d' => inl d'
        | inr st' => allocBits rounds' name d (increment i) high st'
        end
      else inr st
  end.

(** The body of [for (const port of ports)]. *)
Definition allocPort (port : Port) (st : AllocState)
    : direction + AllocState :=
  if String.eqb (portName port) "clock" then inr st
  else
    let isBus := negb (msb port =? lsb port) in
    if isBus then
      let low := Math_min (msb port) (lsb port) in
      let high := Math_max (msb port) (lsb port) in
      allocBits (S (length (catalog (portDirection port)))) (portName port)
        (portDirection port) low high st
    else allocInstance (portName port) (portDirection port) st.

Fixpoint allocPorts (ports : list Port) (st : AllocState)
    : direction + AllocState :=
  match ports with
  | [] => inr st
  | port :: rest =>
      match allocPort port st with
      | inl d => inl d
      | inr st' => allocPorts rest st'
      end
  end.

End Allocation.

(** ** The project, the file system and the notifications *)

Record ProjectFile : Type := mkFile {
  fileName : string;
  filePath : string;
  fileType : string
}.

Record BambuSettings : Type := mkBambu {
  topFunction : option string
}.

Record Settings : Type := mkSettings {
  bambu : option BambuSettings;
  placeMode : string;
  routeMode : string
}.

Record ProjectInfo : Type := mkProject {
  name : string;
  path : string;
  file_lists : list ProjectFile;
  settings : Settings
}.

Inductive event : Type :=
  | Exists (path : string)
  | ReadTextFile (path : string)
  | WriteTextFile (path content : string)
  | FailedNotification (title message : string).

Record world : Type := mkWorld {
  files : gmap string string;
  events : list event
}.

Definition record (e : event) (w : world) : world :=
  mkWorld (files w) (events w ++ [e]).

Definition exists_ (path : string) (w : world) : bool * world :=
  (bool_decide (is_Some (files w !! path)), record (Exists path) w).

(** [None] stands for the rejection of the read. *)
Definition readTextFile (path : string) (w : world) : option string * world :=
  (files w !! path, record (ReadTextFile path) w).

Definition writeTextFile (path content : string) (w : world) : world :=
  mkWorld (<[path := content]> (files w))
          (events w ++ [WriteTextFile path content]).

Definition showFailedNotification (title message : string) (w : world)
    : world :=
  record (FailedNotification title message) w.

(** [file.type === "cpp" || file.type === "c"] *)
Definition isSource (file : ProjectFile) : bool :=
  String.eqb (fileType file) "cpp" || String.eqb (fileType file) "c".

(** [file.type === "constraint"] *)
Definition isConstraint (file : ProjectFile) : bool :=
  String.eqb (fileType file) "constraint".

(** [/\.(cpp|cc|cxx|c)$/i] *)
Definition sourceExtRegex : regex :=
  Cat [ Chr ".";
        Group 1 (Alt (LitI "cpp") (Alt (LitI "cc") (Alt (LitI "cxx") (LitI "c"))));
        AtEnd ].

(** [String.prototype.replace] with a pattern without the [g] flag and
    a replacement without [$]: the leftmost match is replaced. *)
Definition replace (r : regex) (s replacement : string) : string :=
  match search r (chars s) with
  | Some (skipped, (_, rest)) => text (skipped ++ chars replacement ++ rest)
  | None => s
  end.

(** [cppFile.name.replace(/\.(cpp|cc|cxx|c)$/i, "")] *)
Definition baseNameOf (cppFile : ProjectFile) : string :=
  replace sourceExtRegex (fileName cppFile) "".

(** [v || fallback] on an optional string *)
Definition orDefault (v : option string) (fallback : string) : string :=
  if falsy v then fallback else default fallback v.

(** [project.settings.bambu?.topFunction || "main"] *)
Definition topFunctionOf (project : ProjectInfo) : string :=
  orDefault (b ← bambu (settings project); topFunction b) "main".

(** [parseHLSVerilogPorts]: a rejected read is caught and gives [null]. *)
Definition parseHLSVerilogPorts (verilogPath topFunctionName : string)
    (w : world) : option ParseResult * world :=
  let '(content, w1) := readTextFile verilogPath w in
  match content with
  | Some content => (parseVerilogText content topFunctionName, w1)
  | None => (None, w1)
  end.

Definition quote : string := String (ascii_of_N 34) "".
Definition newline : string := String (ascii_of_N 10) "".

(** [`  <port name="${name}" position="${pin}"/>`] *)
Definition constraintLine (a : PinAssignment) : string :=
  "  <port name=" +:+ quote +:+ instanceName a +:+ quote +:+
  " position=" +:+ quote +:+ pin a +:+ quote +:+ "/>".

Definition xmlContent (moduleName : string) (assignments : list PinAssignment)
    : string :=
  "<design name=" +:+ quote +:+ moduleName +:+ quote +:+ ">" +:+ newline +:+
  String.concat newline (map constraintLine assignments) +:+ newline +:+
  "</design>".

Record Command : Type := mkCommand {
  program : string;
  args : list string;
  cwd : string
}.

Section Flow.

Variables inputPins outputPins : list string.

(** [getDirOfFile] of [../utils/utils] and [resolveResource] of the
    Tauri path API, as functions of their argument. *)
Variable getDirOfFile : string → string.
Variable resolveResource : string → string.

Definition constraintPathOf (project : ProjectInfo) : string :=
  getDirOfFile (path project) +:+ (name project +:+ "_bambu_cons.xml").

Definition generateBambuConstraintFile (project : ProjectInfo) (w : world)
    : option string * world :=
  let projectDir := getDirOfFile (path project) in
  let constraintFileName := name project +:+ "_bambu_cons.xml" in
  let constraintFilePath := projectDir +:+ constraintFileName in
  let '(present, w1) := exists_ constraintFilePath w in
  if present then (Some constraintFilePath, w1)
  else
    match List.find isSource (file_lists project) with
    | None => (None, w1)
    | Some cppFile =>
        let baseName := baseNameOf cppFile in
        let verilogPath := projectDir +:+ baseName +:+ ".v" in
        let '(found, w2) := exists_ verilogPath w1 in
        if negb found then
          (None,
           showFailedNotification "Constraint Generation"
             ("HLS-generated Verilog file not found: " +:+ baseName +:+ ".v")
             w2)
        else
          let topFunction := topFunctionOf project in
          let '(parseResult, w3) :=
            parseHLSVerilogPorts verilogPath topFunction w2 in
          match parseResult with
          | None =>
              (None,
               showFailedNotification "Constraint Generation"
                 "Could not find top module in HLS-generated Verilog." w3)
          | Some parsed =>
              match allocPorts inputPins outputPins (ports parsed)
                      initialAlloc with
              | inl d =>
                  (None,
                   showFailedNotification "Constraint Generation"
                     ("Not enough " +:+ directionName d +:+
                      " pins for the design.") w3)
              | inr st =>
                  let content :=
                    xmlContent (moduleName parsed) (portConstraints st) in
                  (Some constraintFilePath,
                   writeTextFile constraintFilePath content w3)
              end
          end
    end.

(** [project.file_lists.filter((file) => file.type === "constraint")[0]?.path] *)
Definition declaredConstraint (project : ProjectInfo) : option string :=
  filePath <$> head (List.filter isConstraint (file_lists project)).

Definition getPlaceMode (project : ProjectInfo) : string :=
  if String.eqb (placeMode (settings project)) "Bounding Box" then "-b"
  else "-t".

Definition getRouteMode (project : ProjectInfo) : string :=
  if String.eqb (routeMode (settings project)) "Direct Search" then "-d"
  else if String.eqb (routeMode (settings project)) "Breath First" then "-b"
  else "-t".

Definition runBambuSynthFlowCommand (project : ProjectInfo) (w : world)
    : option Command * world :=
  let outputFileName := name project +:+ "_bambu_" +:+ "syn.edf" in
  let tclScript := resolveResource "resource/yosys/yosys_fde.tcl" in
  let simlibFile := resolveResource "resource/yosys/fdesimlib.v" in
  let techmapFile := resolveResource "resource/yosys/techmap.v" in
  let cellsMapFile := resolveResource "resource/yosys/cells_map.v" in
  match List.find isSource (file_lists project) with
  | None =>
      (None,
       showFailedNotification "Bambu Synth"
         "No C/C++ source files found in the project." w)
  | Some cppFile =>
      let baseName := baseNameOf cppFile in
      let inputFile := baseName +:+ ".v" in
      let projectDir := getDirOfFile (path project) in
      let tclLine :=
        "tcl " +:+ tclScript +:+ " -l " +:+ simlibFile +:+ " -m " +:+
        techmapFile +:+ " -c " +:+ cellsMapFile +:+ " -o " +:+
        outputFileName in
      (Some (mkCommand "binaries/yosys"
               ["-p"; tclLine; projectDir +:+ inputFile] projectDir),
       w)
  end.

Definition runBambuMapFlowCommand (project : ProjectInfo) : Command :=
  let celllibfilePath := resolveResource "resource/hw_lib/dc_cell.xml" in
  let inputFileName := name project +:+ "_bambu_" +:+ "syn.edf" in
  let outputFileName := name project +:+ "_bambu_" +:+ "map.xml" in
  mkCommand "binaries/fde-cli/map"
    ["-y"; "-i"; inputFileName; "-o"; outputFileName; "-c";
     celllibfilePath; "-e"]
    (getDirOfFile (path project)).

Definition runBambuPackFlowCommand (project : ProjectInfo) : Command :=
  let family := "fdp3" in
  let celllibfilePath := resolveResource "resource/hw_lib/fdp3_cell.xml" in
  let plibfilePath := resolveResource "resource/hw_lib/fdp3_dcplib.xml" in
  let xdlcfgfilePath := resolveResource "resource/hw_lib/fdp3_config.xml" in
  let inputFileName := name project +:+ "_bambu_" +:+ "map.xml" in
  let outputFileName := name project +:+ "_bambu_" +:+ "pack.xml" in
  mkCommand "binaries/fde-cli/pack"
    ["-c"; family; "-n"; inputFileName; "-l"; celllibfilePath; "-r";
     plibfilePath; "-o"; outputFileName; "-g"; xdlcfgfilePath; "-e"]
    (getDirOfFile (path project)).

Definition runBambuPlaceFlowCommand (project : ProjectInfo) (w : world)
    : option Command * world :=
  let archfilePath := resolveResource "resource/hw_lib/fdp3p7_arch.xml" in
  let plcdelayfilePath := resolveResource "resource/hw_lib/fdp3p7_dly.xml" in
  let command (placecstFilePath : string) : Command :=
    let placeMode := getPlaceMode project in
    let inputFileName := name project +:+ "_bambu_" +:+ "pack.xml" in
    let outputFileName := name project +:+ "_bambu_" +:+ "place.xml" in
    mkCommand "binaries/fde-cli/place"
      ["-a"; archfilePath; "-d"; plcdelayfilePath; "-i"; inputFileName;
       "-o"; outputFileName; "-c"; placecstFilePath; placeMode; "-e"]
      (getDirOfFile (path project)) in
  let placecstFilePath := declaredConstraint project in
  if falsy placecstFilePath then
    let '(generated, w1) := generateBambuConstraintFile project w in
    if falsy generated then
      (None,
       showFailedNotification "Place"
         "Failed to generate constraint file. Please add a constraint file manually."
         w1)
    else (Some (command (default "" generated)), w1)
  else (Some (command (default "" placecstFilePath)), w).

Definition runBambuRouteFlowCommand (project : ProjectInfo) (w : world)
    : option Command * world :=
  let archfilePath := resolveResource "resource/hw_lib/fdp3p7_arch.xml" in
  let routeMode := getRouteMode project in
  let command (routecstFilePath : string) : Command :=
    let inputFileName := name project +:+ "_bambu_" +:+ "place.xml" in
    let outputFileName := name project +:+ "_bambu_" +:+ "route.xml" in
    mkCommand "binaries/fde-cli/route"
      ["-a"; archfilePath; "-n"; inputFileName; "-o"; outputFileName;
       routeMode; "-c"; routecstFilePath; "-e"]
      (getDirOfFile (path project)) in
  let routecstFilePath := declaredConstraint project in
  if falsy routecstFilePath then
    let projectDir := getDirOfFile (path project) in
    let autoConstraintPath :=
      projectDir +:+ name project +:+ "_bambu_cons.xml" in
    let '(present, w1) := exists_ autoConstraintPath w in
    if present then (Some (command autoConstraintPath), w1)
    else (None, showFailedNotification "Route" "Constraint file not found." w1)
  else (Some (command (default "" routecstFilePath)), w).

Definition runBambuGenBitFlowCommand (project : ProjectInfo) : Command :=
  let archfilePath := resolveResource "resource/hw_lib/fdp3p7_arch.xml" in
  let cilfilePath := resolveResource "resource/hw_lib/fdp3p7_cil.xml" in
  let inputFileName := name project +:+ "_bambu_" +:+ "route.xml" in
  let outputFileName := name project +:+ "_bambu_" +:+ "bit.bit" in
  mkCommand "binaries/fde-cli/bitgen"
    ["-a"; archfilePath; "-c"; cilfilePath; "-n"; inputFileName; "-b";
     outputFileName; "-e"]
    (getDirOfFile (path project)).

End Flow.

(** ** The high-level synthesis stage, the stage table and the download *)

Section Stages.

Variables inputPins outputPins : list string.
Variable getDirOfFile : string → string.
Variable resolveResource : string → string.

(** The [clockPeriod] field of the bambu settings, which the record
    [BambuSettings] leaves out: a whole number of nanoseconds. *)
Variable clockPeriod : BambuSettings → option N.

(** [project.settings.bambu?.clockPeriod || 10] *)
Definition clockPeriodOf (project : ProjectInfo) : N :=
  match b ← bambu (settings project); clockPeriod b with
  | Some n => if n =? 0 then 10 else n
  | None => 10
  end.

Definition runBambuHLSFlowCommand (project : ProjectInfo) (w : world)
    : option Command * world :=
  let cppFiles := map filePath (List.filter isSource (file_lists project)) in
  if (length cppFiles =? 0)%nat then
    (None,
     showFailedNotification "Bambu HLS"
       "No C/C++ source files found in the project." w)
  else
    let topFunction := topFunctionOf project in
    let clockPeriod := clockPeriodOf project in
    let projectDir := getDirOfFile (path project) in
    (Some (mkCommand "binaries/bambu"
             ([ "--top-fname=" +:+ topFunction;
                "--clock-period=" +:+ numberToString clockPeriod;
                "--memory-allocation-policy=NO_BRAM" ] ++ cppFiles)
             projectDir),
     w).

(** The file [downloadBitFile] hands to [program_fpga]. *)
Definition downloadBitFile (project : ProjectInfo) : string :=
  getDirOfFile (path project) +:+ name project +:+ "_bambu_" +:+ "bit.bit".

(** An entry of the stage table, without its settings page and its
    extra actions. *)
Record FlowEntry : Type := mkFlow {
  flowName : string;
  target_file : option string;
  runFunc : ProjectInfo → world → option Command * world
}.

Definition bambuFlows : list FlowEntry :=
  [ mkFlow "bambu.hls" None runBambuHLSFlowCommand;
    mkFlow "bambu.synth" (Some "bambu_syn.edf")
      (runBambuSynthFlowCommand getDirOfFile resolveResource);
    mkFlow "bambu.map" (Some "bambu_map.xml")
      (λ project w,
         (Some (runBambuMapFlowCommand getDirOfFile resolveResource project), w));
    mkFlow "bambu.pack" (Some "bambu_pack.xml")
      (λ project w,
         (Some (runBambuPackFlowCommand getDirOfFile resolveResource project), w));
    mkFlow "bambu.place" (Some "bambu_place.xml")
      (runBambuPlaceFlowCommand inputPins outputPins getDirOfFile
         resolveResource);
    mkFlow "bambu.route" (Some "bambu_route.xml")
      (runBambuRouteFlowCommand getDirOfFile resolveResource);
    mkFlow "bambu.genbit" (Some "bambu_bit.bit")
      (λ project w,
         (Some (runBambuGenBitFlowCommand getDirOfFile resolveResource project),
          w)) ].

End Stages.

(** ** The setup of the sidecar binaries ([scripts/setup-binaries.cjs])

    The disk is the set of the paths that exist.  Console output is
    left out.  [copyFileSync] and [chmodSync] throw when their oracle
    says so; the other file system calls do not throw. *)

(** What [copyFileSync] does: it copies, or it throws, and then a file
    is left at the destination or not (Node tries to remove the
    destination when the copy fails after it was opened). *)
Inductive copyResult : Type :=
  | Copied
  | Thrown (destinationLeft : bool).

Definition FDE_CLI_TOOLS : list string :=
  ["bitgen"; "import"; "map"; "nlfiner"; "pack"; "place"; "route"; "sta"].

Definition YOSYS_BINARIES : list string := ["yosys"; "yosys-abc"].

(** [value || fallback], where [None] is [undefined] *)
Definition truthy (v : option string) : bool := negb (falsy v).

(** [getTargetTriple], from [process.env.CARGO_CFG_TARGET_TRIPLE],
    [process.platform] and [process.arch]; on another platform the
    falsy value of the variable comes back. *)
Definition getTargetTriple (env : option string) (platform arch : string)
    : option string :=
  let targetTriple := env in
  if truthy targetTriple then targetTriple
  else if String.eqb platform "win32" then Some "x86_64-pc-windows-msvc"
  else if String.eqb platform "linux" then
    Some (if String.eqb arch "x64" then "x86_64-unknown-linux-gnu"
          else "i686-unknown-linux-gnu")
  else if String.eqb platform "darwin" then
    Some (if String.eqb arch "arm64" then "aarch64-apple-darwin"
          else "x86_64-apple-darwin")
  else targetTriple.

Definition getExeExtension (targetTriple : string) : string :=
  if includes targetTriple "windows" then ".exe" else "".

Section Setup.

(** [path.join] *)
Variable join : string → string → string.

(** the directories [mkdirSync(dir, { recursive: true })] creates above
    [dir] *)
Variable ancestors : string → gset string.

(** [copyFileSync(source, target)]; [chmodSync(target, 0o755)] throws *)
Variable copyFileSync : string → string → copyResult.
Variable chmodThrows : string → bool.

(** [process.platform] *)
Variable platform : string.

(** [path.join(__dirname, '..')] *)
Variable PROJECT_ROOT : string.

Definition PUBLIC_FDE_BUILD : string :=
  join PROJECT_ROOT "public/FDE-Source/build/bin".
Definition PUBLIC_YOSYS_BUILD : string := join PROJECT_ROOT "public/yosys".
Definition BINARIES_DIR : string := join PROJECT_ROOT "src-tauri/binaries".
Definition FDE_CLI_DIR : string := join BINARIES_DIR "fde-cli".

Definition existsSync (path : string) (disk : gset string) : bool :=
  bool_decide (path ∈ disk).

Definition ensureDir (dir : string) (disk : gset string) : gset string :=
  if negb (existsSync dir disk) then {[dir]} ∪ ancestors dir ∪ disk else disk.

Definition copyBinary (sourceFile targetFile : string) (disk : gset string)
    : bool * gset string :=
  if negb (existsSync sourceFile disk) then (false, disk)
  else
    match copyFileSync sourceFile targetFile with
    | Thrown destinationLeft =>
        (false,
         if destinationLeft then {[targetFile]} ∪ disk
         else disk ∖ {[targetFile]})
    | Copied =>
        let disk' := {[targetFile]} ∪ disk in
        if negb (String.eqb platform "win32") && chmodThrows targetFile
        then (false, disk')
        else (true, disk')
    end.

(** [`-${targetTriple}${exeExt}`] *)
Definition suffixOf (targetTriple : string) : string :=
  "-" +:+ targetTriple +:+ getExeExtension targetTriple.

(** The loop [for (const tool of ...) if (copyBinary(...)) successCount++],
    over the source and target of each tool. *)
Fixpoint copyLoop (files : list (string * string)) (successCount : nat)
    (disk : gset string) : nat * gset string :=
  match files with
  | [] => (successCount, disk)
  | (sourceFile, targetFile) :: rest =>
      let '(copied, disk') := copyBinary sourceFile targetFile disk in
      copyLoop rest (if copied then S successCount else successCount) disk'
  end.

Definition setupFdeCliTools (targetTriple : string) (disk : gset string)
    : bool * gset string :=
  let suffix := suffixOf targetTriple in
  if negb (existsSync PUBLIC_FDE_BUILD disk) then (false, disk)
  else
    let disk1 := ensureDir FDE_CLI_DIR disk in
    let '(successCount, disk2) :=
      copyLoop
        (map (λ tool, (join PUBLIC_FDE_BUILD tool,
                       join FDE_CLI_DIR (tool +:+ suffix)))
           FDE_CLI_TOOLS)
        0 disk1 in
    ((successCount =? length FDE_CLI_TOOLS)%nat, disk2).

Definition setupYosysBinaries (targetTriple : string) (disk : gset string)
    : bool * gset string :=
  let exeExt := getExeExtension targetTriple in
  let suffix := suffixOf targetTriple in
  if negb (existsSync PUBLIC_YOSYS_BUILD disk) then (false, disk)
  else
    let disk1 := ensureDir BINARIES_DIR disk in
    let '(successCount, disk2) :=
      copyLoop
        (map (λ binary, (join PUBLIC_YOSYS_BUILD (binary +:+ exeExt),
                         join BINARIES_DIR (binary +:+ suffix)))
           YOSYS_BINARIES)
        0 disk1 in
    ((successCount =? length YOSYS_BINARIES)%nat, disk2).

Definition validateSetup (targetTriple : string) (disk : gset string) : bool :=
  let suffix := suffixOf targetTriple in
  forallb (λ tool, existsSync (join FDE_CLI_DIR (tool +:+ suffix)) disk)
    FDE_CLI_TOOLS &&
  forallb (λ binary, existsSync (join BINARIES_DIR (binary +:+ suffix)) disk)
    YOSYS_BINARIES.

(** [main]: the exit code and the disk it leaves.  Without a target
    triple, [getExeExtension] throws in [setupFdeCliTools] before
    anything is touched, and the [catch] exits with 1. *)
Definition main (env : option string) (arch : string) (disk : gset string)
    : N * gset string :=
  match getTargetTriple env platform arch with
  | None => (1, disk)
  | Some targetTriple =>
      let '(fdeCliOk, disk1) := setupFdeCliTools targetTriple disk in
      let '(yosysOk, disk2) := setupYosysBinaries targetTriple disk1 in
      let validationOk := validateSetup targetTriple disk2 in
      (if fdeCliOk && yosysOk && validationOk then 0 else 1, disk2)
  end.

End Setup.

(** ** Vocabulary of the statements *)

(** The capture groups a pattern can set. *)
Fixpoint groupsOf (r : regex) : list nat :=
  match r with
  | Seq r1 r2 | Alt r1 r2 => groupsOf r1 ++ groupsOf r2
  | Group n r => n :: groupsOf r
  | _ => []
  end.

(** A syntactic criterion for patterns whose matches are never empty. *)
Fixpoint consuming (r : regex) : bool :=
  match r with
  | Chr _ | ChrI _ | Cls _ => true
  | Seq r1 r2 => consuming r1 || consuming r2
  | Alt r1 r2 => consuming r1 && consuming r2
  | Group _ r => consuming r
  | _ => false
  end.

(** The words of a pattern, read as a regular expression: what a match
    can consume (the end anchor consumes nothing). *)
Fixpoint inLang (r : regex) (u : list ascii) : Prop :=
  match r with
  | Eps | AtEnd => u = []
  | Chr a => u = [a]
  | ChrI a => ∃ x, u = [x] ∧ upperChar x = upperChar a
  | Cls p => ∃ x, u = [x] ∧ p x = true
  | Seq r1 r2 => ∃ u1 u2, u = u1 ++ u2 ∧ inLang r1 u1 ∧ inLang r2 u2
  | Alt r1 r2 => inLang r1 u ∨ inLang r2 u
  | Rep _ p => Forall (λ x, p x = true) u
  | Group _ r => inLang r u
  end.

(** All the successive matches of a pattern from a position on, as the
    loop [while ((m = r.exec(text)) !== null)] meets them. *)
Fixpoint execAll (fuel : nat) (r : regex) (s : list ascii) : list outcome :=
  match fuel with
  | O => []
  | S fuel' =>
      match exec r s with
      | Some (c, rest) => (c, rest) :: execAll fuel' r rest
      | None => []
      end
  end.

Inductive matchesOf (r : regex) : list ascii → list outcome → Prop :=
  | matchesOf_done s :
      exec r s = None → matchesOf r s []
  | matchesOf_more s c rest l :
      exec r s = Some (c, rest) → matchesOf r rest l →
      matchesOf r s ((c, rest) :: l).

(** The matches of [moduleRegex] in a text, as the loop of
    [parseHLSVerilogPorts] meets them: the name and the body of each. *)
Definition moduleMatches (content : string) : list (string * string) :=
  map (λ o, (groupText 1 o.1, groupText 3 o.1))
      (execAll (String.length content) moduleRegex (chars content)).

Definition nameContains (topFunctionName : string) (block : string * string)
    : bool :=
  includes (toLowerCase block.1) (toLowerCase topFunctionName).

(** A module name of the mangled shape: [_Z], a digit and at least one
    more word character, word characters throughout. *)
Definition mangled (moduleName : string) : bool :=
  match chars moduleName with
  | "_"%char :: "Z"%char :: d :: c :: rest =>
      isDigit d && isWord c && forallb isWord rest
  | _ => false
  end.

(** The patterns with the end anchor. *)
Fixpoint anchored (r : regex) : bool :=
  match r with
  | AtEnd => true
  | Seq r1 r2 | Alt r1 r2 => anchored r1 || anchored r2
  | Group _ r => anchored r
  | _ => false
  end.

(** A text that begins with a module of the shape [moduleRegex]
    describes: the keyword, white space, a mangled name, optional white
    space, a parenthesis, and further on [);] and then [endmodule]. *)
Definition moduleShape (s : list ascii) : Prop :=
  ∃ ws name ws' plist body rest,
    s = chars "module" ++ ws ++ chars name ++ ws' ++ "("%char :: plist ++
        chars ");" ++ body ++ chars "endmodule" ++ rest ∧
    ws ≠ [] ∧ Forall (λ x, isSpace x = true) ws ∧ mangled name = true ∧
    Forall (λ x, isSpace x = true) ws'.

(** The cursor of a direction. *)
Definition cursor (d : direction) (st : AllocState) : nat :=
  match d with
  | Input => inputIdx st
  | Output => outputIdx st
  end.

(** [|msb - lsb| + 1] *)
Definition busWidth (port : Port) : N :=
  N.max (msb port) (lsb port) - N.min (msb port) (lsb port) + 1.

Definition isClock (port : Port) : bool := String.eqb (portName port) "clock".

(** The pins a port list asks of a direction. *)
Definition demand (d : direction) (ports : list Port) : nat :=
  sum_list
    (map (λ port, N.to_nat (busWidth port))
       (List.filter
          (λ port, negb (isClock port) && bool_decide (portDirection port = d))
          ports)).

(** The pins given out to a direction, in the order of the assignments. *)
Definition pinsOf (d : direction) (l : list PinAssignment) : list string :=
  map pin (List.filter (λ a, bool_decide (pinDirection a = d)) l).

(** The integers from [i] on, [n] of them, and those from [low] to
    [high]. *)
Fixpoint countFrom (i : N) (n : nat) : list N :=
  match n with
  | O => []
  | S n' => i :: countFrom (i + 1) n'
  end.

Definition busIndices (low high : N) : list N :=
  countFrom low (N.to_nat (high + 1 - low)).

(** The doubles from 2^53 on: a mantissa of 53 bits times a power of
    two that is 2 at least. *)
Definition large (v : N) : Prop :=
  ∃ m e, 2 ^ 52 ≤ m < 2 ^ 53 ∧ 1 ≤ e ∧ v = m * 2 ^ e ∧ v ≤ Infinity.

(** The bit ranges whose indices are below 2^53, where every integer is
    a number. *)
Definition safeRange (port : Port) : Prop :=
  msb port < 2 ^ 53 ∧ lsb port < 2 ^ 53.

(** The ports whose bit range the loop counts through: all but the
    buses, not named [clock], with an index from 2^53 on. *)
Definition countable (port : Port) : Prop :=
  isClock port = false → msb port ≠ lsb port → safeRange port.

(** The port instances of a port, in the order they are given pins
    (for a bit range with indices below 2^53). *)
Definition instanceNames (port : Port) : list string :=
  if isClock port then []
  else if msb port =? lsb port then [portName port]
  else map (bitName (portName port))
         (busIndices (N.min (msb port) (lsb port))
            (N.max (msb port) (lsb port))).

Section AllocationVocabulary.

Variables inputPins outputPins : list string.

(** The assignments made so far took, in each direction, the first pins
    of the catalog sequence, in order. *)
Definition consistent (st : AllocState) : Prop :=
  ∀ d, pinsOf d (portConstraints st) = take (cursor d st) (catalog inputPins outputPins d).

(** One pin after the other for a list of port instance names. *)
Fixpoint allocNames (d : direction) (names : list string) (st : AllocState)
    : direction + AllocState :=
  match names with
  | [] => inr st
  | n :: rest =>
      match allocInstance inputPins outputPins n d st with
      | inl d' => inl d'
      | inr st' => allocNames d rest st'
      end
  end.

End AllocationVocabulary.

(** The extensions [baseNameOf] strips, in lower case. *)
Definition sourceExts : list string := ["cpp"; "cc"; "cxx"; "c"].

(** The argument at a position of a command line. *)
Definition argAt (n : nat) (c : Command) : option string := args c !! n.

(** ** Sample inputs *)

Definition twoModules : string :=
  "module _Z3subii (a, r); input [3:0] a; output r; endmodule " +:+
  "module _Z3addii (clock, b, s); input clock; input b; output [1:0] s; endmodule".

Definition eightPins : list string :=
  ["P1"; "P2"; "P3"; "P4"; "P5"; "P6"; "P7"; "P8"].

(** the assignments of an input bus [port] with [msb = 7] and [lsb = 0] *)
Definition portBits : list PinAssignment :=
  [ mkAssignment "port[0]" "P1" Input; mkAssignment "port[1]" "P2" Input;
    mkAssignment "port[2]" "P3" Input; mkAssignment "port[3]" "P4" Input;
    mkAssignment "port[4]" "P5" Input; mkAssignment "port[5]" "P6" Input;
    mkAssignment "port[6]" "P7" Input; mkAssignment "port[7]" "P8" Input ].

Definition threeInputs : string :=
  "module _Z4and3bbb (clock, a, b, c, r); input clock; input a; input b; " +:+
  "input c; output r; endmodule".

Definition and3Ports : list Port :=
  [ mkPort "clock" Input 0 0; mkPort "a" Input 0 0; mkPort "b" Input 0 0;
    mkPort "c" Input 0 0; mkPort "r" Output 0 0 ].

Definition demoSettings : Settings :=
  mkSettings (Some (mkBambu (Some "and3"))) "Bounding Box" "Breath First".

Definition demoProject : ProjectInfo :=
  mkProject "and3" "/w/and3.json" [mkFile "and3.cpp" "/w/and3.cpp" "cpp"]
    demoSettings.

(** the same project with a constraint file of its own *)
Definition pinnedProject : ProjectInfo :=
  mkProject "and3" "/w/and3.json"
    [ mkFile "and3.cpp" "/w/and3.cpp" "cpp";
      mkFile "pins.xml" "/w/pins.xml" "constraint" ]
    demoSettings.

(** a project whose constraint file has an empty path *)
Definition unpinnedProject : ProjectInfo :=
  mkProject "and3" "/w/and3.json" [mkFile "pins.xml" "" "constraint"]
    demoSettings.

Definition demoDir (path : string) : string := "/w/".
Definition demoResource (path : string) : string := "/res/" +:+ path.

Definition demoWorld : world := mkWorld {[ "/w/and3.v" := threeInputs ]} [].

Definition emptyWorld : world := mkWorld ∅ [].

(** a clock period of five nanoseconds, whatever the settings *)
Definition demoClock (b : BambuSettings) : option N := Some 5.

(** the allocation of [and3Ports] on [eightPins] and one output pin *)
Definition and3Alloc : AllocState :=
  mkAlloc 3 1
    [ mkAssignment "a" "P1" Input; mkAssignment "b" "P2" Input;
      mkAssignment "c" "P3" Input; mkAssignment "r" "Q1" Output ].

(** ** Properties of the matcher *)

Lemma orElse_Some {A} (x y : option A) (v : A) :
  orElse x y = Some v → x = Some v ∨ (x = None ∧ y = Some v).
Proof. destruct x; simpl; intros; [left | right]; auto. Qed.

Lemma repGreedy_inv p k s c o :
  repGreedy p k s c = Some o →
  ∃ u s', s = u ++ s' ∧ Forall (λ x, p x = true) u ∧ k s' c = Some o.
Proof.
  induction s as [|x s IH]; simpl; intros H.
  - by exists [], [].
  - destruct (p x) eqn:Hx; [| by exists [], (x :: s)].
    apply orElse_Some in H as [H | [_ H]]; [| by exists [], (x :: s)].
    destruct (IH H) as (u & s' & -> & Hu & Hk).
    exists (x :: u), s'. repeat split; [by constructor | done].
Qed.

Lemma repLazy_inv p k s c o :
  repLazy p k s c = Some o →
  ∃ u s', s = u ++ s' ∧ Forall (λ x, p x = true) u ∧ k s' c = Some o.
Proof.
  induction s as [|x s IH]; simpl; intros H.
  - destruct (k [] c) eqn:Hk; [| done]. exists [], []. by simplify_eq.
  - destruct (k (x :: s) c) eqn:Hk.
    + exists [], (x :: s). by simplify_eq.
    + destruct (p x) eqn:Hx; [| done].
      destruct (IH H) as (u & s' & -> & Hu & Hk').
      exists (x :: u), s'. repeat split; [by constructor | done].
Qed.

Lemma consumed_app u s' : consumed (u ++ s') s' = u.
Proof.
  unfold consumed. rewrite length_app.
  replace (length u + length s' - length s')%nat with (length u) by lia.
  by rewrite take_app_length.
Qed.

(** The matcher is sound for the regular expression it runs: every
    success is a success of the continuation after a word of the
    pattern, with the capture groups outside the pattern untouched. *)
Lemma matchRe_sound r : ∀ k s c o,
  matchRe r k s c = Some o →
  ∃ u s' c', s = u ++ s' ∧ inLang r u ∧ k s' c' = Some o ∧
    (∀ n, n ∉ groupsOf r → c' !! n = c !! n).
Proof.
  induction r as [| a | a | p | r1 IH1 r2 IH2 | r1 IH1 r2 IH2 | g p | n r IH |];
    intros k s c o H; simpl in H.
  - by exists [], s, c.
  - destruct s as [|x s]; [done |].
    destruct (Ascii.eqb_spec x a) as [-> |]; [| done]. by exists [a], s, c.
  - destruct s as [|x s]; [done |].
    destruct (Ascii.eqb_spec (upperChar x) (upperChar a)); [| done].
    exists [x], s, c. simpl. eauto 6.
  - destruct s as [|x s]; [done |]. destruct (p x) eqn:Hx; [| done].
    exists [x], s, c. simpl. eauto 6.
  - destruct (IH1 _ _ _ _ H) as (u1 & s1 & c1 & -> & Hu1 & H1 & Hc1).
    destruct (IH2 _ _ _ _ H1) as (u2 & s2 & c2 & -> & Hu2 & H2 & Hc2).
    exists (u1 ++ u2), s2, c2. rewrite <- app_assoc. repeat split; [| done |].
    + simpl. eauto.
    + intros m Hm. simpl in Hm. rewrite Hc2, Hc1; [done | |];
        intros ?; apply Hm, elem_of_app; auto.
  - apply orElse_Some in H as [H | [_ H]].
    + destruct (IH1 _ _ _ _ H) as (u & s1 & c1 & -> & Hu & H1 & Hc1).
      exists u, s1, c1. repeat split; [simpl; auto | done |].
      intros m Hm. apply Hc1. intros ?. apply Hm. simpl. apply elem_of_app; auto.
    + destruct (IH2 _ _ _ _ H) as (u & s1 & c1 & -> & Hu & H1 & Hc1).
      exists u, s1, c1. repeat split; [simpl; auto | done |].
      intros m Hm. apply Hc1. intros ?. apply Hm. simpl. apply elem_of_app; auto.
  - destruct g.
    + apply repGreedy_inv in H as (u & s' & -> & Hu & Hk). by exists u, s', c.
    + apply repLazy_inv in H as (u & s' & -> & Hu & Hk). by exists u, s', c.
  - destruct (IH _ _ _ _ H) as (u & s1 & c1 & -> & Hu & H1 & Hc1).
    exists u, s1, (<[n := consumed (u ++ s1) s1]> c1). repeat split; [done .. |].
    intros m Hm. simpl in Hm. apply not_elem_of_cons in Hm as [Hmn Hm].
    rewrite lookup_insert_ne by done. auto.
  - destruct s; [| done]. by exists [], [], c.
Qed.

(** A capture group holds the word its pattern consumed. *)
Lemma matchRe_Group n r k s c o :
  matchRe (Group n r) k s c = Some o →
  ∃ u s' c', s = u ++ s' ∧ inLang r u ∧ k s' (<[n := u]> c') = Some o.
Proof.
  simpl. intros H.
  apply matchRe_sound in H as (u & s' & c' & -> & Hu & Hk & _).
  rewrite consumed_app in Hk. eauto 6.
Qed.

Lemma consuming_nonempty r : ∀ u,
  consuming r = true → inLang r u → u ≠ [].
Proof.
  induction r as [| a | a | p | r1 IH1 r2 IH2 | r1 IH1 r2 IH2 | g p | n r IH |];
    simpl; intros u Hc Hu; try done.
  - by subst.
  - by destruct Hu as (x & -> & _).
  - by destruct Hu as (x & -> & _).
  - destruct Hu as (u1 & u2 & -> & Hu1 & Hu2).
    apply orb_true_iff in Hc as [Hc | Hc]; intros [? ?]%app_eq_nil.
    + by apply (IH1 u1).
    + by apply (IH2 u2).
  - apply andb_true_iff in Hc as [Hc1 Hc2].
    destruct Hu; [by apply IH1 | by apply IH2].
  - by apply IH.
Qed.

Lemma search_inv r s skipped o :
  search r s = Some (skipped, o) →
  ∃ s0, s = skipped ++ s0 ∧ matchHere r s0 = Some o.
Proof.
  revert skipped. induction s as [|x s IH]; intros skipped H; simpl in H.
  - destruct (matchHere r []) eqn:Hm; [| done].
    exists []. by simplify_eq.
  - destruct (matchHere r (x :: s)) eqn:Hm.
    + exists (x :: s). by simplify_eq.
    + destruct (search r s) as [[sk o']|] eqn:Hs; [| done]. simplify_eq.
      destruct (IH _ eq_refl) as (s0 & -> & Hm0). by exists s0.
Qed.

Lemma exec_inv r s c rest :
  exec r s = Some (c, rest) →
  ∃ skipped s0, s = skipped ++ s0 ∧ matchHere r s0 = Some (c, rest).
Proof.
  unfold exec. destruct (search r s) as [[sk o]|] eqn:Hs; [| done].
  intros ?; simplify_eq. apply search_inv in Hs as (s0 & ? & ?). eauto.
Qed.

Lemma matchHere_rest r s c rest :
  matchHere r s = Some (c, rest) →
  consuming r = true → (length rest < length s)%nat.
Proof.
  intros H Hc. apply matchRe_sound in H as (u & s' & c' & -> & Hu & Hk & _).
  unfold accept in Hk. simplify_eq.
  apply (consuming_nonempty _ _ Hc) in Hu. rewrite length_app.
  destruct u; [done | simpl; lia].
Qed.

(** A match of a consuming pattern moves [lastIndex] forward. *)
Lemma exec_progress r s c rest :
  consuming r = true → exec r s = Some (c, rest) →
  (length rest < length s)%nat.
Proof.
  intros Hc H. apply exec_inv in H as (sk & s0 & -> & H).
  apply matchHere_rest in H; [| done]. rewrite length_app. lia.
Qed.

(** With the length of the text as fuel the loop stops on a failed
    [exec], never on the fuel: it meets all the matches. *)
Lemma execAll_complete r : consuming r = true →
  ∀ fuel s, (length s ≤ fuel)%nat → matchesOf r s (execAll fuel r s).
Proof.
  intros Hc. induction fuel as [|fuel IH]; intros s Hlen; simpl.
  - destruct s; [| simpl in Hlen; lia]. constructor.
    destruct (exec r []) as [[c rest]|] eqn:He; [| done].
    apply exec_progress in He; [simpl in He; lia | done].
  - destruct (exec r s) as [[c rest]|] eqn:He.
    + constructor; [done |]. apply IH.
      apply exec_progress in He; [lia | done].
    + by constructor.
Qed.

Lemma matchesOf_unique r s l1 l2 :
  matchesOf r s l1 → matchesOf r s l2 → l1 = l2.
Proof.
  intros H1. revert l2. induction H1; intros l2 H2; inversion H2; subst;
    try congruence.
  assert (c0 = c ∧ rest0 = rest) as [-> ->] by (split; congruence).
  f_equal. auto.
Qed.

Lemma length_chars s : length (chars s) = String.length s.
Proof. induction s; simpl; auto. Qed.

Lemma append_assoc (s1 s2 s3 : string) :
  (s1 +:+ s2) +:+ s3 = s1 +:+ (s2 +:+ s3).
Proof.
  induction s1 as [|a s1 IH]; [done |].
  change (String a ((s1 +:+ s2) +:+ s3) = String a (s1 +:+ (s2 +:+ s3))).
  by rewrite IH.
Qed.

Lemma chars_append (s1 s2 : string) : chars (s1 +:+ s2) = chars s1 ++ chars s2.
Proof.
  induction s1 as [|a s1 IH]; [done |].
  change (a :: chars (s1 +:+ s2) = a :: (chars s1 ++ chars s2)).
  by rewrite IH.
Qed.

Lemma chars_text l : chars (text l) = l.
Proof. apply list_ascii_of_string_of_list_ascii. Qed.

Lemma isDigit_isWord x : isDigit x = true → isWord x = true.
Proof. unfold isWord. intros ->. by rewrite orb_true_r. Qed.

Lemma forallb_isWord l : Forall (λ x, isWord x = true) l → forallb isWord l = true.
Proof. induction 1 as [|x l Hx _ IH]; simpl; [done |]. by rewrite Hx. Qed.

(** The name captured by a match of [moduleRegex] has the mangled
    shape. *)
Lemma moduleMatch_mangled s c rest :
  matchHere moduleRegex s = Some (c, rest) →
  mangled (groupText 1 c) = true.
Proof.
  unfold matchHere. intros H.
  set (nameRe := Cat [Lit "_Z"; Plus isDigit; Plus isWord]).
  set (moduleTail := Cat [ Star isSpace; Chr "("; Group 2 (LazyStar anyChar);
                           Lit ");"; Group 3 (LazyStar anyChar);
                           Lit "endmodule" ]).
  change (matchRe (Lit "module")
            (matchRe (Plus isSpace)
               (matchRe (Group 1 nameRe) (matchRe moduleTail accept))) s ∅
          = Some (c, rest)) in H.
  apply matchRe_sound in H as (_ & s1 & c1 & _ & _ & H & _).
  apply matchRe_sound in H as (_ & s2 & c2 & _ & _ & H & _).
  apply matchRe_Group in H as (u & s3 & c3 & _ & Hu & H).
  apply matchRe_sound in H as (_ & s4 & c4 & _ & _ & H & Hc).
  unfold accept in H. simplify_eq.
  unfold mangled, groupText. rewrite Hc.
  - rewrite lookup_insert_eq.
    change (default [] (Some u)) with u. rewrite chars_text.
    destruct Hu as (? & ? & -> & (? & ? & -> & -> & ->) &
                    (? & ? & -> & (? & ds & -> & (d & -> & Hd) & Hds) &
                     (? & ? & -> & (? & ws & -> & (x & -> & Hx) & Hws) & ->))).
    simpl in Hds, Hws. rewrite app_nil_r. simpl app.
    destruct ds as [|d' ds]; simpl; rewrite Hd; simpl.
    + rewrite Hx. by apply forallb_isWord.
    + apply Forall_cons in Hds as [Hd' Hds].
      rewrite (isDigit_isWord _ Hd'). apply forallb_isWord.
      apply Forall_app. split.
      * eapply Forall_impl; [exact Hds |]. apply isDigit_isWord.
      * by constructor.
  - vm_compute. intros Hin.
    repeat (apply elem_of_cons in Hin as [Hin | Hin]; [done |]).
    by apply elem_of_nil in Hin.
Qed.

Lemma execAll_matches r fuel : ∀ s o,
  o ∈ execAll fuel r s → ∃ s0, matchHere r s0 = Some o.
Proof.
  induction fuel as [|fuel IH]; intros s o Hin; simpl in Hin.
  - by apply elem_of_nil in Hin.
  - destruct (exec r s) as [[c rest]|] eqn:He.
    + apply elem_of_cons in Hin as [-> | Hin]; [| eauto].
      apply exec_inv in He as (_ & s0 & _ & Hm). eauto.
    + by apply elem_of_nil in Hin.
Qed.

(** The loop with its early [return] finds the first match whose name
    contains the target. *)
Lemma moduleLoop_find top fuel : ∀ s,
  moduleLoop fuel top s =
  (λ b, mkParseResult b.1 (parsePorts b.2)) <$>
    List.find (nameContains top)
      (map (λ o, (groupText 1 o.1, groupText 3 o.1))
         (execAll fuel moduleRegex s)).
Proof.
  induction fuel as [|fuel IH]; intros s; simpl; [done |].
  destruct (exec moduleRegex s) as [[c rest]|]; [| done]. simpl.
  unfold nameContains at 1. simpl.
  destruct (includes _ _); [done | apply IH].
Qed.

Lemma find_first {A} (f : A → bool) pre b post :
  Forall (λ x, f x = false) pre → f b = true →
  List.find f (pre ++ b :: post) = Some b.
Proof.
  induction 1 as [|x pre Hx _ IH]; simpl; intros Hb.
  - by rewrite Hb.
  - rewrite Hx. auto.
Qed.

Lemma find_none {A} (f : A → bool) l :
  Forall (λ x, f x = false) l → List.find f l = None.
Proof. induction 1 as [|x l Hx _ IH]; simpl; [done |]. by rewrite Hx. Qed.

(** With the length of the text as fuel, [moduleMatches] lists every
    match the loop of [parseHLSVerilogPorts] can meet. *)
Lemma moduleMatches_complete content :
  matchesOf moduleRegex (chars content)
    (execAll (String.length content) moduleRegex (chars content)).
Proof.
  apply execAll_complete; [reflexivity |]. by rewrite length_chars.
Qed.

(** The same for the port declarations of a module body: [parsePorts]
    gives the port of every match of [portRegex], in textual order. *)
Lemma parsePorts_complete body :
  parsePorts body
  = map (λ o, portOfMatch o.1)
      (execAll (String.length body) portRegex (chars body)) ∧
  matchesOf portRegex (chars body)
    (execAll (String.length body) portRegex (chars body)).
Proof.
  split.
  - unfold parsePorts. generalize (chars body).
    induction (String.length body) as [|fuel IH]; intros s; simpl; [done |].
    destruct (exec portRegex s) as [[c rest]|]; [| done]. simpl. by rewrite IH.
  - apply execAll_complete; [reflexivity |]. by rewrite length_chars.
Qed.

Lemma inLang_litChars l u : inLang (litChars l) u → u = l.
Proof.
  revert u. induction l as [|a l IH]; intros u Hu; [done |].
  destruct l as [|b l]; [done |].
  destruct Hu as (u1 & u2 & -> & -> & Hu2). by rewrite (IH _ Hu2).
Qed.

Lemma startsWith_app pre s : startsWith (pre ++ s) pre = true.
Proof.
  induction pre as [|a pre IH]; [done |]. simpl.
  by rewrite Ascii.eqb_refl.
Qed.

Lemma includesFrom_app skipped l s : includesFrom (skipped ++ l ++ s) l = true.
Proof.
  induction skipped as [|x skipped IH]; simpl.
  - destruct (l ++ s) eqn:Hls; simpl; rewrite <- ?Hls, startsWith_app; done.
  - rewrite IH. apply orb_true_r.
Qed.

(** A lazy repetition stops at the first position its continuation
    accepts. *)
Lemma repLazy_first p k s c o :
  repLazy p k s c = Some o →
  ∃ u s', s = u ++ s' ∧ Forall (λ x, p x = true) u ∧ k s' c = Some o ∧
    ∀ j, (j < length u)%nat → k (drop j s) c = None.
Proof.
  induction s as [|x s IH]; simpl; intros H.
  - destruct (k [] c) eqn:Hk; [| done]. exists [], []. simplify_eq.
    repeat split; auto. intros j Hj. simpl in Hj. lia.
  - destruct (k (x :: s) c) eqn:Hk.
    + exists [], (x :: s). simplify_eq. repeat split; auto.
      intros j Hj. simpl in Hj. lia.
    + destruct (p x) eqn:Hx; [| done].
      destruct (IH H) as (u & s' & -> & Hu & Hk' & Hmin).
      exists (x :: u), s'. repeat split; [by constructor | done |].
      intros [|j] Hj; [exact Hk |]. simpl. apply Hmin. simpl in Hj. lia.
Qed.

(** A lazy repetition of a class that holds every code unit fails only
    when its continuation fails at every position. *)
Lemma repLazy_None p k s c :
  (∀ x, p x = true) → repLazy p k s c = None →
  ∀ u s', s = u ++ s' → k s' c = None.
Proof.
  intros Hp. induction s as [|x s IH]; simpl; intros H u s' Hs.
  - destruct u, s'; try done. by destruct (k [] c).
  - destruct (k (x :: s) c) eqn:Hk; [done |]. rewrite Hp in H.
    destruct u as [|y u]; simpl in Hs; [by subst s' |].
    injection Hs as -> ->. by eapply IH.
Qed.

Lemma anyChar_true x : anyChar x = true.
Proof. unfold anyChar. by destruct (isSpace x). Qed.

(** A literal matches the text that begins with it. *)
Lemma matchRe_litChars l k s c : matchRe (litChars l) k (l ++ s) c = k s c.
Proof.
  induction l as [|a l IH]; [done |]. destruct l as [|b l].
  - simpl. by rewrite Ascii.eqb_refl.
  - change (matchRe (Chr a) (matchRe (litChars (b :: l)) k)
              (a :: (b :: l) ++ s) c = k s c).
    change (matchRe (Chr a) ?k' (a :: ?s') ?c')
      with (if Ascii.eqb a a then k' s' c' else None).
    by rewrite Ascii.eqb_refl.
Qed.

Lemma startsWith_inv l : ∀ s,
  startsWith s l = true → s = l ++ drop (length l) s.
Proof.
  induction l as [|a l IH]; intros s H; [done |].
  destruct s as [|x s]; [done |]. simpl in H.
  apply andb_true_iff in H as [Hx H].
  apply Ascii.eqb_eq in Hx as ->. simpl. f_equal. by apply IH.
Qed.

Lemma includesFrom_inv sub : ∀ s,
  includesFrom s sub = true → ∃ pre post, s = pre ++ sub ++ post.
Proof.
  induction s as [|x s IH]; simpl; intros H.
  - rewrite orb_false_r in H. apply startsWith_inv in H. by exists [], (drop (length sub) []).
  - apply orb_true_iff in H as [H | H].
    + apply startsWith_inv in H. by exists [], (drop (length sub) (x :: s)).
    + destruct (IH H) as (pre & post & ->). by exists (x :: pre), post.
Qed.

(** When [init ++ [z]] occurs in [u ++ init ++ [z] ++ t] at no position
    of [u], it does not occur in [u ++ init]: its first occurrence is
    the one after [u]. *)
Lemma first_occurrence u init z t :
  (∀ j, (j < length u)%nat →
        startsWith (drop j (u ++ (init ++ [z]) ++ t)) (init ++ [z]) = false) →
  includesFrom (u ++ init) (init ++ [z]) = false.
Proof.
  intros Hmin. destruct (includesFrom _ _) eqn:H; [exfalso | done].
  apply includesFrom_inv in H as (pre & post & Heq).
  assert (length pre < length u)%nat as Hj.
  { apply (f_equal length) in Heq. rewrite !length_app in Heq. simpl in Heq. lia. }
  specialize (Hmin _ Hj).
  assert (u ++ (init ++ [z]) ++ t = pre ++ (init ++ [z]) ++ post ++ z :: t) as Hs.
  { rewrite <- !app_assoc. rewrite (app_assoc u init), Heq.
    by rewrite <- !app_assoc. }
  rewrite Hs, drop_app_length, startsWith_app in Hmin. done.
Qed.

(** What a match of [moduleRegex] is made of: the keyword, white space,
    the name, white space, the port list in parentheses up to the first
    [);] and the body up to the first [endmodule]. *)
Lemma moduleMatch_shape s c rest :
  matchHere moduleRegex s = Some (c, rest) →
  ∃ ws name ws' plist body,
    s = chars "module" ++ ws ++ name ++ ws' ++ "("%char :: plist ++
        chars ");" ++ body ++ chars "endmodule" ++ rest ∧
    c !! 1%nat = Some name ∧ c !! 3%nat = Some body ∧
    ws ≠ [] ∧ Forall (λ x, isSpace x = true) ws ∧
    Forall (λ x, isSpace x = true) ws' ∧
    includesFrom (plist ++ [")"%char]) (chars ");") = false ∧
    includesFrom (body ++ chars "endmodul") (chars "endmodule") = false.
Proof.
  unfold matchHere. intros H.
  set (nameRe := Cat [Lit "_Z"; Plus isDigit; Plus isWord]).
  set (K3 := matchRe (Lit "endmodule") (matchRe Eps accept)).
  set (K2 := matchRe (Lit ");") (matchRe (Group 3 (LazyStar anyChar)) K3)).
  change (matchRe (Lit "module")
            (matchRe (Plus isSpace)
               (matchRe (Group 1 nameRe)
                  (matchRe (Star isSpace)
                     (matchRe (Chr "(")
                        (matchRe (Group 2 (LazyStar anyChar)) K2))))) s ∅
          = Some (c, rest)) in H.
  apply matchRe_sound in H as (u0 & s1 & c1 & -> & Hu0 & H & _).
  apply inLang_litChars in Hu0 as ->.
  apply matchRe_sound in H as (ws & s2 & c2 & -> & Hws & H & _).
  apply matchRe_Group in H as (name & s3 & c3 & -> & _ & H).
  apply matchRe_sound in H as (ws' & s4 & c4 & -> & Hws' & H & Hc4).
  apply matchRe_sound in H as (par & s5 & c5 & -> & Hpar & H & Hc5).
  simpl in Hpar. subst par.
  change (repLazy anyChar (λ s' c', K2 s' (<[2%nat := consumed s5 s']> c')) s5 c5
          = Some (c, rest)) in H.
  apply repLazy_first in H as (plist & s6 & -> & _ & H & Hmin2).
  rewrite consumed_app in H. unfold K2 in H.
  apply matchRe_sound in H as (u6 & s7 & c7 & -> & Hu6 & H & Hc7).
  apply inLang_litChars in Hu6 as ->.
  change (repLazy anyChar (λ s' c', K3 s' (<[3%nat := consumed s7 s']> c')) s7 c7
          = Some (c, rest)) in H.
  apply repLazy_first in H as (body & s8 & -> & _ & H & Hmin3).
  rewrite consumed_app in H. unfold K3 in H.
  apply matchRe_sound in H as (u8 & s9 & c9 & -> & Hu8 & H & Hc9).
  apply inLang_litChars in Hu8 as ->.
  simpl in H. unfold accept in H. simplify_eq.
  exists ws, name, ws', plist, body.
  split; [done |].
  assert (∀ n : nat, n ∉ @nil nat) as Hnil by (intros n; apply not_elem_of_nil).
  split.
  { rewrite Hc9, lookup_insert_ne, Hc7, lookup_insert_ne, Hc5, Hc4 by (done || apply Hnil).
    apply lookup_insert_eq. }
  split; [rewrite Hc9 by apply Hnil; apply lookup_insert_eq |].
  split.
  { destruct Hws as (? & ? & -> & (x & -> & _) & _). done. }
  split.
  { destruct Hws as (? & us & -> & (x & -> & Hx) & Hus). by constructor. }
  split; [exact Hws' |].
  split.
  - apply (first_occurrence plist [")"%char] ";"%char
             (body ++ chars "endmodule" ++ rest)).
    intros j Hj.
    destruct (startsWith _ _) eqn:Hst; [exfalso | done].
    apply startsWith_inv in Hst. specialize (Hmin2 j Hj).
    change (([")"%char] ++ [";"%char]) ++ body ++ chars "endmodule" ++ rest)
      with (chars ");" ++ body ++ chars "endmodule" ++ rest) in Hst.
    change ([")"%char] ++ [";"%char]) with (chars ");") in Hst.
    rewrite Hst in Hmin2. unfold K2, Lit in Hmin2.
    rewrite matchRe_litChars in Hmin2.
    match type of Hmin2 with
    | matchRe _ _ ?t ?c0 = None =>
        change (repLazy anyChar
                  (λ s' c', K3 s' (<[3%nat := consumed t s']> c')) t c0 = None)
          in Hmin2
    end.
    rewrite drop_drop in Hmin2.
    eapply (repLazy_None _ _ _ _ anyChar_true) in Hmin2.
    2: { rewrite (app_assoc plist), (app_assoc (plist ++ _)).
         apply drop_app_le. rewrite !length_app. simpl. lia. }
    unfold K3, Lit in Hmin2. by rewrite matchRe_litChars in Hmin2.
  - apply (first_occurrence body (chars "endmodul") "e"%char rest).
    intros j Hj.
    destruct (startsWith _ _) eqn:Hst; [exfalso | done].
    apply startsWith_inv in Hst. specialize (Hmin3 j Hj).
    change ((chars "endmodul" ++ ["e"%char]) ++ rest)
      with (chars "endmodule" ++ rest) in Hst.
    change (chars "endmodul" ++ ["e"%char]) with (chars "endmodule") in Hst.
    rewrite Hst in Hmin3. unfold K3, Lit in Hmin3.
    by rewrite matchRe_litChars in Hmin3.
Qed.

(** The matcher is complete for the patterns without the end anchor:
    it finds a match when the text begins with a word of the pattern
    after which the continuation succeeds. *)
Lemma orElse_not_None {A} (x y : option A) :
  x ≠ None ∨ y ≠ None → orElse x y ≠ None.
Proof. destruct x; simpl; [done | by intros [|]]. Qed.

Lemma repGreedy_complete p k s' c u :
  Forall (λ x, p x = true) u → k s' c ≠ None →
  repGreedy p k (u ++ s') c ≠ None.
Proof.
  intros Hu Hk. induction Hu as [|x u Hx _ IH]; simpl.
  - destruct s' as [|y s']; simpl; [exact Hk |]. destruct (p y); [| exact Hk].
    apply orElse_not_None. by right.
  - rewrite Hx. apply orElse_not_None. by left.
Qed.

Lemma repLazy_complete p k s' c u :
  Forall (λ x, p x = true) u → k s' c ≠ None →
  repLazy p k (u ++ s') c ≠ None.
Proof.
  intros Hu Hk. induction Hu as [|x u Hx _ IH]; simpl.
  - destruct s' as [|y s']; simpl; by destruct (k _ c).
  - destruct (k (x :: u ++ s') c); [done |]. rewrite Hx. exact IH.
Qed.

Lemma matchRe_complete r : anchored r = false →
  ∀ k s' u c,
    inLang r u → (∀ c', k s' c' ≠ None) → matchRe r k (u ++ s') c ≠ None.
Proof.
  induction r as [| a | a | p | r1 IH1 r2 IH2 | r1 IH1 r2 IH2 | g p | n r IH |];
    simpl; intros Hr k s' u c Hu Hk; try done.
  - subst u. apply Hk.
  - subst u. simpl. rewrite Ascii.eqb_refl. apply Hk.
  - destruct Hu as (x & -> & Hx). simpl. rewrite Hx, Ascii.eqb_refl. apply Hk.
  - destruct Hu as (x & -> & Hx). simpl. rewrite Hx. apply Hk.
  - apply orb_false_iff in Hr as [Hr1 Hr2].
    destruct Hu as (u1 & u2 & -> & Hu1 & Hu2). rewrite <- app_assoc.
    apply IH1; [done | done |]. intros c'. by apply IH2.
  - apply orb_false_iff in Hr as [Hr1 Hr2]. apply orElse_not_None.
    destruct Hu as [Hu | Hu]; [left; by apply IH1 | right; by apply IH2].
  - destruct g; [by apply repGreedy_complete | by apply repLazy_complete].
  - apply IH; [done | done |]. intros c'. apply Hk.
Qed.

Lemma inLang_of_litChars l : inLang (litChars l) l.
Proof.
  induction l as [|a l IH]; [done |]. destruct l as [|b l]; [done |].
  exists [a], (b :: l). by repeat split.
Qed.

(** A name of the mangled shape is a word of the name pattern. *)
Lemma mangled_inLang name :
  mangled name = true →
  inLang (Cat [Lit "_Z"; Plus isDigit; Plus isWord]) (chars name).
Proof.
  unfold mangled. destruct (chars name) as [|x1 [|x2 [|d [|w rest]]]]; try done;
    try (by destruct x1 as [[] [] [] [] [] [] [] []]);
    try (by destruct x1 as [[] [] [] [] [] [] [] []];
         destruct x2 as [[] [] [] [] [] [] [] []]).
  destruct (Ascii.eqb_spec x1 "_") as [-> | Hne].
  2: { by destruct x1 as [[] [] [] [] [] [] [] []]. }
  destruct (Ascii.eqb_spec x2 "Z") as [-> | Hne].
  2: { by destruct x2 as [[] [] [] [] [] [] [] []]. }
  intros H. apply andb_true_iff in H as [H Hrest].
  apply andb_true_iff in H as [Hd Hw].
  exists (chars "_Z"), (d :: w :: rest). split; [done |].
  split; [exact (inLang_of_litChars (chars "_Z")) |].
  exists [d], (w :: rest). split; [done |]. split.
  { exists [d], []. repeat split; [by exists d | constructor]. }
  exists (w :: rest), []. split; [by rewrite app_nil_r |]. split; [| done].
  exists [w], rest. repeat split; [by exists w |].
  clear -Hrest. induction rest as [|y rest IH]; simpl in *; [constructor |].
  apply andb_true_iff in Hrest as [? ?]. constructor; auto.
Qed.

(** Where a text has the shape of a module, [moduleRegex] matches. *)
Lemma moduleShape_matches s : moduleShape s → matchHere moduleRegex s ≠ None.
Proof.
  intros (ws & name & ws' & plist & body & rest & -> & Hne & Hws & Hname & Hws').
  unfold matchHere.
  change (matchRe (Lit "module")
            (matchRe (Plus isSpace)
               (matchRe (Group 1 (Cat [Lit "_Z"; Plus isDigit; Plus isWord]))
                  (matchRe (Star isSpace)
                     (matchRe (Chr "(")
                        (matchRe (Group 2 (LazyStar anyChar))
                           (matchRe (Lit ");")
                              (matchRe (Group 3 (LazyStar anyChar))
                                 (matchRe (Lit "endmodule")
                                    (matchRe Eps accept)))))))))
            (chars "module" ++ ws ++ chars name ++ ws' ++
             ["("%char] ++ plist ++ chars ");" ++ body ++
             chars "endmodule" ++ rest) ∅ ≠ None).
  apply matchRe_complete;
    [reflexivity | exact (inLang_of_litChars (chars "module")) | intros ?].
  apply matchRe_complete; [reflexivity | | intros ?].
  { destruct Hws as [|x ws Hx Hws]; [done |].
    exists [x], ws. repeat split; [by exists x | done]. }
  apply matchRe_complete; [reflexivity | by apply mangled_inLang | intros ?].
  apply matchRe_complete; [reflexivity | exact Hws' | intros ?].
  apply matchRe_complete; [reflexivity | done | intros ?].
  apply matchRe_complete; [reflexivity | | intros ?].
  { apply Forall_forall. intros x _. apply anyChar_true. }
  apply matchRe_complete;
    [reflexivity | exact (inLang_of_litChars (chars ");")) | intros ?].
  apply matchRe_complete; [reflexivity | | intros ?].
  { apply Forall_forall. intros x _. apply anyChar_true. }
  apply matchRe_complete;
    [reflexivity | exact (inLang_of_litChars (chars "endmodule")) | intros ?].
  done.
Qed.

(** The search skips the positions where the pattern does not match. *)
Lemma search_skipped r : ∀ s skipped o,
  search r s = Some (skipped, o) →
  ∀ j, (j < length skipped)%nat → matchHere r (drop j s) = None.
Proof.
  induction s as [|x s IH]; intros skipped o H j Hj; simpl in H.
  - destruct (matchHere r []); [| done]. simplify_eq. simpl in Hj. lia.
  - destruct (matchHere r (x :: s)) eqn:Hm; [simplify_eq; simpl in Hj; lia |].
    destruct (search r s) as [[sk o']|] eqn:Hs; [| done]. simplify_eq.
    destruct j as [|j]; [done |]. simpl. eapply IH; [done |]. simpl in Hj. lia.
Qed.

Lemma search_None r : ∀ s,
  search r s = None → ∀ j, matchHere r (drop j s) = None.
Proof.
  induction s as [|x s IH]; intros H j; simpl in H.
  - rewrite drop_nil. by destruct (matchHere r []).
  - destruct (matchHere r (x :: s)) eqn:Hm; [done |].
    destruct (search r s) as [[sk o']|] eqn:Hs; [done |].
    destruct j as [|j]; [done |]. simpl. by apply IH.
Qed.

(** C1, as amended.  Port extraction goes by the matches of one
    pattern, one after the other from the start of the text.  The first
    match begins at the first position where the text has the shape of
    a module: the keyword [module], white space, a name of the mangled
    shape ([_Z], a digit, then word characters, one at least), optional
    white space, a parenthesis, and further on [);] and then
    [endmodule].  Its port list runs to the first [);] and its body from
    there to the first [endmodule]; the next matches are those of the
    text that follows it, and there is no match when the text has the
    shape at no position.  Extraction returns the name of the first
    match whose name contains the target function name as a
    case-insensitive substring, with the ports declared in the body of
    that match, and [null] when no match has such a name. *)
Theorem parse_selects_first_match (content topFunctionName : string) :
  (moduleMatches content = [] →
   ∀ j, ¬ moduleShape (drop j (chars content))) ∧
  (∀ name body post,
     moduleMatches content = (name, body) :: post →
     ∃ before ws ws' plist after,
       chars content
       = before ++ chars "module" ++ ws ++ chars name ++ ws' ++
         "("%char :: plist ++ chars ");" ++ chars body ++
         chars "endmodule" ++ after ∧
       ws ≠ [] ∧ Forall (λ x, isSpace x = true) ws ∧ mangled name = true ∧
       Forall (λ x, isSpace x = true) ws' ∧
       includesFrom (plist ++ [")"%char]) (chars ");") = false ∧
       includes (body +:+ "endmodul") "endmodule" = false ∧
       (∀ j, (j < length before)%nat →
             ¬ moduleShape (drop j (chars content))) ∧
       post = moduleMatches (text after)) ∧
  (∀ pre b post,
     moduleMatches content = pre ++ b :: post →
     Forall (λ x, nameContains topFunctionName x = false) pre →
     nameContains topFunctionName b = true →
     parseVerilogText content topFunctionName
     = Some (mkParseResult b.1 (parsePorts b.2))) ∧
  (Forall (λ x, nameContains topFunctionName x = false)
     (moduleMatches content) →
   parseVerilogText content topFunctionName = None).
Proof.
  split; [| split; [| unfold parseVerilogText; rewrite moduleLoop_find;
                      fold (moduleMatches content); split]].
  - intros Hnone j Hshape. apply moduleShape_matches in Hshape.
    pose proof (moduleMatches_complete content) as Hm.
    unfold moduleMatches in Hnone. apply map_eq_nil in Hnone.
    rewrite Hnone in Hm. inversion Hm as [s He|]; subst.
    unfold exec in He.
    destruct (search moduleRegex (chars content)) as [[sk o]|] eqn:Hs; [done |].
    by rewrite (search_None _ _ Hs) in Hshape.
  - intros name body post Heq. unfold moduleMatches in Heq.
    change (map ?f ?l) with (f <$> l) in Heq.
    apply fmap_cons_inv in Heq as ([c rest] & l2 & Hb & -> & Hall).
    cbn [fst snd] in Hb. injection Hb as -> ->.
    pose proof (moduleMatches_complete content) as Hm. rewrite Hall in Hm.
    inversion Hm as [|s c' rest' l' He Hrest]; subst.
    unfold exec in He.
    destruct (search moduleRegex (chars content)) as [[before o]|] eqn:Hs;
      [| done].
    injection He as ->.
    pose proof (search_skipped _ _ _ _ Hs) as Hleft.
    apply search_inv in Hs as (s0 & Hs & Hm0).
    pose proof (moduleMatch_mangled _ _ _ Hm0) as Hname.
    apply moduleMatch_shape in Hm0
      as (ws & name & ws' & plist & body & -> & Hn & Hb & ? & ? & ? & ? & ?).
    exists before, ws, ws', plist, rest. unfold groupText in *.
    rewrite Hn, Hb in *. cbn [default] in *. rewrite !chars_text.
    split; [done |]. do 5 (split; [done |]). split.
    { unfold includes. by rewrite chars_append, chars_text. }
    split.
    { intros j Hj Hshape. apply moduleShape_matches in Hshape.
      by rewrite (Hleft j Hj) in Hshape. }
    unfold moduleMatches. f_equal. rewrite chars_text.
    eapply matchesOf_unique; [exact Hrest |].
    apply execAll_complete; [reflexivity |].
    by rewrite <- length_chars, chars_text.
  - intros pre b post -> Hpre Hb. by rewrite find_first.
  - intros Hnone. by rewrite find_none.
Qed.

Lemma parse_selects_first_match_witness :
  parseVerilogText twoModules "ADD"
  = Some (mkParseResult "_Z3addii"
            [mkPort "clock" Input 0 0; mkPort "b" Input 0 0;
             mkPort "s" Output 1 0]).
Proof.
  destruct (parse_selects_first_match twoModules "ADD")
    as (_ & _ & Hfirst & _).
  rewrite (Hfirst
    [("_Z3subii", " input [3:0] a; output r; ")]
    ("_Z3addii", " input clock; input b; output [1:0] s; ") []);
    [reflexivity | reflexivity | by repeat constructor | reflexivity].
Defined.

(** C1, as stated, fails.  A module named [main] is not of the mangled
    shape, so it is not returned although its name contains the target;
    and a module whose header is not closed by [);] gives a match that
    runs on to the [);] of the next header: the name of the first module
    is returned with the ports of the second. *)
Lemma extraction_goes_by_the_pattern :
  includes (toLowerCase "main") (toLowerCase "main") = true ∧
  parseVerilogText "module main (a, r); input a; output r; endmodule" "main"
  = None ∧
  parseVerilogText
    ("module _Z3addii (a) ; input a; endmodule " +:+
     "module _Z3subii (b, q); input b; output q; endmodule") "add"
  = Some (mkParseResult "_Z3addii"
            [mkPort "b" Input 0 0; mkPort "q" Output 0 0]).
Proof. repeat split. Qed.

(** ** Properties of the numbers *)

Lemma toNumber_exact n : n ≤ 2 ^ 53 → toNumber n = n.
Proof.
  intros Hn. unfold toNumber.
  destruct (N.ltb_spec n (2 ^ 53)) as [|Hge]; [done |].
  assert (n = 2 ^ 53) as -> by lia. by vm_compute.
Qed.

Lemma pow2_ge_2 e : 1 ≤ e → 2 ≤ 2 ^ e.
Proof.
  intros He. change 2 with (2 ^ 1) at 1. apply N.pow_le_mono_r; lia.
Qed.

Lemma log2_large n : 2 ^ 53 ≤ n → 53 ≤ N.log2 n.
Proof.
  intros Hn. rewrite <- (N.log2_pow2 53) by lia. by apply N.log2_le_mono.
Qed.

(** What [N.log2] says of a number from 2^53 on: it lies between
    [2^52 * ulp] and [2^53 * ulp]. *)
Lemma ulp_bounds n :
  2 ^ 53 ≤ n →
  let e := N.log2 n - 52 in
  1 ≤ e ∧ 2 ^ 52 * 2 ^ e ≤ n < 2 ^ 53 * 2 ^ e.
Proof.
  intros Hn e. pose proof (log2_large n Hn) as Hk.
  assert (0 < n) as Hpos by (assert (0 < 2 ^ 53) by (by vm_compute); lia).
  pose proof (N.log2_spec n Hpos) as [Hlo Hhi].
  assert (N.log2 n = 52 + e) as Hke by (unfold e; lia).
  rewrite Hke in Hlo, Hhi. rewrite N.pow_succ_r', N.pow_add_r in Hhi.
  rewrite N.pow_add_r in Hlo.
  split; [unfold e; lia |]. split; [done |].
  change (2 ^ 53) with (2 * 2 ^ 52). lia.
Qed.

Lemma mantissa_bounds n P :
  2 ≤ P → 2 ^ 52 * P ≤ n < 2 ^ 53 * P → 2 ^ 52 ≤ n / P < 2 ^ 53.
Proof.
  intros HP [Hlo Hhi]. split.
  - apply N.div_le_lower_bound; lia.
  - apply N.Div0.div_lt_upper_bound; lia.
Qed.

Lemma toNumber_large n : 2 ^ 53 ≤ n → large (toNumber n).
Proof.
  intros Hn. destruct (ulp_bounds n Hn) as [He Hb].
  unfold toNumber. destruct (N.ltb_spec n (2 ^ 53)) as [|_]; [lia |].
  set (e := N.log2 n - 52) in *. set (P := 2 ^ e) in *.
  pose proof (pow2_ge_2 e He) as HP. fold P in HP.
  pose proof (mantissa_bounds n P HP Hb) as Hq.
  set (q := n / P) in *.
  match goal with |- context [N.min (?x * P) _] => set (m := x) end.
  assert (m = q ∨ m = q + 1) as Hm by (unfold m; destruct (_ || _); auto).
  destruct (N.le_gt_cases (m * P) Infinity) as [Hle | Hgt].
  - rewrite N.min_l by exact Hle.
    destruct (N.eq_dec m (2 ^ 53)) as [Heq | Hne].
    + exists (2 ^ 52), (e + 1).
      split; [by vm_compute |]. split; [lia |]. split; [| done].
      rewrite Heq, N.pow_add_r. fold P. change (2 ^ 53) with (2 ^ 52 * 2 ^ 1). lia.
    + exists m, e. split; [lia |]. by split.
  - rewrite N.min_r by lia.
    exists (2 ^ 52), 972.
    split; [by vm_compute |]. split; [by vm_compute |]. split; [by vm_compute | lia].
Qed.

Lemma toNumber_lower j n :
  53 ≤ j ≤ 1024 → 2 ^ j ≤ n → 2 ^ j ≤ toNumber n.
Proof.
  intros Hj Hn.
  assert (2 ^ 53 ≤ 2 ^ j) as H53 by (apply N.pow_le_mono_r; lia).
  assert (2 ^ 53 ≤ n) as Hn53 by lia.
  destruct (ulp_bounds n Hn53) as [He Hb].
  unfold toNumber. destruct (N.ltb_spec n (2 ^ 53)) as [|_]; [lia |].
  set (e := N.log2 n - 52) in *. set (P := 2 ^ e) in *.
  pose proof (pow2_ge_2 e He) as HP. fold P in HP.
  pose proof (mantissa_bounds n P HP Hb) as Hq.
  set (q := n / P) in *.
  match goal with |- context [N.min (?x * P) _] => set (m := x) end.
  assert (q ≤ m) as Hm by (unfold m; destruct (_ || _); lia).
  apply N.min_glb.
  - assert (j ≤ N.log2 n) as Hjk.
    { rewrite <- (N.log2_pow2 j) by lia. by apply N.log2_le_mono. }
    assert (2 ^ j ≤ 2 ^ (52 + e)) as Hpow.
    { apply N.pow_le_mono_r; [lia | unfold e; lia]. }
    rewrite N.pow_add_r in Hpow. fold P in Hpow. nia.
  - unfold Infinity. apply N.pow_le_mono_r; lia.
Qed.

(** [i++] on a double from 2^53 on: the sum is rounded back, but for a
    tie that goes to an even mantissa two further. *)
Lemma increment_large m e :
  2 ^ 52 ≤ m < 2 ^ 53 → 1 ≤ e → m * 2 ^ e ≤ Infinity →
  increment (m * 2 ^ e)
  = if (e =? 1) && N.odd m then m * 2 ^ e + 2 else m * 2 ^ e.
Proof.
  intros Hm He Hle. pose proof (pow2_ge_2 e He) as HP.
  unfold increment, toNumber.
  set (P := 2 ^ e) in *. set (n := m * P + 1).
  assert (2 ^ 52 * P ≤ n < 2 ^ 53 * P) as Hb by (unfold n; nia).
  destruct (N.ltb_spec n (2 ^ 53)) as [Hlt|_]; [nia |].
  assert (N.log2 n = 52 + e) as ->.
  { apply N.log2_unique; [lia |].
    rewrite N.pow_succ_r', !N.pow_add_r. fold P.
    change (2 ^ 53) with (2 * 2 ^ 52) in Hb. lia. }
  replace (52 + e - 52) with e by lia. fold P.
  assert (n / P = m) as ->.
  { symmetry. apply (N.div_unique n P m 1); [lia | unfold n; lia]. }
  assert (n mod P = 1) as ->.
  { symmetry. apply (N.mod_unique n P m 1); [lia | unfold n; lia]. }
  destruct (N.ltb_spec P (2 * 1)) as [|_]; [lia |]. rewrite orb_false_l.
  destruct (N.eqb_spec e 1) as [-> | Hne].
  - change (2 * 1 =? P) with true. rewrite andb_true_l.
    destruct (N.odd m).
    + rewrite N.min_l; [unfold P; lia |].
      assert ((m + 1) * P ≤ 2 ^ 54)
        by (unfold P; change (2 ^ 54) with (2 ^ 53 * 2 ^ 1); lia).
      assert (2 ^ 54 ≤ Infinity) by (by vm_compute). lia.
    + apply N.min_l, Hle.
  - assert (4 ≤ P).
    { change 4 with (2 ^ 2). apply N.pow_le_mono_r; lia. }
    destruct (N.eqb_spec (2 * 1) P) as [|_]; [lia |]. rewrite andb_false_l.
    apply N.min_l, Hle.
Qed.

Lemma large_even v : large v → N.even v = true.
Proof.
  intros (m & e & _ & He & -> & _).
  replace e with (N.succ (e - 1)) by lia. rewrite N.pow_succ_r'.
  replace (m * (2 * 2 ^ (e - 1))) with (2 * (m * 2 ^ (e - 1))) by lia.
  rewrite N.even_mul. by vm_compute.
Qed.

(** From 2^53 on [i++] either leaves a double as it is, or moves it to
    the next double, which it then leaves as it is. *)
Lemma increment_settles v :
  large v →
  increment v = v ∨
  (increment v = v + 2 ∧ increment (v + 2) = v + 2 ∧ large (v + 2)).
Proof.
  intros (m & e & Hm & He & -> & Hle). rewrite increment_large by done.
  destruct (N.eqb_spec e 1) as [-> | Hne]; [| by left].
  destruct (N.odd m) eqn:Hodd; [right | by left].
  split; [done |].
  assert (2 ^ 54 ≤ Infinity) as Hinf by (by vm_compute).
  destruct (N.eq_dec (m + 1) (2 ^ 53)) as [Heq | Hne].
  - replace (m * 2 ^ 1 + 2) with (2 ^ 52 * 2 ^ 2)
      by (change (2 ^ 52 * 2 ^ 2) with (2 ^ 53 * 2); lia).
    split.
    + apply increment_large; [by vm_compute | by vm_compute | by vm_compute].
    + exists (2 ^ 52), 2. split; [by vm_compute |]. split; [by vm_compute |].
      split; [done | by vm_compute].
  - replace (m * 2 ^ 1 + 2) with ((m + 1) * 2 ^ 1) by lia.
    assert ((m + 1) * 2 ^ 1 ≤ Infinity) as Hle'.
    { change (2 ^ 54) with (2 ^ 53 * 2 ^ 1) in Hinf. lia. }
    split.
    + rewrite increment_large; [| lia | lia | done].
      replace (m + 1) with (N.succ m) by lia.
      by rewrite N.odd_succ, <- N.negb_odd, Hodd.
    + exists (m + 1), 1. split; [lia |]. split; [lia |]. by split.
Qed.

(** A double with an odd mantissa just above 2^53 is the rounding of
    itself only. *)
Lemma toNumber_odd_mantissa n m :
  2 ^ 52 ≤ m < 2 ^ 53 → N.odd m = true → toNumber n = m * 2 ^ 1 → n = m * 2 ^ 1.
Proof.
  intros Hm Hodd H.
  destruct (N.lt_ge_cases n (2 ^ 53)) as [Hlt | Hge].
  { rewrite toNumber_exact in H by lia. lia. }
  destruct (N.lt_ge_cases n (2 ^ 54)) as [Hlt | Hge'].
  2: { pose proof (toNumber_lower 54 n) as Hlow.
       change (2 ^ 54) with (2 ^ 53 * 2 ^ 1) in Hlow, Hge'. lia. }
  revert H. unfold toNumber.
  destruct (N.ltb_spec n (2 ^ 53)) as [|_]; [lia |].
  assert (N.log2 n = 53) as ->.
  { apply N.log2_unique; [lia |]. by split. }
  change (2 ^ (53 - 52)) with 2. change (2 ^ 1) with 2.
  pose proof (N.Div0.div_mod n 2) as Hdiv.
  pose proof (N.mod_upper_bound n 2) as Hr.
  set (q := n / 2) in *. set (r := n mod 2) in *.
  assert (2 ^ 54 ≤ Infinity) as Hinf by (by vm_compute).
  destruct (N.ltb_spec 2 (2 * r)) as [|_]; [lia |]. rewrite orb_false_l.
  destruct (N.eqb_spec (2 * r) 2) as [Hr2 | Hr2].
  - rewrite andb_true_l. destruct (N.odd q) eqn:Hq.
    + rewrite N.min_l by lia. intros Heq.
      assert (m = N.succ q) as -> by lia.
      by rewrite N.odd_succ, <- N.negb_odd, Hq in Hodd.
    + rewrite N.min_l by lia. intros Heq.
      assert (m = q) as -> by lia. congruence.
  - rewrite andb_false_l, N.min_l by lia. lia.
Qed.

(** Two different numbers that round to the same double from 2^53 on
    round to one that [i++] leaves as it is. *)
Lemma increment_collision a b :
  a ≠ b → toNumber a = toNumber b → 2 ^ 53 ≤ toNumber a →
  increment (toNumber a) = toNumber a.
Proof.
  intros Hab Heq Hge.
  assert (2 ^ 53 ≤ a) as Ha.
  { destruct (N.lt_ge_cases a (2 ^ 53)) as [Hlt|]; [| done].
    rewrite toNumber_exact in Hge by lia. lia. }
  destruct (toNumber_large a Ha) as (m & e & Hm & He & Hv & Hle).
  rewrite Hv in Hle |- *. rewrite increment_large by done.
  destruct (N.eqb_spec e 1) as [-> | Hne]; [| done].
  destruct (N.odd m) eqn:Hodd; [exfalso | done].
  apply Hab. rewrite (toNumber_odd_mantissa a m), (toNumber_odd_mantissa b m);
    [done | done | done | congruence | done | done | done].
Qed.

Lemma large_ge v : large v → 2 ^ 53 ≤ v.
Proof.
  intros (m & e & Hm & He & -> & _). pose proof (pow2_ge_2 e He).
  change (2 ^ 53) with (2 ^ 52 * 2). nia.
Qed.

(** What [toNumber] returns is a number: an integer below 2^53 or a
    double from 2^53 on. *)
Lemma toNumber_number n : toNumber n < 2 ^ 53 ∨ large (toNumber n).
Proof.
  destruct (N.lt_ge_cases n (2 ^ 53)) as [Hlt | Hge].
  - left. rewrite toNumber_exact; lia.
  - right. by apply toNumber_large.
Qed.

(** Below a double from 2^53 on, [i++] never takes a number past it:
    the variable ends on a number that [i++] leaves as it is. *)
Lemma increment_below high i :
  large high → i ≤ high → i < 2 ^ 53 ∨ large i →
  i < high ∨ increment i = i →
  increment i ≤ high ∧
  (increment i < 2 ^ 53 ∨ large (increment i)) ∧
  (increment i < high ∨ increment (increment i) = increment i).
Proof.
  intros Hhigh Hle Hi Hstep.
  destruct (N.eq_dec (increment i) i) as [Hs | Hns].
  { rewrite Hs. auto. }
  assert (i < high) as Hlt by (destruct Hstep; [done | congruence]).
  pose proof (large_ge _ Hhigh) as Hge.
  destruct Hi as [Hi | Hi].
  - assert (increment i = i + 1) as ->
      by (unfold increment; apply toNumber_exact; lia).
    split; [lia |]. split.
    + destruct (N.eq_dec (i + 1) (2 ^ 53)) as [-> | ?]; [right | left; lia].
      exists (2 ^ 52), 1. split; [by vm_compute |]. split; [lia |].
      split; by vm_compute.
    + destruct (N.eq_dec (i + 1) high) as [Heq | ?]; [right | left; lia].
      assert (i + 1 = 2 ^ 53) as -> by lia. by vm_compute.
  - destruct (increment_settles _ Hi) as [? | (Hinc & Hst & Hl)]; [done |].
    rewrite Hinc. split; [| by auto].
    apply large_even, N.even_spec in Hi as [x ->].
    apply large_even, N.even_spec in Hhigh as [y ->]. lia.
Qed.

(** ** Properties of the pin allocation *)

Section AllocationProperties.

Variables inputPins outputPins : list string.

Abbreviation catalog := (catalog inputPins outputPins).
Abbreviation allocInstance := (allocInstance inputPins outputPins).
Abbreviation allocBits := (allocBits inputPins outputPins).
Abbreviation allocPort := (allocPort inputPins outputPins).
Abbreviation allocPorts := (allocPorts inputPins outputPins).
Abbreviation allocNames := (allocNames inputPins outputPins).
Abbreviation consistent := (consistent inputPins outputPins).

Lemma allocInstance_inr name d st st' :
  allocInstance name d st = inr st' →
  ∃ p, catalog d !! cursor d st = Some p ∧ p ≠ "" ∧
       portConstraints st' = portConstraints st ++ [mkAssignment name p d] ∧
       cursor d st' = S (cursor d st) ∧
       (∀ d', d' ≠ d → cursor d' st' = cursor d' st).
Proof.
  unfold allocInstance, assignPin. intros H.
  destruct d; simpl in *;
    match type of H with context [(?n <=? ?m)%nat] =>
      destruct (n <=? m)%nat; [done |] end;
    match type of H with context [?l !! ?i] =>
      destruct (l !! i) as [p|] eqn:Hp; [| done] end;
    simpl in H; destruct (String.eqb_spec p ""); [done | | done |];
    simplify_eq; exists p; simpl; repeat split; auto;
    by intros [].
Qed.

(** A pin is handed out exactly when the cursor points at a non-empty
    identifier. *)
Lemma allocInstance_ok name d st p :
  catalog d !! cursor d st = Some p → p ≠ "" →
  ∃ st', allocInstance name d st = inr st'.
Proof.
  intros Hp Hne. unfold allocInstance, assignPin.
  pose proof (lookup_lt_Some _ _ _ Hp) as Hlt.
  destruct d; simpl in *;
    match goal with |- context [(?n <=? ?m)%nat] =>
      destruct (Nat.leb_spec n m); [lia |] end;
    rewrite Hp; simpl; destruct (String.eqb_spec p ""); [done | eauto | done | eauto].
Qed.

Lemma pinsOf_app d l1 l2 : pinsOf d (l1 ++ l2) = pinsOf d l1 ++ pinsOf d l2.
Proof. unfold pinsOf. by rewrite List.filter_app, List.map_app. Qed.

Lemma pinsOf_one d name p d' :
  pinsOf d [mkAssignment name p d'] = if decide (d' = d) then [p] else [].
Proof.
  unfold pinsOf. simpl.
  destruct (decide (d' = d));
    [rewrite bool_decide_eq_true_2 | rewrite bool_decide_eq_false_2]; done.
Qed.

Lemma allocInstance_consistent name d st st' :
  consistent st → allocInstance name d st = inr st' → consistent st'.
Proof.
  intros Hst H. apply allocInstance_inr in H as (p & Hp & _ & Hc & Hd & Ho).
  intros d'. rewrite Hc, pinsOf_app, pinsOf_one, Hst.
  destruct (decide (d = d')) as [<- | Hne].
  - rewrite Hd. symmetry. by apply take_S_r.
  - rewrite Ho by done. apply app_nil_r.
Qed.

Lemma allocNames_consistent d names : ∀ st st',
  consistent st → allocNames d names st = inr st' → consistent st'.
Proof.
  induction names as [|n names IH]; simpl; intros st st' Hst H.
  - by simplify_eq.
  - destruct (allocInstance n d st) as [|st1] eqn:H1; [done |].
    eapply IH; [| done]. by eapply allocInstance_consistent.
Qed.

Lemma allocInstance_direction name d st d' :
  allocInstance name d st = inl d' → d' = d.
Proof.
  unfold allocInstance. destruct (assignPin _ _ _ _ _) as [p st'].
  destruct (falsy p); congruence.
Qed.

(** With the cursor past the sequence, [assignPin] returns [null]. *)
Lemma allocInstance_exhausted name d st :
  (length (catalog d) ≤ cursor d st)%nat → allocInstance name d st = inl d.
Proof.
  unfold allocInstance, assignPin. intros Hlen.
  destruct d; simpl in *;
    match goal with |- context [(?n <=? ?m)%nat] =>
      destruct (Nat.leb_spec n m); [done | lia] end.
Qed.

(** With a bound below 2^53 the loop visits the integers from [i] to
    [high], one after the other, whatever the rounds it is allowed
    beyond the pins that are left. *)
Lemma allocBits_exact name d high rounds : ∀ i st,
  high < 2 ^ 53 → i ≤ high + 1 →
  (length (catalog d) < rounds + cursor d st)%nat →
  allocBits rounds name d i high st
  = allocNames d (map (bitName name) (countFrom i (N.to_nat (high + 1 - i)))) st.
Proof.
  induction rounds as [|rounds IH]; intros i st Hhigh Hi Hrounds; simpl;
    destruct (N.leb_spec i high) as [Hle | Hgt];
    try (replace (N.to_nat (high + 1 - i)) with 0%nat by lia; done);
    replace (N.to_nat (high + 1 - i))
      with (S (N.to_nat (high + 1 - (i + 1)))) by lia; simpl.
  - rewrite allocInstance_exhausted by lia. done.
  - destruct (allocInstance _ _ st) as [|st1] eqn:H1; [done |].
    assert (increment i = i + 1) as ->
      by (unfold increment; apply toNumber_exact; lia).
    apply IH; [done | lia |].
    apply allocInstance_inr in H1 as (_ & _ & _ & _ & -> & _). lia.
Qed.

(** The rounds the loop is allowed beyond the pins that are left change
    nothing. *)
Lemma allocBits_rounds name d high rounds : ∀ rounds' i st,
  (length (catalog d) < rounds + cursor d st)%nat →
  (length (catalog d) < rounds' + cursor d st)%nat →
  allocBits rounds name d i high st = allocBits rounds' name d i high st.
Proof.
  induction rounds as [|rounds IH]; intros [|rounds'] i st H H'; simpl;
    destruct (i <=? high); try done.
  - by rewrite allocInstance_exhausted by lia.
  - by rewrite allocInstance_exhausted by lia.
  - destruct (allocInstance _ _ st) as [|st1] eqn:H1; [done |].
    apply allocInstance_inr in H1 as (_ & _ & _ & _ & Hcur & _).
    apply IH; lia.
Qed.

(** With a bound from 2^53 on, the variable stays at or below the bound
    for ever: the loop ends when [assignPin] returns no pin. *)
Lemma allocBits_sticks name d high rounds : ∀ i st,
  large high → i ≤ high → i < 2 ^ 53 ∨ large i →
  i < high ∨ increment i = i →
  allocBits rounds name d i high st = inl d.
Proof.
  induction rounds as [|rounds IH]; intros i st Hhigh Hle Hi Hstep; simpl;
    destruct (N.leb_spec i high) as [_ | Hgt]; try lia; [done |].
  destruct (allocInstance _ _ st) as [d'|st1] eqn:H1.
  - f_equal. by eapply allocInstance_direction.
  - destruct (increment_below high i) as (? & ? & ?); auto.
Qed.

(** The port instances [allocPort] gives pins to, for a port whose bit
    range it counts through. *)
Lemma allocPort_names port st :
  countable port →
  allocPort port st = allocNames (portDirection port) (instanceNames port) st.
Proof.
  unfold countable, allocPort, instanceNames, isClock, safeRange. intros Hsafe.
  destruct (String.eqb _ _); [done |].
  destruct (N.eqb_spec (msb port) (lsb port)) as [|Hbus]; cbn [negb].
  - simpl. by destruct (allocInstance _ _ st).
  - destruct (Hsafe eq_refl Hbus) as [Hm Hl].
    unfold Math_min, Math_max. rewrite !toNumber_exact by lia.
    apply allocBits_exact; lia.
Qed.

(** A bus with an index from 2^53 on runs the pins of its direction
    out, however many there are. *)
Lemma allocPort_unsafe port st :
  isClock port = false → msb port ≠ lsb port → ¬ safeRange port →
  allocPort port st = inl (portDirection port).
Proof.
  unfold allocPort, isClock, safeRange. intros -> Hbus Hunsafe.
  destruct (N.eqb_spec (msb port) (lsb port)) as [|_]; [done |]. cbn [negb].
  unfold Math_min, Math_max.
  set (a := msb port) in *. set (b := lsb port) in *.
  assert (2 ^ 53 ≤ toNumber a ∨ 2 ^ 53 ≤ toNumber b) as Hge.
  { destruct (N.lt_ge_cases a (2 ^ 53)); [right | left];
      apply (toNumber_lower 53); lia. }
  pose proof (toNumber_number a) as Ha. pose proof (toNumber_number b) as Hb.
  apply allocBits_sticks.
  - destruct (N.max_spec (toNumber a) (toNumber b)) as [[? ->] | [? ->]];
      [destruct Hb | destruct Ha]; [lia | done | lia | done].
  - lia.
  - by destruct (N.min_spec (toNumber a) (toNumber b)) as [[? ->] | [? ->]].
  - destruct (N.eq_dec (toNumber a) (toNumber b)) as [Heq | Hne]; [| lia].
    right. rewrite <- Heq, N.min_id.
    apply (increment_collision a b); [done | done | lia].
Qed.

(** An allocation of a port that does not give up has given a pin to
    each of its port instances. *)
Lemma allocPort_inr port st st' :
  allocPort port st = inr st' →
  allocNames (portDirection port) (instanceNames port) st = inr st'.
Proof.
  intros H.
  destruct (isClock port) eqn:Hck;
    [rewrite <- H; symmetry; apply allocPort_names; unfold countable, isClock in *; congruence |].
  destruct (N.eq_dec (msb port) (lsb port)) as [Heq | Hbus];
    [rewrite <- H; symmetry; apply allocPort_names; unfold countable; congruence |].
  destruct (N.lt_ge_cases (msb port) (2 ^ 53)) as [Hm | Hm];
    [destruct (N.lt_ge_cases (lsb port) (2 ^ 53)) as [Hl | Hl] |].
  - rewrite <- H. symmetry. apply allocPort_names. by split.
  - rewrite allocPort_unsafe in H; [done .. |]. unfold safeRange. lia.
  - rewrite allocPort_unsafe in H; [done .. |]. unfold safeRange. lia.
Qed.

Lemma allocPort_consistent port st st' :
  consistent st → allocPort port st = inr st' → consistent st'.
Proof.
  intros Hst H. apply allocPort_inr in H. by eapply allocNames_consistent.
Qed.

Lemma countable_dec port :
  countable port ∨
  (isClock port = false ∧ msb port ≠ lsb port ∧ ¬ safeRange port).
Proof.
  unfold countable, safeRange.
  destruct (isClock port); [left; congruence |].
  destruct (N.eq_dec (msb port) (lsb port)); [left; congruence |].
  destruct (N.lt_ge_cases (msb port) (2 ^ 53));
    [destruct (N.lt_ge_cases (lsb port) (2 ^ 53)); [by left |] |];
    right; repeat split; try done; lia.
Qed.

(** An allocation that does not give up met countable ports only. *)
Lemma allocPorts_countable ports : ∀ st st',
  allocPorts ports st = inr st' → Forall countable ports.
Proof.
  induction ports as [|port ports IH]; simpl; intros st st' H; [constructor |].
  destruct (allocPort port st) as [|st1] eqn:H1; [done |].
  constructor; [| by eapply IH].
  destruct (countable_dec port) as [| (Hck & Hbus & Hunsafe)]; [done |].
  by rewrite allocPort_unsafe in H1.
Qed.

Lemma allocPorts_consistent ports : ∀ st st',
  consistent st → allocPorts ports st = inr st' → consistent st'.
Proof.
  induction ports as [|port ports IH]; simpl; intros st st' Hst H.
  - by simplify_eq.
  - destruct (allocPort port st) as [|st1] eqn:H1; [done |].
    eapply IH; [| done]. by eapply allocPort_consistent.
Qed.

Lemma initialAlloc_consistent : consistent initialAlloc.
Proof. by intros []. Qed.

Lemma pin_by_direction (l : list PinAssignment) a :
  a ∈ l → pin a ∈ pinsOf (pinDirection a) l.
Proof.
  intros Hin. unfold pinsOf. apply list_elem_of_In, in_map.
  apply filter_In. split; [by apply list_elem_of_In |].
  by apply bool_decide_eq_true.
Qed.

Lemma pinsOf_cons d a l :
  pinsOf d (a :: l)
  = if decide (pinDirection a = d) then pin a :: pinsOf d l else pinsOf d l.
Proof.
  unfold pinsOf. simpl.
  destruct (decide (pinDirection a = d));
    [rewrite bool_decide_eq_true_2 | rewrite bool_decide_eq_false_2]; done.
Qed.

Lemma NoDup_by_direction (l : list PinAssignment) :
  NoDup (pinsOf Input l) → NoDup (pinsOf Output l) →
  (∀ p, p ∈ pinsOf Input l → p ∉ pinsOf Output l) →
  NoDup (map pin l).
Proof.
  induction l as [|a l IH]; simpl; intros Hi Ho Hdisj; [constructor |].
  rewrite pinsOf_cons in Hi, Ho.
  assert (∀ p, p ∈ pinsOf Input (a :: l) → p ∉ pinsOf Output (a :: l)) as Hd
    by exact Hdisj.
  rewrite !pinsOf_cons in Hd.
  constructor.
  - intros Hin. apply list_elem_of_fmap in Hin as (b & Hb & Hin).
    apply pin_by_direction in Hin. rewrite <- Hb in Hin.
    destruct a as [n p []], b as [n' p' []]; simpl in *;
      repeat case_decide; try done.
    + by apply NoDup_cons in Hi as [].
    + apply (Hd p); [by left | done].
    + apply (Hd p); [done | by left].
    + by apply NoDup_cons in Ho as [].
  - destruct a as [n p []]; simpl in *; repeat case_decide; try done.
    + apply NoDup_cons in Hi as [_ Hi]. apply IH; [done .. |].
      intros q Hq. apply Hd. by right.
    + apply NoDup_cons in Ho as [_ Ho]. apply IH; [done .. |].
      intros q Hq Hq'. apply (Hd q); [done | by right].
Qed.

Lemma allocNames_inr d names : ∀ st st',
  allocNames d names st = inr st' →
  let pins := take (length names) (drop (cursor d st) (catalog d)) in
  length pins = length names ∧
  portConstraints st'
  = portConstraints st ++ zip_with (λ n p, mkAssignment n p d) names pins ∧
  cursor d st' = (cursor d st + length names)%nat ∧
  (∀ d', d' ≠ d → cursor d' st' = cursor d' st).
Proof.
  induction names as [|n names IH]; simpl; intros st st' H.
  - simplify_eq. rewrite app_nil_r. repeat split; auto with lia.
  - destruct (allocInstance n d st) as [|st1] eqn:H1; [done |].
    apply allocInstance_inr in H1 as (p & Hp & _ & Hc & Hd & Ho).
    destruct (IH _ _ H) as (Hlen & Hcs & Hcur & Hoth).
    rewrite (drop_S _ _ _ Hp). rewrite Hd in Hlen, Hcs. simpl.
    repeat split.
    + by rewrite Hlen.
    + by rewrite Hcs, Hc, <- app_assoc.
    + lia.
    + intros d' Hd'. rewrite Hoth, Ho by done. done.
Qed.

(** With enough pins left, none of them empty, the names all get one. *)
Lemma allocNames_ok d names : ∀ st,
  (cursor d st + length names ≤ length (catalog d))%nat →
  Forall (λ p, p ≠ "") (catalog d) →
  ∃ st', allocNames d names st = inr st'.
Proof.
  induction names as [|n names IH]; simpl; intros st Hlen Hne; [eauto |].
  destruct (lookup_lt_is_Some_2 (catalog d) (cursor d st)) as [p Hp]; [lia |].
  destruct (allocInstance_ok n d st p Hp) as [st1 H1].
  { eapply Forall_forall in Hne; [done |]. by eapply list_elem_of_lookup_2. }
  rewrite H1. apply IH; [| done].
  apply allocInstance_inr in H1 as (_ & _ & _ & _ & -> & _). lia.
Qed.

Lemma allocPorts_app l1 l2 st :
  allocPorts (l1 ++ l2) st
  = match allocPorts l1 st with
    | inl d => inl d
    | inr st1 => allocPorts l2 st1
    end.
Proof.
  revert st. induction l1 as [|port l1 IH]; intros st; simpl; [done |].
  destruct (allocPort port st); [done | apply IH].
Qed.

Lemma allocPorts_extends ports : ∀ st st',
  allocPorts ports st = inr st' →
  ∃ new, portConstraints st' = portConstraints st ++ new.
Proof.
  induction ports as [|port ports IH]; simpl; intros st st' H.
  - simplify_eq. exists []. by rewrite app_nil_r.
  - destruct (allocPort port st) as [|st1] eqn:H1; [done |].
    apply allocPort_inr in H1.
    apply allocNames_inr in H1 as (_ & Hc & _).
    destruct (IH _ _ H) as [new Hn]. rewrite Hn, Hc, <- app_assoc. eauto.
Qed.

Lemma length_countFrom n : ∀ i, length (countFrom i n) = n.
Proof. induction n as [|n IH]; intros i; simpl; auto. Qed.

Lemma countFrom_lookup n : ∀ i k,
  (k < n)%nat → countFrom i n !! k = Some (i + N.of_nat k).
Proof.
  induction n as [|n IH]; intros i k Hk; [lia |].
  destruct k as [|k]; simpl.
  - f_equal. lia.
  - rewrite IH by lia. f_equal. lia.
Qed.

Lemma length_busIndices port :
  length (busIndices (N.min (msb port) (lsb port)) (N.max (msb port) (lsb port)))
  = N.to_nat (busWidth port).
Proof.
  unfold busIndices, busWidth. rewrite length_countFrom. f_equal. lia.
Qed.

Lemma length_instanceNames port :
  length (instanceNames port)
  = if isClock port then 0%nat else N.to_nat (busWidth port).
Proof.
  unfold instanceNames. destruct (isClock port); [done |].
  destruct (N.eqb_spec (msb port) (lsb port)) as [Heq|Hne].
  - unfold busWidth. rewrite Heq. simpl. f_equal. lia.
  - rewrite length_map. apply length_busIndices.
Qed.

(** A successful allocation moved each cursor by the demand of its
    direction. *)
Lemma allocPorts_cursor d ports : ∀ st st',
  allocPorts ports st = inr st' →
  cursor d st' = (cursor d st + demand d ports)%nat.
Proof.
  induction ports as [|port ports IH]; simpl; intros st st' H.
  - simplify_eq. unfold demand. simpl. lia.
  - destruct (allocPort port st) as [|st1] eqn:H1; [done |].
    rewrite (IH _ _ H). apply allocPort_inr in H1.
    apply allocNames_inr in H1 as (_ & _ & Hcur & Hoth).
    rewrite length_instanceNames in Hcur.
    unfold demand. simpl.
    destruct (isClock port) eqn:Hck; simpl.
    + destruct (decide (d = portDirection port)) as [-> | Hne];
        [lia | rewrite Hoth by done; lia].
    + destruct (decide (portDirection port = d)) as [<- | Hne].
      * rewrite bool_decide_eq_true_2 by done. simpl. lia.
      * rewrite bool_decide_eq_false_2 by done. rewrite Hoth by done. lia.
Qed.

Lemma allocPorts_bounded d ports : ∀ st st',
  allocPorts ports st = inr st' →
  (cursor d st ≤ length (catalog d))%nat →
  (cursor d st' ≤ length (catalog d))%nat.
Proof.
  induction ports as [|port ports IH]; simpl; intros st st' H Hb.
  - by simplify_eq.
  - destruct (allocPort port st) as [|st1] eqn:H1; [done |].
    apply (IH _ _ H). apply allocPort_inr in H1.
    apply allocNames_inr in H1 as (Hlen & _ & Hcur & Hoth).
    destruct (decide (d = portDirection port)) as [-> | Hne].
    + rewrite Hcur. rewrite length_take, length_drop in Hlen. lia.
    + by rewrite Hoth.
Qed.

Lemma demand_cons d port ports :
  demand d (port :: ports)
  = ((if negb (isClock port) && bool_decide (portDirection port = d)
      then N.to_nat (busWidth port) else 0) + demand d ports)%nat.
Proof.
  unfold demand. simpl.
  by destruct (negb (isClock port) && bool_decide (portDirection port = d)).
Qed.

(** With no empty identifier in the catalog and, in each direction, as
    many pins left as the ports ask, the allocation succeeds. *)
Lemma allocPorts_ok ports : ∀ st,
  Forall countable ports →
  (∀ d, (cursor d st + demand d ports ≤ length (catalog d))%nat) →
  (∀ d, Forall (λ p, p ≠ "") (catalog d)) →
  ∃ st', allocPorts ports st = inr st'.
Proof.
  induction ports as [|port ports IH]; simpl; intros st Hsafe Hfit Hne;
    [eauto |].
  apply Forall_cons in Hsafe as [Hport Hsafe].
  rewrite allocPort_names by exact Hport.
  destruct (allocNames_ok (portDirection port) (instanceNames port) st)
    as [st1 H1]; [| done |].
  - specialize (Hfit (portDirection port)).
    rewrite demand_cons, length_instanceNames in *.
    rewrite bool_decide_eq_true_2 in Hfit by done.
    destruct (isClock port); simpl in *; lia.
  - rewrite H1. apply IH; [done | | done]. intros d. specialize (Hfit d).
    rewrite demand_cons in Hfit.
    apply allocNames_inr in H1 as (_ & _ & Hcur & Hoth).
    rewrite length_instanceNames in Hcur.
    destruct (decide (portDirection port = d)) as [<- | Hd].
    + rewrite bool_decide_eq_true_2 in Hfit by done.
      destruct (isClock port); simpl in *; lia.
    + rewrite bool_decide_eq_false_2, andb_false_r in Hfit by done.
      rewrite Hoth by done. lia.
Qed.

(** More pins asked of a direction than its sequence holds: the
    allocation returns early. *)
Lemma allocPorts_exhausted d ports :
  (length (catalog d) < demand d ports)%nat →
  ∃ d', allocPorts ports initialAlloc = inl d'.
Proof.
  intros Hlt. destruct (allocPorts ports initialAlloc) as [d'|st] eqn:H; [eauto |].
  pose proof (allocPorts_cursor d _ _ _ H) as Hc.
  pose proof (allocPorts_bounded d _ _ _ H) as Hb.
  destruct d; simpl in *; lia.
Qed.

(** C4.  For a catalog as the device gives it, two sequences that
    share no identifier, with identifiers unique within each: no pin
    appears in two assignments, and the pin of every assignment comes
    from the sequence of its direction. *)
Theorem pins_injective_when_disjoint (ports : list Port) (st : AllocState) :
  NoDup inputPins → NoDup outputPins →
  (∀ p, p ∈ inputPins → p ∉ outputPins) →
  allocPorts ports initialAlloc = inr st →
  NoDup (map pin (portConstraints st)) ∧
  (∀ a, a ∈ portConstraints st → pin a ∈ catalog (pinDirection a)).
Proof.
  intros Hi Ho Hdisj H.
  pose proof (allocPorts_consistent _ _ _ initialAlloc_consistent H) as Hc.
  assert (∀ d, pinsOf d (portConstraints st) ⊆ catalog d) as Hsub.
  { intros d. rewrite Hc. apply subseteq_take. }
  split.
  - apply NoDup_by_direction.
    + rewrite (Hc Input). eapply sublist_NoDup; [exact Hi | apply sublist_take].
    + rewrite (Hc Output). eapply sublist_NoDup; [exact Ho | apply sublist_take].
    + intros p Hp Hp'. apply (Hdisj p); [by apply (Hsub Input) | by apply (Hsub Output)].
  - intros a Ha. apply Hsub. by apply pin_by_direction.
Qed.

(** C3, as amended.  For a bus port that is not named [clock]: the
    allocation succeeds when the bit indices of the buses are below
    2^53, where the loop counts exactly, and the catalog holds no empty
    identifier and as many pins in each direction as the ports ask; and
    in every allocation that succeeds the port contributes exactly
    [|msb - lsb| + 1] consecutive assignments, of which the one at
    offset [k] is named [name[low + k]], where [low] is [min(msb, lsb)],
    and holds the pin at offset [k] from the cursor of the port's
    direction.  The loop over the bits is modelled with a bound on its
    rounds: any bound larger than the number of the pins left gives the
    same result. *)
Theorem bus_port_expansion (before : list Port) (port : Port)
    (after : list Port) :
  isClock port = false → msb port ≠ lsb port →
  (Forall countable (before ++ port :: after) →
   (∀ d, (demand d (before ++ port :: after) ≤ length (catalog d))%nat) →
   (∀ d, Forall (λ p, p ≠ "") (catalog d)) →
   ∃ final, allocPorts (before ++ port :: after) initialAlloc = inr final) ∧
  (∀ final,
     allocPorts (before ++ port :: after) initialAlloc = inr final →
     ∃ st1 bits later,
       allocPorts before initialAlloc = inr st1 ∧
       portConstraints final = portConstraints st1 ++ bits ++ later ∧
       length bits = N.to_nat (busWidth port) ∧
       ∀ k, (k < N.to_nat (busWidth port))%nat →
         ∃ p, catalog (portDirection port)
                !! (cursor (portDirection port) st1 + k)%nat
              = Some p ∧
              bits !! k
              = Some (mkAssignment
                        (bitName (portName port)
                           (N.min (msb port) (lsb port) + N.of_nat k))
                        p (portDirection port))) ∧
  (∀ rounds st,
     (length (catalog (portDirection port))
      < rounds + cursor (portDirection port) st)%nat →
     allocBits rounds (portName port) (portDirection port)
       (Math_min (msb port) (lsb port)) (Math_max (msb port) (lsb port)) st
     = allocPort port st).
Proof.
  intros Hck Hbus. split.
  { intros Hsafe Hfit Hne. apply allocPorts_ok; [done | | done].
    intros d. specialize (Hfit d). by destruct d. }
  split.
  2: { intros rounds st Hrounds. unfold allocPort. unfold isClock in Hck.
       rewrite Hck. destruct (N.eqb_spec (msb port) (lsb port)); [done |].
       cbn [negb]. apply allocBits_rounds; [done | lia]. }
  intros final H. rewrite allocPorts_app in H.
  destruct (allocPorts before initialAlloc) as [|st1] eqn:H1; [done |].
  simpl in H. destruct (allocPort port st1) as [|st2] eqn:H2; [done |].
  apply allocPorts_extends in H as [later Hlater].
  apply allocPort_inr in H2.
  apply allocNames_inr in H2 as (Hlen & Hcs & _).
  assert (instanceNames port
          = map (bitName (portName port))
              (busIndices (N.min (msb port) (lsb port))
                 (N.max (msb port) (lsb port)))) as Hnames.
  { unfold instanceNames. rewrite Hck.
    by destruct (N.eqb_spec (msb port) (lsb port)). }
  pose proof (length_instanceNames port) as Hw. rewrite Hck in Hw.
  rewrite Hw in Hlen, Hcs.
  set (d := portDirection port) in *.
  set (pins := take (N.to_nat (busWidth port)) (drop (cursor d st1) (catalog d)))
    in *.
  exists st1, (zip_with (λ n p, mkAssignment n p d) (instanceNames port) pins),
    later.
  split; [done |]. split; [by rewrite Hlater, Hcs, <- app_assoc |].
  split; [rewrite length_zip_with; lia |].
  intros k Hk.
  destruct (lookup_lt_is_Some_2 pins k) as [p Hp]; [lia |].
  exists p. split.
  - unfold pins in Hp. apply lookup_take_Some in Hp as [Hp _].
    by rewrite lookup_drop in Hp.
  - rewrite lookup_zip_with, Hp, Hnames.
    change (map (bitName (portName port)) ?l) with (bitName (portName port) <$> l).
    rewrite list_lookup_fmap. unfold busIndices.
    rewrite countFrom_lookup; [done |].
    rewrite <- length_busIndices in Hk. unfold busIndices in Hk.
    by rewrite length_countFrom in Hk.
Qed.

Lemma bitName_not_clock name i : bitName name i ≠ "clock".
Proof.
  intros H. apply (f_equal chars) in H. unfold bitName in H.
  rewrite chars_append in H.
  assert ("["%char ∈ chars "clock") as Hin.
  { rewrite <- H. apply elem_of_app. right. by left. }
  vm_compute in Hin.
  repeat (apply elem_of_cons in Hin as [Hin | Hin]; [done |]).
  by apply elem_of_nil in Hin.
Qed.

Lemma instanceNames_not_clock port :
  Forall (λ n, n ≠ "clock") (instanceNames port).
Proof.
  unfold instanceNames, isClock.
  destruct (String.eqb_spec (portName port) "clock") as [|Hne]; [constructor |].
  destruct (msb port =? lsb port); [by repeat constructor |].
  apply Forall_forall. intros nm Hn.
  apply list_elem_of_In, in_map_iff in Hn as (i & <- & _).
  apply bitName_not_clock.
Qed.

Lemma allocPorts_names_not_clock ports : ∀ st st',
  allocPorts ports st = inr st' →
  Forall (λ a, instanceName a ≠ "clock") (portConstraints st) →
  Forall (λ a, instanceName a ≠ "clock") (portConstraints st').
Proof.
  induction ports as [|port ports IH]; simpl; intros st st' H Hst.
  - by simplify_eq.
  - destruct (allocPort port st) as [|st1] eqn:H1; [done |].
    apply (IH _ _ H). apply allocPort_inr in H1.
    apply allocNames_inr in H1 as (_ & -> & _).
    apply Forall_app. split; [done |].
    apply Forall_forall. intros a Ha.
    apply elem_of_zip_with in Ha as (nm & p & -> & Hn & _). simpl.
    pose proof (instanceNames_not_clock port) as Hnames.
    by eapply Forall_forall in Hnames.
Qed.

(** C5.  A port named [clock] leaves the allocation state as it is,
    whatever its direction and its bit range: it gets no assignment and
    takes no pin; an allocation goes as it would without that port; and
    no assignment of an allocation is named [clock]. *)
Theorem clock_port_is_skipped (port : Port) :
  portName port = "clock" →
  (∀ st, allocPort port st = inr st) ∧
  (∀ before after st,
     allocPorts (before ++ port :: after) st = allocPorts (before ++ after) st) ∧
  (∀ ports st,
     allocPorts ports initialAlloc = inr st →
     Forall (λ a, instanceName a ≠ "clock") (portConstraints st)).
Proof.
  intros Hname.
  assert (∀ st, allocPort port st = inr st) as Hskip.
  { intros st. unfold allocPort. by rewrite Hname. }
  split; [done |]. split.
  - intros before after st.
    rewrite !allocPorts_app. destruct (allocPorts before st); [done |].
    simpl. by rewrite Hskip.
  - intros ports st H. eapply allocPorts_names_not_clock; [exact H |].
    constructor.
Qed.

End AllocationProperties.

(** ** Properties of the constraint generation and of the stage commands *)

Lemma sourceExt_no_dot u :
  inLang (Alt (LitI "cpp") (Alt (LitI "cc") (Alt (LitI "cxx") (LitI "c")))) u →
  "."%char ∉ u.
Proof.
  assert (∀ x a, upperChar x = upperChar a → isWord a = true → x ≠ "."%char)
    as Hx.
  { intros x a Hxa Ha ->. destruct a as [[] [] [] [] [] [] [] []];
      vm_compute in Hxa, Ha; congruence. }
  intros Hu Hin.
  destruct Hu as [Hu | [Hu | [Hu | Hu]]]; simpl in Hu;
    repeat match goal with
    | H : ∃ _, _ |- _ => destruct H as [? H]
    | H : _ ∧ _ |- _ => destruct H as [? ?]
    end; subst; simpl in Hin;
    repeat (apply elem_of_cons in Hin as [Hin | Hin];
            [symmetry in Hin; eapply Hx in Hin; [done | eassumption | done] |]);
    by apply elem_of_nil in Hin.
Qed.

(** No match of [sourceExtRegex] starts before the last dot of a name. *)
Lemma sourceExt_no_early_match x l ext :
  matchHere sourceExtRegex (x :: l ++ "."%char :: ext) = None.
Proof.
  destruct (matchHere _ _) as [[c rest]|] eqn:H; [exfalso | done].
  unfold matchHere in H.
  change (matchRe (Chr ".")
            (matchRe
               (Group 1 (Alt (LitI "cpp") (Alt (LitI "cc")
                                             (Alt (LitI "cxx") (LitI "c")))))
               (matchRe AtEnd (matchRe Eps accept)))
            (x :: l ++ "."%char :: ext) ∅ = Some (c, rest)) in H.
  change (matchRe (Chr ".") ?k (x :: ?s) ?c)
    with (if Ascii.eqb x "." then k s c else None) in H.
  destruct (Ascii.eqb x "."); [| done].
  apply matchRe_Group in H as (u & s' & c' & Hs & Hu & H).
  simpl in H. destruct s'; [| done]. rewrite app_nil_r in Hs. subst u.
  apply sourceExt_no_dot in Hu. apply Hu, elem_of_app. right. by left.
Qed.

(** [baseNameOf] strips the extension of a C or C++ source file name. *)
Lemma baseNameOf_strips base ext p t :
  ext ∈ sourceExts → baseNameOf (mkFile (base +:+ "." +:+ ext) p t) = base.
Proof.
  intros Hext. unfold baseNameOf, replace. simpl fileName.
  assert (∃ c, matchHere sourceExtRegex ("."%char :: chars ext) = Some (c, []))
    as [c Hc].
  { unfold sourceExts in Hext.
    repeat (apply elem_of_cons in Hext as [-> | Hext];
            [eexists; vm_compute; reflexivity |]).
    by apply elem_of_nil in Hext. }
  assert (search sourceExtRegex (chars base ++ "."%char :: chars ext)
          = Some (chars base, (c, []))) as Hsearch.
  { induction (chars base) as [|x l IH]; simpl app.
    - simpl. by rewrite Hc.
    - simpl. rewrite sourceExt_no_early_match. simpl in IH. by rewrite IH. }
  rewrite chars_append. change (chars ("." +:+ ext)) with ("."%char :: chars ext).
  rewrite Hsearch. simpl. rewrite !app_nil_r.
  apply string_of_list_ascii_of_string.
Qed.

Section FlowProperties.

Variables inputPins outputPins : list string.
Variable getDirOfFile : string → string.
Variable resolveResource : string → string.

Abbreviation constraintPath := (constraintPathOf getDirOfFile).
Abbreviation generate :=
  (generateBambuConstraintFile inputPins outputPins getDirOfFile).
Abbreviation runPlace :=
  (runBambuPlaceFlowCommand inputPins outputPins getDirOfFile resolveResource).
Abbreviation runRoute :=
  (runBambuRouteFlowCommand getDirOfFile resolveResource).
Abbreviation runSynth := (runBambuSynthFlowCommand getDirOfFile resolveResource).
Abbreviation runMap := (runBambuMapFlowCommand getDirOfFile resolveResource).
Abbreviation runPack := (runBambuPackFlowCommand getDirOfFile resolveResource).
Abbreviation runGenBit :=
  (runBambuGenBitFlowCommand getDirOfFile resolveResource).

Lemma exists_absent p w :
  files w !! p = None → exists_ p w = (false, record (Exists p) w).
Proof.
  intros H. unfold exists_. f_equal. apply bool_decide_eq_false_2.
  rewrite H. by intros [? ?].
Qed.

Lemma exists_present p w :
  is_Some (files w !! p) → exists_ p w = (true, record (Exists p) w).
Proof. intros H. unfold exists_. f_equal. by apply bool_decide_eq_true_2. Qed.

(** A generation that fails wrote nothing; one that succeeds returns
    the destination path and leaves a file there. *)
Lemma generate_result project w r w' :
  generate project w = (r, w') →
  match r with
  | None => files w' = files w
  | Some p => p = constraintPath project ∧ is_Some (files w' !! p)
  end.
Proof.
  unfold generateBambuConstraintFile, exists_, parseHLSVerilogPorts,
    readTextFile.
  fold (constraintPath project). simpl.
  case_bool_decide as Hpresent; [intros ?; by simplify_eq |].
  destruct (List.find isSource _) as [cppFile|]; [| simpl; intros ?; simplify_eq; by simpl].
  case_bool_decide as Hfound; simpl; [| simpl; intros ?; simplify_eq; by simpl].
  destruct (files w !! (_ +:+ baseNameOf cppFile +:+ _)) as [content|]; simpl;
    [| simpl; intros ?; simplify_eq; by simpl].
  destruct (parseVerilogText _ _) as [parsed|]; [| simpl; intros ?; simplify_eq; by simpl].
  destruct (allocPorts _ _ _ _) as [d|st]; simpl; intros ?; simplify_eq; [by simpl |].
  split; [done |]. simpl. rewrite lookup_insert_eq. eauto.
Qed.

(** C2.  A generation that fails writes no file, whatever made it fail;
    and when the ports of the selected module ask more pins of a
    direction than its sequence holds, the generation fails: its last
    act is the notification that the pins of some direction ran out, it
    returns [null], the assignments made so far are dropped with the
    allocation, and no file appears at the destination. *)
Theorem exhaustion_writes_nothing (project : ProjectInfo) (w : world) :
  (∀ w', generate project w = (None, w') → files w' = files w) ∧
  (∀ cppFile content parsed d,
     files w !! constraintPath project = None →
     List.find isSource (file_lists project) = Some cppFile →
     files w !! (getDirOfFile (path project) +:+ baseNameOf cppFile +:+ ".v")
     = Some content →
     parseVerilogText content (topFunctionOf project) = Some parsed →
     (length (catalog inputPins outputPins d) < demand d (ports parsed))%nat →
     ∃ d' w',
       allocPorts inputPins outputPins (ports parsed) initialAlloc = inl d' ∧
       generate project w = (None, w') ∧
       last (events w')
       = Some (FailedNotification "Constraint Generation"
                 ("Not enough " +:+ directionName d' +:+
                  " pins for the design.")) ∧
       files w' = files w ∧
       files w' !! constraintPath project = None ∧
       (∀ p c, WriteTextFile p c ∈ events w' → WriteTextFile p c ∈ events w)).
Proof.
  split; [intros w' H; by apply generate_result in H |].
  intros cppFile content parsed d Habsent Hsrc Hv Hparse Hlt.
  destruct (allocPorts_exhausted inputPins outputPins d _ Hlt) as [d' Hd'].
  unfold generateBambuConstraintFile. fold (constraintPath project).
  rewrite (exists_absent _ _ Habsent), Hsrc.
  rewrite exists_present by (simpl; rewrite Hv; eauto). simpl negb.
  unfold parseHLSVerilogPorts, readTextFile. simpl files. rewrite Hv, Hparse, Hd'.
  eexists d', _. split; [done |]. split; [done |]. simpl.
  split; [by rewrite last_snoc |]. split; [done |]. split; [done |].
  intros p c Hin. rewrite !elem_of_app in Hin.
  destruct Hin as [[[[Hin | Hin] | Hin] | Hin] | Hin]; [done | ..];
    apply list_elem_of_singleton in Hin; done.
Qed.

(** C6.  When a file is at the destination, the generation only checks
    that it is there and returns its path; and after a generation that
    succeeded, the next one returns the same path after that one check:
    nothing is read, parsed or written again. *)
Theorem existing_constraint_is_reused (project : ProjectInfo) (w : world) :
  (is_Some (files w !! constraintPath project) →
   generate project w
   = (Some (constraintPath project), record (Exists (constraintPath project)) w)) ∧
  (∀ p w1, generate project w = (Some p, w1) →
   generate project w1 = (Some p, record (Exists p) w1)).
Proof.
  assert (∀ w0, is_Some (files w0 !! constraintPath project) →
            generate project w0
            = (Some (constraintPath project),
               record (Exists (constraintPath project)) w0)) as Hskip.
  { intros w0 H. unfold generateBambuConstraintFile.
    fold (constraintPath project). by rewrite (exists_present _ _ H). }
  split; [apply Hskip |].
  intros p w1 H. apply generate_result in H as [-> H]. by apply Hskip.
Qed.

(** C7, as amended.  When the first file tagged [constraint] has a
    non-empty path, the placement command takes that path and nothing
    else happens; otherwise the constraint file is generated, its path
    is taken when the generation succeeds, and when it fails the stage
    reports it and gives no command. *)
Theorem place_constraint_source (project : ProjectInfo) (w : world) :
  (∀ p, declaredConstraint project = Some p → p ≠ "" →
     ∃ cmd, runPlace project w = (Some cmd, w) ∧
            argAt 8 cmd = Some "-c" ∧ argAt 9 cmd = Some p) ∧
  (falsy (declaredConstraint project) = true →
     match generate project w with
     | (Some p, w1) =>
         ∃ cmd, runPlace project w = (Some cmd, w1) ∧
                argAt 8 cmd = Some "-c" ∧ argAt 9 cmd = Some p
     | (None, w1) =>
         runPlace project w
         = (None,
            showFailedNotification "Place"
              "Failed to generate constraint file. Please add a constraint file manually."
              w1)
     end).
Proof.
  unfold runBambuPlaceFlowCommand. split.
  - intros p -> Hp. simpl. destruct (String.eqb_spec p ""); [done |]. eauto.
  - intros ->. destruct (generate project w) as [[p|] w1] eqn:Hg; [| done].
    apply generate_result in Hg as [-> _]. simpl.
    destruct (String.eqb_spec (constraintPath project) "") as [He|_]; [| eauto].
    unfold constraintPathOf in He.
    destruct (getDirOfFile (path project)), (name project); discriminate.
Qed.

(** C9.  The mode flag of the placement command is [-b] for the mode
    [Bounding Box] and [-t] for any other; that of the routing command
    is [-d] for [Direct Search], [-b] for [Breath First] and [-t] for
    any other. *)
Theorem mode_flags (project : ProjectInfo) (w : world) :
  (placeMode (settings project) = "Bounding Box" →
   getPlaceMode project = "-b") ∧
  (placeMode (settings project) ≠ "Bounding Box" →
   getPlaceMode project = "-t") ∧
  (routeMode (settings project) = "Direct Search" →
   getRouteMode project = "-d") ∧
  (routeMode (settings project) = "Breath First" →
   getRouteMode project = "-b") ∧
  (routeMode (settings project) ≠ "Direct Search" →
   routeMode (settings project) ≠ "Breath First" →
   getRouteMode project = "-t") ∧
  (∀ cmd w', runPlace project w = (Some cmd, w') →
     argAt 10 cmd = Some (getPlaceMode project)) ∧
  (∀ cmd w', runRoute project w = (Some cmd, w') →
     argAt 6 cmd = Some (getRouteMode project)).
Proof.
  unfold getPlaceMode, getRouteMode. repeat split.
  - by intros ->.
  - intros H. by destruct (String.eqb_spec (placeMode (settings project)) "Bounding Box").
  - by intros ->.
  - by intros ->.
  - intros H1 H2.
    destruct (String.eqb_spec (routeMode (settings project)) "Direct Search"); [done |].
    by destruct (String.eqb_spec (routeMode (settings project)) "Breath First").
  - unfold runBambuPlaceFlowCommand. intros cmd w'.
    destruct (falsy (declaredConstraint project)).
    + destruct (generate project w) as [g w1]. destruct (falsy g);
        intros ?; by simplify_eq.
    + intros ?; by simplify_eq.
  - unfold runBambuRouteFlowCommand. intros cmd w'.
    destruct (falsy (declaredConstraint project)).
    + destruct (exists_ _ w) as [[] w1]; intros ?; by simplify_eq.
    + intros ?; by simplify_eq.
Qed.

(** When the placement and the routing commands are built, and with
    which constraint file. *)
Lemma place_builds project w p :
  (declaredConstraint project = Some p ∧ p ≠ "") ∨
  (falsy (declaredConstraint project) = true ∧
   (generate project w).1 = Some p) →
  ∃ place w', runPlace project w = (Some place, w') ∧ argAt 9 place = Some p.
Proof.
  unfold runBambuPlaceFlowCommand. intros [[-> Hp] | [-> Hg]].
  - simpl. destruct (String.eqb_spec p ""); [done |]. eauto.
  - destruct (generate project w) as [[g|] w1] eqn:Hgen; [| done].
    simpl in Hg. simplify_eq.
    apply generate_result in Hgen as [-> _]. simpl.
    destruct (String.eqb_spec (constraintPath project) "") as [He|_]; [| eauto].
    unfold constraintPathOf in He.
    destruct (getDirOfFile (path project)), (name project); discriminate.
Qed.

Lemma route_builds project w p :
  (declaredConstraint project = Some p ∧ p ≠ "") ∨
  (falsy (declaredConstraint project) = true ∧
   is_Some (files w !! constraintPath project) ∧ p = constraintPath project) →
  ∃ route w', runRoute project w = (Some route, w') ∧ argAt 8 route = Some p.
Proof.
  unfold runBambuRouteFlowCommand. intros [[-> Hp] | (-> & Hthere & ->)].
  - simpl. destruct (String.eqb_spec p ""); [done |]. eauto.
  - fold (constraintPath project). change (getDirOfFile (path project) +:+ name project +:+ "_bambu_cons.xml")
      with (constraintPath project).
    rewrite (exists_present _ _ Hthere). eauto.
Qed.

(** C8.  The artifact names chain through the stages.  Synthesis is
    built for a project with a C or C++ source file: it reads
    [<source-base>.v], named after the first of these files (its name
    without the source extension), and writes [<project>_bambu_syn.edf].
    Map and pack read the file the stage before writes.  Place is built
    with the constraint file the project declares or with the generated
    one, route with the declared one or the generated one that is
    there: they read [<project>_bambu_pack.xml] and
    [<project>_bambu_place.xml] and write [<project>_bambu_place.xml]
    and [<project>_bambu_route.xml].  Bitgen reads the latter and writes
    [<project>_bambu_bit.bit].  A generation that finds a module and
    pins enough writes [<project>_bambu_cons.xml] in the project
    directory and returns that path, as does one that finds the file
    there. *)
Theorem artifact_chain (project : ProjectInfo) (ws w wr wg : world) :
  let artifact suffix := name project +:+ "_bambu_" +:+ suffix in
  let cons :=
    getDirOfFile (path project) +:+ name project +:+ "_bambu_cons.xml" in
  (∀ cppFile, List.find isSource (file_lists project) = Some cppFile →
     ∃ synth tcl,
       runSynth project ws = (Some synth, ws) ∧
       argAt 2 synth
       = Some (getDirOfFile (path project) +:+ baseNameOf cppFile +:+ ".v") ∧
       argAt 1 synth = Some (tcl +:+ " -o " +:+ artifact "syn.edf")) ∧
  (∀ synth w', runSynth project ws = (Some synth, w') →
     ∃ cppFile tcl,
       List.find isSource (file_lists project) = Some cppFile ∧
       argAt 2 synth
       = Some (getDirOfFile (path project) +:+ baseNameOf cppFile +:+ ".v") ∧
       argAt 1 synth = Some (tcl +:+ " -o " +:+ artifact "syn.edf")) ∧
  argAt 2 (runMap project) = Some (artifact "syn.edf") ∧
  argAt 4 (runMap project) = Some (artifact "map.xml") ∧
  argAt 3 (runPack project) = Some (artifact "map.xml") ∧
  argAt 9 (runPack project) = Some (artifact "pack.xml") ∧
  (∀ p,
     (declaredConstraint project = Some p ∧ p ≠ "") ∨
     (falsy (declaredConstraint project) = true ∧
      (generate project w).1 = Some p) →
     ∃ place w',
       runPlace project w = (Some place, w') ∧
       argAt 5 place = Some (artifact "pack.xml") ∧
       argAt 7 place = Some (artifact "place.xml") ∧
       argAt 9 place = Some p) ∧
  (∀ place w', runPlace project w = (Some place, w') →
     argAt 5 place = Some (artifact "pack.xml") ∧
     argAt 7 place = Some (artifact "place.xml")) ∧
  (∀ p,
     (declaredConstraint project = Some p ∧ p ≠ "") ∨
     (falsy (declaredConstraint project) = true ∧
      is_Some (files wr !! cons) ∧ p = cons) →
     ∃ route w',
       runRoute project wr = (Some route, w') ∧
       argAt 3 route = Some (artifact "place.xml") ∧
       argAt 5 route = Some (artifact "route.xml") ∧
       argAt 8 route = Some p) ∧
  (∀ route w', runRoute project wr = (Some route, w') →
     argAt 3 route = Some (artifact "place.xml") ∧
     argAt 5 route = Some (artifact "route.xml")) ∧
  argAt 5 (runGenBit project) = Some (artifact "route.xml") ∧
  argAt 7 (runGenBit project) = Some (artifact "bit.bit") ∧
  (is_Some (files wg !! cons) → (generate project wg).1 = Some cons) ∧
  (∀ cppFile content parsed st,
     List.find isSource (file_lists project) = Some cppFile →
     files wg !! (getDirOfFile (path project) +:+ baseNameOf cppFile +:+ ".v")
     = Some content →
     parseVerilogText content (topFunctionOf project) = Some parsed →
     allocPorts inputPins outputPins (ports parsed) initialAlloc = inr st →
     (generate project wg).1 = Some cons ∧
     is_Some (files (generate project wg).2 !! cons)) ∧
  (∀ p w', generate project wg = (Some p, w') → p = cons) ∧
  (∀ base ext p t, ext ∈ sourceExts →
     baseNameOf (mkFile (base +:+ "." +:+ ext) p t) = base).
Proof.
  intros artifact cons.
  assert (∀ cppFile, List.find isSource (file_lists project) = Some cppFile →
            ∃ synth tcl,
              runSynth project ws = (Some synth, ws) ∧
              argAt 2 synth
              = Some (getDirOfFile (path project) +:+ baseNameOf cppFile +:+ ".v") ∧
              argAt 1 synth = Some (tcl +:+ " -o " +:+ artifact "syn.edf"))
    as Hsynth.
  { intros cppFile Hfind. unfold runBambuSynthFlowCommand. rewrite Hfind.
    eexists _,
      ("tcl " +:+ resolveResource "resource/yosys/yosys_fde.tcl" +:+ " -l " +:+
       resolveResource "resource/yosys/fdesimlib.v" +:+ " -m " +:+
       resolveResource "resource/yosys/techmap.v" +:+ " -c " +:+
       resolveResource "resource/yosys/cells_map.v").
    split; [done |]. split; [done |].
    unfold argAt. simpl. f_equal. by rewrite !append_assoc. }
  assert (∀ place w', runPlace project w = (Some place, w') →
            argAt 5 place = Some (artifact "pack.xml") ∧
            argAt 7 place = Some (artifact "place.xml")) as Hplace.
  { unfold runBambuPlaceFlowCommand. intros place w'.
    destruct (falsy (declaredConstraint project)).
    + destruct (generate project w) as [g w1]. destruct (falsy g);
        intros ?; by simplify_eq.
    + intros ?; by simplify_eq. }
  assert (∀ route w', runRoute project wr = (Some route, w') →
            argAt 3 route = Some (artifact "place.xml") ∧
            argAt 5 route = Some (artifact "route.xml")) as Hroute.
  { unfold runBambuRouteFlowCommand. intros route w'.
    destruct (falsy (declaredConstraint project)).
    + destruct (exists_ _ wr) as [[] w1]; intros ?; by simplify_eq.
    + intros ?; by simplify_eq. }
  split; [exact Hsynth |]. split.
  { intros synth w' H.
    destruct (List.find isSource (file_lists project)) as [cppFile|] eqn:Hfind.
    - destruct (Hsynth _ eq_refl) as (synth' & tcl & Hrun & ? & ?).
      rewrite Hrun in H. simplify_eq. eauto.
    - unfold runBambuSynthFlowCommand in H. by rewrite Hfind in H. }
  do 4 (split; [reflexivity |]). split.
  { intros p Hp.
    destruct (place_builds project w p Hp) as (place & w' & Hrun & Harg).
    destruct (Hplace _ _ Hrun). eauto 8. }
  split; [exact Hplace |]. split.
  { intros p Hp.
    destruct (route_builds project wr p Hp) as (route & w' & Hrun & Harg).
    destruct (Hroute _ _ Hrun). eauto 8. }
  split; [exact Hroute |]. do 2 (split; [reflexivity |]).
  change cons with (constraintPath project).
  assert (is_Some (files wg !! constraintPath project) →
          (generate project wg).1 = Some (constraintPath project)) as Hthere.
  { intros Hthere. unfold generateBambuConstraintFile.
    fold (constraintPath project). by rewrite (exists_present _ _ Hthere). }
  split; [exact Hthere |]. split.
  { intros cppFile content parsed st Hfind Hv Hparse Halloc.
    destruct (files wg !! constraintPath project) as [old|] eqn:Hold.
    { pose proof (Hthere ltac:(eauto)) as Hr. split; [done |].
      destruct (generate project wg) as [r w'] eqn:Hg. simpl in Hr. subst r.
      by apply generate_result in Hg as [_ ?]. }
    unfold generateBambuConstraintFile. fold (constraintPath project).
    rewrite (exists_absent _ _ Hold), Hfind.
    rewrite exists_present by (simpl; rewrite Hv; eauto). simpl negb.
    unfold parseHLSVerilogPorts, readTextFile. simpl files.
    rewrite Hv, Hparse, Halloc. simpl.
    split; [done |]. rewrite lookup_insert_eq. eauto. }
  split; [| apply baseNameOf_strips].
  intros p w' H. by apply generate_result in H as [-> _].
Qed.

(** C10.  The routing command never generates a constraint file: it
    leaves the files as they are and reads none; without a file tagged
    [constraint] it checks whether [<project>_bambu_cons.xml] is there,
    takes it when it is, and otherwise reports that the constraint file
    is missing and gives no command. *)
Theorem route_never_generates (project : ProjectInfo) (w : world) :
  files (runRoute project w).2 = files w ∧
  (∀ e, e ∈ events (runRoute project w).2 →
     e ∈ events w ∨ e = Exists (constraintPath project) ∨
     e = FailedNotification "Route" "Constraint file not found.") ∧
  (List.filter isConstraint (file_lists project) = [] →
     (is_Some (files w !! constraintPath project) →
        ∃ cmd, runRoute project w
               = (Some cmd, record (Exists (constraintPath project)) w) ∧
               argAt 7 cmd = Some "-c" ∧
               argAt 8 cmd = Some (constraintPath project)) ∧
     (files w !! constraintPath project = None →
        runRoute project w
        = (None,
           showFailedNotification "Route" "Constraint file not found."
             (record (Exists (constraintPath project)) w)))).
Proof.
  unfold runBambuRouteFlowCommand. cbv zeta.
  change (getDirOfFile (path project) +:+ name project +:+ "_bambu_cons.xml")
    with (constraintPath project).
  split; [| split].
  - destruct (falsy (declaredConstraint project)); [| done].
    unfold exists_. by case_bool_decide.
  - intros e. destruct (falsy (declaredConstraint project)); [| by left].
    unfold exists_. case_bool_decide; simpl; rewrite ?elem_of_app;
      rewrite ?list_elem_of_singleton; tauto.
  - intros Hnone. unfold declaredConstraint. rewrite Hnone. simpl. split.
    + intros H. rewrite bool_decide_eq_true_2 by done. eauto.
    + intros H. rewrite bool_decide_eq_false_2; [done |].
      rewrite H. by intros [? ?].
Qed.

End FlowProperties.

(** ** The statements at concrete inputs *)

Lemma parse_threeInputs :
  parseVerilogText threeInputs "and3" = Some (mkParseResult "_Z4and3bbb" and3Ports).
Proof. reflexivity. Qed.

Lemma exhaustion_writes_nothing_witness :
  ∃ w',
    generateBambuConstraintFile ["P1"; "P2"] ["Q1"] demoDir demoProject demoWorld
    = (None, w') ∧
    files w' = files demoWorld ∧
    files w' !! "/w/and3_bambu_cons.xml" = None.
Proof.
  destruct (exhaustion_writes_nothing ["P1"; "P2"] ["Q1"] demoDir demoProject
              demoWorld) as [_ Hexhausted].
  destruct (Hexhausted (mkFile "and3.cpp" "/w/and3.cpp" "cpp") threeInputs
              (mkParseResult "_Z4and3bbb" and3Ports) Input)
    as (d' & w' & _ & Hgen & _ & Hfiles & Habsent & _);
    [reflexivity | reflexivity | reflexivity | exact parse_threeInputs
    | vm_compute; lia |].
  exists w'. auto.
Defined.

Lemma bus_port_expansion_witness :
  (∃ final,
     allocPorts eightPins [] [mkPort "port" Input 7 0] initialAlloc = inr final) ∧
  allocPorts eightPins [] [mkPort "port" Input 7 0] initialAlloc
  = inr (mkAlloc 8 0 portBits) ∧
  ∃ st1 bits later,
    allocPorts eightPins [] [] initialAlloc = inr st1 ∧
    portBits = portConstraints st1 ++ bits ++ later ∧
    length bits = 8%nat ∧
    ∀ k, (k < 8)%nat →
      ∃ p, eightPins !! (cursor Input st1 + k)%nat = Some p ∧
           bits !! k
           = Some (mkAssignment (bitName "port" (0 + N.of_nat k)) p Input).
Proof.
  destruct (bus_port_expansion eightPins [] [] (mkPort "port" Input 7 0) [])
    as (Hok & Hshape & _); [reflexivity | discriminate |].
  split.
  - apply Hok.
    + repeat constructor.
    + intros []; vm_compute; lia.
    + intros []; repeat constructor; discriminate.
  - split; [reflexivity |].
    apply (Hshape (mkAlloc 8 0 portBits)). reflexivity.
Defined.

(** C3, as stated, fails: a bus port named [clock] gets no assignment,
    a bus port wider than the pins left gets none either, and nor does
    a bus of three bits from 2^53 on, on eight pins: [i++] leaves 2^53
    as it is, and the loop runs the pins out. *)
Lemma bus_port_without_assignments :
  msb (mkPort "clock" Input 7 0) ≠ lsb (mkPort "clock" Input 7 0) ∧
  allocPorts eightPins [] [mkPort "clock" Input 7 0] initialAlloc
  = inr initialAlloc ∧
  portConstraints initialAlloc = [] ∧
  allocPorts ["P1"; "P2"; "P3"] [] [mkPort "port" Input 7 0] initialAlloc
  = inl Input ∧
  busWidth (mkPort "port" Input 9007199254740994 9007199254740992) = 3 ∧
  allocPorts eightPins []
    [mkPort "port" Input 9007199254740994 9007199254740992] initialAlloc
  = inl Input.
Proof. repeat split. discriminate. Qed.

Lemma NoDup_eightPins : NoDup eightPins.
Proof. apply (bool_decide_unpack _). by vm_compute. Qed.

Lemma pins_injective_when_disjoint_witness :
  ∃ st,
    allocPorts eightPins ["Q1"] and3Ports initialAlloc = inr st ∧
    NoDup (map pin (portConstraints st)).
Proof.
  eexists. split; [reflexivity |].
  apply (pins_injective_when_disjoint eightPins ["Q1"] and3Ports).
  - exact NoDup_eightPins.
  - apply (bool_decide_unpack _). by vm_compute.
  - intros p Hp Hq. apply list_elem_of_singleton in Hq as ->.
    revert Hp. apply (bool_decide_unpack _). by vm_compute.
  - reflexivity.
Defined.

Lemma clock_port_is_skipped_witness :
  allocPort eightPins ["Q1"] (mkPort "clock" Output 7 0) initialAlloc
  = inr initialAlloc.
Proof.
  apply (clock_port_is_skipped eightPins ["Q1"] (mkPort "clock" Output 7 0)).
  reflexivity.
Defined.

Lemma existing_constraint_is_reused_witness :
  (generateBambuConstraintFile eightPins ["Q1"] demoDir demoProject demoWorld).1
  = Some "/w/and3_bambu_cons.xml" ∧
  generateBambuConstraintFile eightPins ["Q1"] demoDir demoProject
    (generateBambuConstraintFile eightPins ["Q1"] demoDir demoProject demoWorld).2
  = (Some "/w/and3_bambu_cons.xml",
     record (Exists "/w/and3_bambu_cons.xml")
       (generateBambuConstraintFile eightPins ["Q1"] demoDir demoProject
          demoWorld).2).
Proof.
  split; [reflexivity |].
  apply (existing_constraint_is_reused eightPins ["Q1"] demoDir demoProject
           demoWorld).
  reflexivity.
Defined.

Lemma place_constraint_source_witness :
  ∃ cmd,
    runBambuPlaceFlowCommand eightPins ["Q1"] demoDir demoResource pinnedProject
      emptyWorld
    = (Some cmd, emptyWorld) ∧
    argAt 8 cmd = Some "-c" ∧ argAt 9 cmd = Some "/w/pins.xml".
Proof.
  apply (place_constraint_source eightPins ["Q1"] demoDir demoResource
           pinnedProject emptyWorld); [reflexivity | discriminate].
Defined.

(** C7, as stated, fails: a file tagged [constraint] whose path is empty
    does not stop the generation; here the generation checks for its
    destination, finds no source file, and the stage gives no command. *)
Lemma empty_declared_path_triggers_generation :
  List.filter isConstraint (file_lists unpinnedProject)
  = [mkFile "pins.xml" "" "constraint"] ∧
  runBambuPlaceFlowCommand eightPins ["Q1"] demoDir demoResource unpinnedProject
    emptyWorld
  = (None,
     mkWorld ∅
       [ Exists "/w/and3_bambu_cons.xml";
         FailedNotification "Place"
           "Failed to generate constraint file. Please add a constraint file manually." ]).
Proof. split; reflexivity. Qed.

Lemma artifact_chain_witness :
  ∃ synth place route wp wr,
    runBambuSynthFlowCommand demoDir demoResource demoProject emptyWorld
    = (Some synth, emptyWorld) ∧
    argAt 2 synth = Some "/w/and3.v" ∧
    runBambuPlaceFlowCommand eightPins ["Q1"] demoDir demoResource demoProject
      demoWorld
    = (Some place, wp) ∧
    argAt 5 place = Some "and3_bambu_pack.xml" ∧
    argAt 7 place = Some "and3_bambu_place.xml" ∧
    argAt 9 place = Some "/w/and3_bambu_cons.xml" ∧
    runBambuRouteFlowCommand demoDir demoResource demoProject wp
    = (Some route, wr) ∧
    argAt 3 route = Some "and3_bambu_place.xml" ∧
    argAt 5 route = Some "and3_bambu_route.xml" ∧
    argAt 8 route = Some "/w/and3_bambu_cons.xml".
Proof.
  destruct (artifact_chain eightPins ["Q1"] demoDir demoResource demoProject
              emptyWorld demoWorld
              (runBambuPlaceFlowCommand eightPins ["Q1"] demoDir demoResource
                 demoProject demoWorld).2
              demoWorld)
    as (Hsynth & _ & _ & _ & _ & _ & Hplace & _ & Hroute & _).
  destruct (Hsynth (mkFile "and3.cpp" "/w/and3.cpp" "cpp") eq_refl)
    as (synth & tcl & Hs & Hs2 & _).
  destruct (Hplace "/w/and3_bambu_cons.xml")
    as (place & wp & Hp & Hp5 & Hp7 & Hp9).
  { right. split; [reflexivity | vm_compute; reflexivity]. }
  destruct (Hroute "/w/and3_bambu_cons.xml")
    as (route & wr & Hr & Hr3 & Hr5 & Hr8).
  { right. split; [reflexivity |]. split; [| reflexivity].
    vm_compute. eauto. }
  rewrite Hp in Hr. exists synth, place, route, wp, wr.
  repeat split; assumption.
Defined.

Lemma mode_flags_witness :
  getPlaceMode demoProject = "-b" ∧ getRouteMode demoProject = "-b".
Proof.
  destruct (mode_flags eightPins ["Q1"] demoDir demoResource demoProject
              emptyWorld) as (Hb & _ & _ & Hbf & _).
  split; [apply Hb | apply Hbf]; reflexivity.
Defined.

Lemma route_never_generates_witness :
  runBambuRouteFlowCommand demoDir demoResource demoProject emptyWorld
  = (None,
     showFailedNotification "Route" "Constraint file not found."
       (record (Exists "/w/and3_bambu_cons.xml") emptyWorld)).
Proof.
  apply (route_never_generates demoDir demoResource demoProject emptyWorld);
    reflexivity.
Defined.

(** ** Further properties of the pin allocation *)

Section AllocationOrder.

Variables inputPins outputPins : list string.

Abbreviation catalog := (catalog inputPins outputPins).
Abbreviation allocInstance := (allocInstance inputPins outputPins).
Abbreviation allocPort := (allocPort inputPins outputPins).
Abbreviation allocPorts := (allocPorts inputPins outputPins).
Abbreviation allocNames := (allocNames inputPins outputPins).

Lemma length_by_direction (l : list PinAssignment) :
  length l = (length (pinsOf Input l) + length (pinsOf Output l))%nat.
Proof.
  induction l as [|a l IH]; [done |].
  rewrite !pinsOf_cons. destruct a as [n p []]; simpl in *;
    repeat case_decide; try done; simpl; lia.
Qed.

Lemma allocPorts_pins_nonempty ports : ∀ st st',
  allocPorts ports st = inr st' →
  Forall (λ a, pin a ≠ "") (portConstraints st) →
  Forall (λ a, pin a ≠ "") (portConstraints st').
Proof.
  induction ports as [|port ports IH]; simpl; intros st st' H Hst.
  - by simplify_eq.
  - destruct (allocPort port st) as [|st1] eqn:H1; [done |].
    apply (IH _ _ H). clear H IH. apply allocPort_inr in H1.
    revert st st1 Hst H1.
    induction (instanceNames port) as [|n names IHn]; simpl;
      intros st st1 Hst H1; [by simplify_eq |].
    destruct (allocInstance n _ st) as [|st2] eqn:H2; [done |].
    apply (IHn st2); [| done].
    apply allocInstance_inr in H2 as (p & _ & Hp & -> & _).
    apply Forall_app. split; [done |]. by repeat constructor.
Qed.

Lemma allocPorts_pins ports st d :
  allocPorts ports initialAlloc = inr st →
  pinsOf d (portConstraints st) = take (demand d ports) (catalog d).
Proof.
  intros H.
  rewrite (allocPorts_consistent _ _ _ _ _ (initialAlloc_consistent _ _) H).
  rewrite (allocPorts_cursor _ _ d _ _ _ H). by destruct d.
Qed.

(** X1.  A successful allocation hands out, in each direction, exactly
    the first pins of the catalog sequence, as many as the ports ask
    and in catalog order; and it makes one assignment per pin asked. *)
Theorem pins_in_catalog_order (ports : list Port) (st : AllocState) :
  allocPorts ports initialAlloc = inr st →
  (∀ d, pinsOf d (portConstraints st) = take (demand d ports) (catalog d)) ∧
  (∀ d, (demand d ports ≤ length (catalog d))%nat) ∧
  length (portConstraints st)
  = (demand Input ports + demand Output ports)%nat.
Proof.
  intros H.
  pose proof (allocPorts_consistent _ _ _ _ _ (initialAlloc_consistent _ _) H)
    as Hc.
  assert (∀ d, cursor d st = demand d ports) as Hcur.
  { intros d. rewrite (allocPorts_cursor _ _ d _ _ _ H). by destruct d. }
  assert (∀ d, (demand d ports ≤ length (catalog d))%nat) as Hb.
  { intros d. rewrite <- Hcur.
    apply (allocPorts_bounded _ _ d _ _ _ H). destruct d; simpl; lia. }
  split; [| split; [done |]].
  - intros d. by rewrite Hc, Hcur.
  - rewrite length_by_direction, (Hc Input), (Hc Output), !Hcur, !length_take.
    pose proof (Hb Input). pose proof (Hb Output). lia.
Qed.

(** X2.  With no empty identifier in the catalog, the allocation
    succeeds exactly when the bit indices of every bus that is not
    named [clock] are below 2^53 and each direction holds at least as
    many pins as the ports ask of it. *)
Theorem allocation_succeeds_iff (ports : list Port) :
  Forall (λ p, p ≠ "") inputPins → Forall (λ p, p ≠ "") outputPins →
  (∃ st, allocPorts ports initialAlloc = inr st) ↔
  Forall (λ port, isClock port = false → msb port ≠ lsb port →
                  msb port < 2 ^ 53 ∧ lsb port < 2 ^ 53) ports ∧
  (demand Input ports ≤ length inputPins)%nat ∧
  (demand Output ports ≤ length outputPins)%nat.
Proof.
  intros Hi Ho. split.
  - intros [st H]. split; [by eapply allocPorts_countable |]. split.
    + destruct (Nat.le_gt_cases (demand Input ports) (length inputPins));
        [done |].
      destruct (allocPorts_exhausted inputPins outputPins Input ports);
        [done | congruence].
    + destruct (Nat.le_gt_cases (demand Output ports) (length outputPins));
        [done |].
      destruct (allocPorts_exhausted inputPins outputPins Output ports);
        [done | congruence].
  - intros (Hsafe & Hin & Hout). apply allocPorts_ok; [done | |]; by intros [].
Qed.

Lemma allocInstance_inl name d st d' :
  allocInstance name d st = inl d' →
  d' = d ∧
  (Forall (λ p, p ≠ "") (catalog d) → (length (catalog d) ≤ cursor d st)%nat).
Proof.
  intros H.
  assert (d' = d) as -> by (by eapply allocInstance_direction).
  split; [done |]. intros Hne.
  destruct (Nat.le_gt_cases (length (catalog d)) (cursor d st)) as [|Hlt];
    [done | exfalso].
  destruct (lookup_lt_is_Some_2 _ _ Hlt) as [p Hp].
  destruct (allocInstance_ok inputPins outputPins name d st p Hp) as [st' Hst'].
  - eapply Forall_forall in Hne; [done |]. by eapply list_elem_of_lookup_2.
  - congruence.
Qed.

Lemma allocNames_inl d names : ∀ st d',
  allocNames d names st = inl d' →
  d' = d ∧
  (Forall (λ p, p ≠ "") (catalog d) →
   (length (catalog d) < cursor d st + length names)%nat).
Proof.
  induction names as [|n names IH]; simpl; intros st d' H; [done |].
  destruct (allocInstance n d st) as [d0|st1] eqn:H1.
  - apply allocInstance_inl in H1 as [-> Hlen]. simplify_eq.
    split; [done |]. intros Hne. specialize (Hlen Hne). lia.
  - destruct (IH _ _ H) as [-> Hlen]. split; [done |]. intros Hne.
    specialize (Hlen Hne).
    apply allocInstance_inr in H1 as (_ & _ & _ & _ & Hcur & _). lia.
Qed.

Lemma allocPorts_inl ports : ∀ st d,
  allocPorts ports st = inl d →
  Forall (λ p, p ≠ "") (catalog d) →
  (length (catalog d) < cursor d st + demand d ports)%nat ∨
  List.Exists (λ port, portDirection port = d ∧ isClock port = false ∧
                  msb port ≠ lsb port ∧ ¬ safeRange port) ports.
Proof.
  induction ports as [|port ports IH]; simpl; intros st d H Hne; [done |].
  destruct (countable_dec port) as [Hport | (Hck & Hbus & Hunsafe)].
  2: { right. apply Exists_cons_hd.
       rewrite allocPort_unsafe in H by done. by simplify_eq. }
  rewrite demand_cons. rewrite allocPort_names in H by done.
  pose proof (length_instanceNames port) as Hlen.
  destruct (allocNames (portDirection port) (instanceNames port) st)
    as [d0|st1] eqn:H1.
  - left. simplify_eq. apply allocNames_inl in H1 as [-> Hlt].
    specialize (Hlt Hne). rewrite bool_decide_eq_true_2 by done.
    destruct (isClock port); simpl in *; lia.
  - destruct (IH _ _ H Hne) as [IH' | IH']; [left | right; by apply Exists_cons_tl].
    apply allocNames_inr in H1 as (_ & _ & Hcur & Hoth).
    destruct (decide (portDirection port = d)) as [<- | Hd].
    + rewrite bool_decide_eq_true_2 by done.
      destruct (isClock port); simpl in *; lia.
    + rewrite bool_decide_eq_false_2, andb_false_r by done.
      rewrite Hoth in IH' by done. lia.
Qed.

(** X3.  With no empty identifier in a direction's sequence, an
    allocation that gives up over that direction was asked more pins of
    it than the sequence holds, or met a bus of that direction with a
    bit index from 2^53 on: the direction named in the notification is
    one that ran out. *)
Theorem reported_direction_ran_out (ports : list Port) (d : direction) :
  allocPorts ports initialAlloc = inl d →
  Forall (λ p, p ≠ "") (catalog d) →
  (length (catalog d) < demand d ports)%nat ∨
  List.Exists (λ port, portDirection port = d ∧ isClock port = false ∧
                  msb port ≠ lsb port ∧
                  ¬ (msb port < 2 ^ 53 ∧ lsb port < 2 ^ 53)) ports.
Proof.
  intros H Hne. apply allocPorts_inl in H as [H | H]; [| by right | done].
  left. by destruct d.
Qed.

(** X4.  No assignment holds an empty pin identifier; so an empty
    identifier among the pins the ports would take makes the allocation
    give up, although pins are left after it. *)
Theorem empty_identifier_fails (ports : list Port) (d : direction) (i : nat) :
  catalog d !! i = Some "" → (i < demand d ports)%nat →
  (∀ st, allocPorts ports initialAlloc = inr st →
         Forall (λ a, pin a ≠ "") (portConstraints st)) ∧
  ∃ d', allocPorts ports initialAlloc = inl d'.
Proof.
  intros Hi Hlt.
  assert (∀ st, allocPorts ports initialAlloc = inr st →
            Forall (λ a, pin a ≠ "") (portConstraints st)) as Hne.
  { intros st H. eapply allocPorts_pins_nonempty; [exact H | constructor]. }
  split; [done |].
  destruct (allocPorts ports initialAlloc) as [d'|st] eqn:H; [eauto |].
  exfalso.
  assert ("" ∈ pinsOf d (portConstraints st)) as Hin.
  { rewrite (allocPorts_pins _ _ _ H). eapply list_elem_of_lookup_2.
    rewrite lookup_take_lt by done. exact Hi. }
  unfold pinsOf in Hin.
  apply list_elem_of_In, in_map_iff in Hin as (a & Ha & Hin).
  apply filter_In in Hin as [Hin _]. apply list_elem_of_In in Hin.
  specialize (Hne _ eq_refl). by eapply Forall_forall in Hne.
Qed.

(** X5.  How the bit range is read: swapping [msb] and [lsb] changes
    nothing, and a port whose bounds are equal, whatever their value,
    is a scalar: it gets one pin, under its bare name. *)
Theorem bit_range_reading (pname : string) (d : direction) (a b : N)
    (st : AllocState) :
  allocPort (mkPort pname d a b) st = allocPort (mkPort pname d b a) st ∧
  (String.eqb pname "clock" = false →
   ∀ st', allocPort (mkPort pname d a a) st = inr st' →
     ∃ p, catalog d !! cursor d st = Some p ∧
          portConstraints st' = portConstraints st ++ [mkAssignment pname p d] ∧
          cursor d st' = S (cursor d st)).
Proof.
  split.
  - unfold allocPort, Math_min, Math_max. cbn [portName portDirection msb lsb].
    by rewrite (N.eqb_sym b a), (N.min_comm (toNumber b)),
      (N.max_comm (toNumber b)).
  - intros Hck st'. unfold allocPort. simpl.
    rewrite Hck, N.eqb_refl. simpl. intros H.
    apply allocInstance_inr in H as (p & Hp & _ & Hc & Hcur & _). eauto.
Qed.

(** X21.  A bus that is not named [clock] and has a bit index from
    2^53 on makes the allocation give up, however many pins the catalog
    holds: from 2^53 on [i++] leaves the loop variable at or below the
    upper index, and the loop only ends when the pins run out.  More
    rounds than the pins left never change what the loop returns. *)
Theorem bus_from_2_53_runs_pins_out (ports : list Port) (port : Port) :
  port ∈ ports → isClock port = false → msb port ≠ lsb port →
  2 ^ 53 ≤ msb port ∨ 2 ^ 53 ≤ lsb port →
  (∀ st, allocPort port st = inl (portDirection port)) ∧
  (∃ d, allocPorts ports initialAlloc = inl d) ∧
  (∀ rounds st,
     (length (catalog (portDirection port))
      < rounds + cursor (portDirection port) st)%nat →
     allocBits inputPins outputPins rounds (portName port) (portDirection port)
       (Math_min (msb port) (lsb port)) (Math_max (msb port) (lsb port)) st
     = allocPort port st).
Proof.
  intros Hin Hck Hbus Hbig.
  assert (¬ safeRange port) as Hunsafe by (unfold safeRange; lia).
  split; [intros st; by apply allocPort_unsafe |]. split.
  - destruct (allocPorts ports initialAlloc) as [d|st] eqn:H; [eauto |].
    apply allocPorts_countable in H.
    eapply Forall_forall in H; [| exact Hin]. exfalso. by apply Hunsafe, H.
  - intros rounds st Hrounds. unfold allocPort. unfold isClock in Hck.
    rewrite Hck. destruct (N.eqb_spec (msb port) (lsb port)); [done |].
    cbn [negb]. apply allocBits_rounds; [done | lia].
Qed.

End AllocationOrder.

(** ** Further properties of the port extraction *)

(** A match of [moduleRegex] begins at the keyword [module]. *)
Lemma moduleMatch_keyword s c rest :
  exec moduleRegex s = Some (c, rest) → includesFrom s (chars "module") = true.
Proof.
  intros H. apply exec_inv in H as (skipped & s0 & -> & H).
  unfold matchHere in H.
  change moduleRegex
    with (Seq (Lit "module")
            (Cat [ Plus isSpace;
                   Group 1 (Cat [Lit "_Z"; Plus isDigit; Plus isWord]);
                   Star isSpace; Chr "("; Group 2 (LazyStar anyChar); Lit ");";
                   Group 3 (LazyStar anyChar); Lit "endmodule" ])) in H.
  apply matchRe_sound in H as (u & s1 & _ & -> & (u1 & u2 & -> & Hu1 & _) & _).
  apply inLang_litChars in Hu1 as ->. rewrite <- app_assoc.
  apply includesFrom_app.
Qed.

(** A match of [portRegex] begins at [input] or [output], and its name
    is a non-empty run of word characters. *)
Lemma portMatch_shape s c rest :
  exec portRegex s = Some (c, rest) →
  (includesFrom s (chars "input") = true ∨
   includesFrom s (chars "output") = true) ∧
  ∃ x u, c !! 4%nat = Some (x :: u) ∧
         isWord x = true ∧ Forall (λ y, isWord y = true) u.
Proof.
  intros H. apply exec_inv in H as (skipped & s0 & -> & H).
  unfold matchHere in H.
  set (range := Opt (Cat [ Chr "["; Group 2 (Plus isDigit); Chr ":";
                           Group 3 (Plus isDigit); Chr "]"; Plus isSpace ])).
  set (tail := Cat [Star isSpace; Chr ";"]).
  change (matchRe (Group 1 (Alt (Lit "input") (Lit "output")))
            (matchRe (Plus isSpace)
               (matchRe range
                  (matchRe (Group 4 (Plus isWord)) (matchRe tail accept))))
            s0 ∅ = Some (c, rest)) in H.
  apply matchRe_Group in H as (u1 & s1 & c1 & -> & Hu1 & H).
  apply matchRe_sound in H as (_ & s2 & c2 & _ & _ & H & _).
  apply matchRe_sound in H as (_ & s3 & c3 & _ & _ & H & _).
  apply matchRe_Group in H as (u4 & s4 & c4 & _ & Hu4 & H).
  apply matchRe_sound in H as (_ & s5 & c5 & _ & _ & H & Hc).
  unfold accept in H. simplify_eq. split.
  - destruct Hu1 as [Hu1 | Hu1]; apply inLang_litChars in Hu1 as ->;
      [left | right]; apply includesFrom_app.
  - destruct Hu4 as (? & us & -> & (x & -> & Hx) & Hus).
    exists x, us. split; [| done].
    rewrite Hc; [apply lookup_insert_eq |].
    vm_compute. intros Hin.
    repeat (apply elem_of_cons in Hin as [Hin | Hin]; [done |]).
    by apply elem_of_nil in Hin.
Qed.

(** X6.  The names port extraction returns are plain words: the module
    name has the mangled shape and contains the target, and every port
    name is a non-empty run of word characters. *)
Theorem extracted_names_are_words (content topFunctionName : string)
    (result : ParseResult) :
  parseVerilogText content topFunctionName = Some result →
  mangled (moduleName result) = true ∧
  includes (toLowerCase (moduleName result)) (toLowerCase topFunctionName)
  = true ∧
  Forall (λ port, ∃ x u, chars (portName port) = x :: u ∧ isWord x = true ∧
                         Forall (λ y, isWord y = true) u)
    (ports result).
Proof.
  unfold parseVerilogText. rewrite moduleLoop_find.
  destruct (List.find _ _) as [b|] eqn:Hfind; [| done].
  intros H. injection H as <-. cbn [moduleName ports].
  apply find_some in Hfind as [Hin Hb].
  apply in_map_iff in Hin as ([c rest] & <- & Hin).
  apply list_elem_of_In, execAll_matches in Hin as (s0 & Hm).
  cbn [fst snd] in *.
  split; [exact (moduleMatch_mangled _ _ _ Hm) |]. split; [exact Hb |].
  apply Forall_forall. intros port Hport.
  destruct (parsePorts_complete (groupText 3 c)) as [Hports _].
  rewrite Hports in Hport.
  apply list_elem_of_In, in_map_iff in Hport as ([c' rest'] & <- & Hin').
  assert (∃ s, exec portRegex s = Some (c', rest')) as [s Hexec].
  { clear -Hin'. revert Hin'. generalize (chars (groupText 3 c)).
    induction (String.length (groupText 3 c)) as [|fuel IH]; intros s; simpl;
      [done |].
    destruct (exec portRegex s) as [[c0 rest0]|] eqn:He; [| done].
    intros [Heq | Hin]; [simplify_eq; eauto | eauto]. }
  apply portMatch_shape in Hexec as (_ & x & u & Hname & Hx & Hu).
  exists x, u. unfold portOfMatch, groupText. simpl.
  by rewrite Hname, chars_text.
Qed.

(** X7.  A text without the keyword [module] has no top module, and a
    module body that holds neither [input] nor [output] has no port:
    in particular the empty text gives [null] and the empty body no
    port. *)
Theorem extraction_needs_keywords (content topFunctionName body : string) :
  (includes content "module" = false →
   parseVerilogText content topFunctionName = None) ∧
  (includes body "input" = false → includes body "output" = false →
   parsePorts body = []).
Proof.
  split.
  - unfold includes, parseVerilogText. intros Hno.
    destruct (String.length content); simpl; [done |].
    destruct (exec moduleRegex (chars content)) as [[c rest]|] eqn:H; [| done].
    apply moduleMatch_keyword in H. congruence.
  - unfold includes, parsePorts. intros Hin Hout.
    destruct (String.length body); simpl; [done |].
    destruct (exec portRegex (chars body)) as [[c rest]|] eqn:H; [| done].
    apply portMatch_shape in H as [[H | H] _]; congruence.
Qed.

(** ** Further properties of the constraint generation and of the stages *)

Section StageProperties.

Variables inputPins outputPins : list string.
Variable getDirOfFile : string → string.
Variable resolveResource : string → string.
Variable clockPeriod : BambuSettings → option N.

Abbreviation constraintPath := (constraintPathOf getDirOfFile).
Abbreviation generate :=
  (generateBambuConstraintFile inputPins outputPins getDirOfFile).
Abbreviation runPlace :=
  (runBambuPlaceFlowCommand inputPins outputPins getDirOfFile resolveResource).
Abbreviation runRoute :=
  (runBambuRouteFlowCommand getDirOfFile resolveResource).
Abbreviation runSynth := (runBambuSynthFlowCommand getDirOfFile resolveResource).
Abbreviation runGenBit :=
  (runBambuGenBitFlowCommand getDirOfFile resolveResource).
Abbreviation runHLS := (runBambuHLSFlowCommand getDirOfFile clockPeriod).

(** What a generation does, case by case. *)
Lemma generate_cases project w :
  let dest := constraintPath project in
  (is_Some (files w !! dest) ∧
   generate project w = (Some dest, record (Exists dest) w)) ∨
  (files w !! dest = None ∧
   ∃ w', generate project w = (None, w') ∧ files w' = files w) ∨
  (files w !! dest = None ∧
   ∃ cppFile content parsed st,
     let verilog :=
       getDirOfFile (path project) +:+ baseNameOf cppFile +:+ ".v" in
     let xml := xmlContent (moduleName parsed) (portConstraints st) in
     List.find isSource (file_lists project) = Some cppFile ∧
     files w !! verilog = Some content ∧
     parseVerilogText content (topFunctionOf project) = Some parsed ∧
     allocPorts inputPins outputPins (ports parsed) initialAlloc = inr st ∧
     generate project w
     = (Some dest,
        mkWorld (<[dest := xml]> (files w))
          (events w ++ [Exists dest; Exists verilog; ReadTextFile verilog;
                        WriteTextFile dest xml]))).
Proof.
  intros dest. unfold generateBambuConstraintFile, exists_,
    parseHLSVerilogPorts, readTextFile.
  fold (constraintPath project). fold dest. simpl.
  case_bool_decide as Hpresent; [by left |].
  right. apply eq_None_not_Some in Hpresent.
  destruct (List.find isSource _) as [cppFile|]; [| left; eauto].
  case_bool_decide as Hfound; simpl; [| left; eauto].
  destruct (files w !! (_ +:+ baseNameOf cppFile +:+ _)) as [content|] eqn:Hv;
    simpl; [| left; eauto].
  destruct (parseVerilogText _ _) as [parsed|] eqn:Hparse; [| left; eauto].
  destruct (allocPorts _ _ _ _) as [d|st] eqn:Halloc; [left; eauto |].
  right. split; [done |]. exists cppFile, content, parsed, st.
  repeat split; try done. unfold writeTextFile, record. simpl.
  by rewrite <- !app_assoc.
Qed.

(** X8.  A generation changes no file but the one at its destination,
    and it returns a path exactly when a file is at the destination
    afterwards. *)
Theorem generation_touches_only_destination (project : ProjectInfo)
    (w : world) :
  (∀ q, q ≠ constraintPath project →
     files (generate project w).2 !! q = files w !! q) ∧
  (is_Some (generate project w).1 ↔
   is_Some (files (generate project w).2 !! constraintPath project)).
Proof.
  destruct (generate_cases project w)
    as [[Hp ->] | [[Ha (w' & -> & Hw')] |
        [Ha (cppFile & content & parsed & st & _ & _ & _ & _ & ->)]]]; simpl.
  - split; [done |]. split; eauto.
  - rewrite Hw', Ha. split; [done |]. split; by intros [? ?].
  - split; [intros q Hq; by rewrite lookup_insert_ne |].
    rewrite lookup_insert_eq. split; eauto.
Qed.

(** X9.  A generation that finds no file at its destination and
    succeeds has, in this order, checked the destination, checked and
    read the hardware description named after the first C or C++ source
    file, and written once: the wrapper with the name of the selected
    module and one line for each assignment of the allocation. *)
Theorem generation_writes_after_reading (project : ProjectInfo) (w w' : world)
    (p : string) :
  files w !! constraintPath project = None →
  generate project w = (Some p, w') →
  ∃ cppFile content parsed st,
    let verilog := getDirOfFile (path project) +:+ baseNameOf cppFile +:+ ".v" in
    let xml := xmlContent (moduleName parsed) (portConstraints st) in
    List.find isSource (file_lists project) = Some cppFile ∧
    files w !! verilog = Some content ∧
    parseVerilogText content (topFunctionOf project) = Some parsed ∧
    allocPorts inputPins outputPins (ports parsed) initialAlloc = inr st ∧
    p = constraintPath project ∧
    files w' = <[p := xml]> (files w) ∧
    events w'
    = events w ++ [Exists p; Exists verilog; ReadTextFile verilog;
                   WriteTextFile p xml].
Proof.
  intros Habsent H.
  destruct (generate_cases project w)
    as [[[? Hp] _] | [[_ (w1 & H1 & _)] |
        [_ (cppFile & content & parsed & st & Hf & Hv & Hp & Hal & Hg)]]].
  - congruence.
  - congruence.
  - rewrite Hg in H. simplify_eq. exists cppFile, content, parsed, st.
    by repeat split.
Qed.

Lemma constraintPath_nonempty project :
  String.eqb (constraintPath project) "" = false.
Proof.
  unfold constraintPathOf.
  destruct (getDirOfFile (path project)), (name project); reflexivity.
Qed.

(** X10.  A placement that gives no command has changed no file, left
    no constraint file behind, and ended on its own failure
    notification. *)
Theorem failed_placement_leaves_no_trace (project : ProjectInfo)
    (w w' : world) :
  runPlace project w = (None, w') →
  files w' = files w ∧
  files w' !! constraintPath project = None ∧
  last (events w')
  = Some (FailedNotification "Place"
            "Failed to generate constraint file. Please add a constraint file manually.").
Proof.
  unfold runBambuPlaceFlowCommand.
  destruct (falsy (declaredConstraint project)); [| done].
  destruct (generate_cases project w)
    as [[Hp ->] | [[Ha (w1 & -> & Hw1)] |
        [Ha (cppFile & content & parsed & st & _ & _ & _ & _ & ->)]]]; simpl;
    rewrite ?constraintPath_nonempty; [done | | done].
  intros ?; simplify_eq. simpl. by rewrite Hw1, Ha, last_snoc.
Qed.

(** A placement that gives a command leaves a file at the path it
    passes, unless the project declares that path itself. *)
Lemma place_constraint_settled project w place w' :
  runPlace project w = (Some place, w') →
  (falsy (declaredConstraint project) = false ∧ w' = w ∧
   argAt 9 place = Some (default "" (declaredConstraint project))) ∨
  (falsy (declaredConstraint project) = true ∧
   is_Some (files w' !! constraintPath project) ∧
   argAt 9 place = Some (constraintPath project)).
Proof.
  unfold runBambuPlaceFlowCommand.
  destruct (falsy (declaredConstraint project)) eqn:Hd.
  - destruct (generate project w) as [g w1] eqn:Hg.
    pose proof (generate_result _ _ _ _ _ _ _ Hg) as Hr.
    destruct g as [p|]; simpl; [| done]. destruct Hr as [-> Hp].
    rewrite constraintPath_nonempty. intros ?; simplify_eq. right. eauto.
  - intros ?; simplify_eq. by left.
Qed.

(** X11.  After a placement that gave a command, the routing command
    is built too, with the same constraint file, and building it
    changes no file. *)
Theorem route_follows_place (project : ProjectInfo) (w w' : world)
    (place : Command) :
  runPlace project w = (Some place, w') →
  ∃ route w'',
    runRoute project w' = (Some route, w'') ∧
    argAt 8 route = argAt 9 place ∧
    files w'' = files w'.
Proof.
  intros H.
  apply place_constraint_settled in H as [(Hd & -> & Harg) | (Hd & Hp & Harg)];
    unfold runBambuRouteFlowCommand; rewrite Hd.
  - eexists _, _. split; [done |]. by rewrite Harg.
  - cbv zeta.
    change (getDirOfFile (path project) +:+ name project +:+ "_bambu_cons.xml")
      with (constraintPath project).
    rewrite (exists_present _ _ Hp). eexists _, _. split; [done |].
    by rewrite Harg.
Qed.

(** X12.  A placement that gave a command gives the same command when
    it is run again, without writing anything: the constraint file of
    the first run is taken as it is. *)
Theorem placement_is_repeatable (project : ProjectInfo) (w w' : world)
    (place : Command) :
  runPlace project w = (Some place, w') →
  ∃ w'',
    runPlace project w' = (Some place, w'') ∧
    files w'' = files w' ∧
    (∀ p c, WriteTextFile p c ∈ events w'' → WriteTextFile p c ∈ events w').
Proof.
  intros H. pose proof H as H0.
  apply place_constraint_settled in H as [(Hd & -> & Harg) | (Hd & Hp & Harg)].
  - exists w. by repeat split.
  - revert H0. unfold runBambuPlaceFlowCommand. rewrite Hd.
    destruct (generate project w) as [g w1] eqn:Hg.
    pose proof (generate_result _ _ _ _ _ _ _ Hg) as Hr.
    destruct g as [p|]; simpl; [| done]. destruct Hr as [-> _].
    rewrite constraintPath_nonempty. intros ?; simplify_eq.
    destruct (generate_cases project w') as [[_ ->] | [[Ha _] | [Ha _]]];
      [| rewrite Ha in Hp; by destruct Hp ..].
    simpl. rewrite constraintPath_nonempty.
    eexists. split; [done |]. split; [done |].
    intros p c Hin. simpl in Hin. apply elem_of_app in Hin as [Hin | Hin];
      [done |]. by apply list_elem_of_singleton in Hin.
Qed.

(** The events of a generation: it reads nothing but the hardware
    description named after the first C or C++ source file. *)
Lemma generate_events project w :
  ∃ l, events (generate project w).2 = events w ++ l ∧
       Forall (λ e, ∀ q, e = ReadTextFile q →
                 ∃ cppFile,
                   List.find isSource (file_lists project) = Some cppFile ∧
                   q = getDirOfFile (path project) +:+ baseNameOf cppFile +:+
                       ".v") l.
Proof.
  unfold generateBambuConstraintFile, exists_, parseHLSVerilogPorts,
    readTextFile, showFailedNotification, writeTextFile, record. simpl.
  case_bool_decide as Hpresent; simpl.
  { eexists. split; [reflexivity |]. by repeat constructor. }
  destruct (List.find isSource _) as [cppFile|]; simpl.
  2: { eexists. split; [reflexivity |]. by repeat constructor. }
  case_bool_decide as Hfound; simpl.
  2: { eexists. split; [by rewrite <- !app_assoc |]. by repeat constructor. }
  destruct (files w !! (_ +:+ baseNameOf cppFile +:+ _)) as [content|];
    simpl;
    [destruct (parseVerilogText _ _) as [parsed|]; simpl;
       [destruct (allocPorts _ _ _ _) as [d|st]; simpl |] |];
    (eexists; split; [by rewrite <- !app_assoc |]);
    repeat constructor; try done; intros q [= <-]; eauto.
Qed.

(** X13.  The only file a generation reads is the one the synthesis
    stage takes as its input. *)
Theorem generation_reads_synthesis_input (project : ProjectInfo)
    (w ws : world) (v : string) :
  ReadTextFile v ∈ events (generate project w).2 →
  ReadTextFile v ∈ events w ∨
  ∃ synth, runSynth project ws = (Some synth, ws) ∧ argAt 2 synth = Some v.
Proof.
  destruct (generate_events project w) as (l & -> & Hl).
  intros [Hin | Hin]%elem_of_app; [by left | right].
  eapply Forall_forall in Hl; [| exact Hin].
  destruct (Hl v eq_refl) as (cppFile & Hfind & ->).
  unfold runBambuSynthFlowCommand. rewrite Hfind. eauto.
Qed.

Lemma filter_head_find {A} (f : A → bool) l :
  List.find f l = head (List.filter f l).
Proof.
  induction l as [|x l IH]; simpl; [done |]. by destruct (f x).
Qed.

(** X14.  The high-level synthesis and the synthesis commands are
    built for the same projects, those with a C or C++ source file;
    and the hardware description synthesis reads is named after the
    first source file handed to high-level synthesis, whose sources
    follow the three options in project order. *)
Theorem synthesis_follows_hls (project : ProjectInfo) (w ws : world) :
  ((runHLS project w).1 = None ↔ (runSynth project ws).1 = None) ∧
  (∀ hls w', runHLS project w = (Some hls, w') →
     w' = w ∧
     drop 3 (args hls) = map filePath (List.filter isSource (file_lists project)) ∧
     ∃ cppFile synth,
       List.find isSource (file_lists project) = Some cppFile ∧
       argAt 3 hls = Some (filePath cppFile) ∧
       runSynth project ws = (Some synth, ws) ∧
       argAt 2 synth
       = Some (getDirOfFile (path project) +:+ baseNameOf cppFile +:+ ".v")).
Proof.
  unfold runBambuHLSFlowCommand, runBambuSynthFlowCommand.
  rewrite filter_head_find.
  destruct (List.filter isSource (file_lists project)) as [|cppFile rest];
    simpl.
  - split; [done |]. by intros hls w'.
  - split; [by split |]. intros hls w' ?; simplify_eq.
    split; [done |]. split; [done |]. eexists cppFile, _. by repeat split.
Qed.

(** X15.  The stage table agrees with the builders: a command built by
    the [runFunc] of an entry runs in the project directory, and when
    the entry has a [target_file] the command holds an argument that
    ends with the project name, an underscore and that [target_file]. *)
Theorem stage_table_names_outputs (entry : FlowEntry) (project : ProjectInfo)
    (w w' : world) (cmd : Command) :
  entry ∈ bambuFlows inputPins outputPins getDirOfFile resolveResource
            clockPeriod →
  runFunc entry project w = (Some cmd, w') →
  cwd cmd = getDirOfFile (path project) ∧
  (∀ target, target_file entry = Some target →
     ∃ arg pre,
       arg ∈ args cmd ∧ arg = pre +:+ name project +:+ "_" +:+ target).
Proof.
  assert (∀ c target,
            name project +:+ "_bambu_" +:+ target ∈ args c →
            ∃ arg pre, arg ∈ args c ∧
                       arg = pre +:+ name project +:+ "_" +:+ ("bambu_" +:+ target))
    as Hplain.
  { intros c target Hin. eexists _, "". split; [exact Hin | reflexivity]. }
  unfold bambuFlows. intros Hin Hrun.
  repeat (apply elem_of_cons in Hin as [-> | Hin]); simpl in Hrun.
  - revert Hrun. unfold runBambuHLSFlowCommand.
    destruct (_ =? _)%nat; intros ?; simplify_eq. by split.
  - revert Hrun. unfold runBambuSynthFlowCommand.
    destruct (List.find isSource _); intros ?; simplify_eq.
    split; [done |]. intros target [= <-].
    eexists _,
      ("tcl " +:+ resolveResource "resource/yosys/yosys_fde.tcl" +:+ " -l " +:+
       resolveResource "resource/yosys/fdesimlib.v" +:+ " -m " +:+
       resolveResource "resource/yosys/techmap.v" +:+ " -c " +:+
       resolveResource "resource/yosys/cells_map.v" +:+ " -o ").
    split; [right; left |]. simpl. by rewrite !append_assoc.
  - simplify_eq. split; [done |]. intros target [= <-].
    apply (Hplain _ "map.xml"). apply list_elem_of_In. simpl. tauto.
  - simplify_eq. split; [done |]. intros target [= <-].
    apply (Hplain _ "pack.xml"). apply list_elem_of_In. simpl. tauto.
  - assert (∃ cst,
              cmd = mkCommand "binaries/fde-cli/place"
                      ["-a"; resolveResource "resource/hw_lib/fdp3p7_arch.xml";
                       "-d"; resolveResource "resource/hw_lib/fdp3p7_dly.xml";
                       "-i"; name project +:+ "_bambu_" +:+ "pack.xml";
                       "-o"; name project +:+ "_bambu_" +:+ "place.xml";
                       "-c"; cst; getPlaceMode project; "-e"]
                      (getDirOfFile (path project))) as [cst ->].
    { revert Hrun. unfold runBambuPlaceFlowCommand.
      destruct (falsy (declaredConstraint project)).
      - destruct (generate project w) as [g w1]. destruct (falsy g);
          intros ?; simplify_eq; eauto.
      - intros ?; simplify_eq; eauto. }
    split; [done |]. intros target [= <-].
    apply (Hplain _ "place.xml"). apply list_elem_of_In. simpl. tauto.
  - assert (∃ cst,
              cmd = mkCommand "binaries/fde-cli/route"
                      ["-a"; resolveResource "resource/hw_lib/fdp3p7_arch.xml";
                       "-n"; name project +:+ "_bambu_" +:+ "place.xml";
                       "-o"; name project +:+ "_bambu_" +:+ "route.xml";
                       getRouteMode project; "-c"; cst; "-e"]
                      (getDirOfFile (path project))) as [cst ->].
    { revert Hrun. unfold runBambuRouteFlowCommand.
      destruct (falsy (declaredConstraint project)).
      - destruct (exists_ _ w) as [[] w1]; intros ?; simplify_eq; eauto.
      - intros ?; simplify_eq; eauto. }
    split; [done |]. intros target [= <-].
    apply (Hplain _ "route.xml"). apply list_elem_of_In. simpl. tauto.
  - simplify_eq. split; [done |]. intros target [= <-].
    apply (Hplain _ "bit.bit"). apply list_elem_of_In. simpl. tauto.
  - by apply elem_of_nil in Hin.
Qed.

(** X16.  The file handed to the programmer is the one the bitstream
    stage writes: its output argument, in its working directory. *)
Theorem download_takes_generated_bitstream (project : ProjectInfo) :
  ∃ output,
    argAt 6 (runGenBit project) = Some "-b" ∧
    argAt 7 (runGenBit project) = Some output ∧
    downloadBitFile getDirOfFile project = cwd (runGenBit project) +:+ output.
Proof. eexists. repeat split. Qed.

Lemma text_app l1 l2 : text (l1 ++ l2) = text l1 +:+ text l2.
Proof.
  induction l1 as [|a l1 IH]; [done |].
  change (String a (text (l1 ++ l2)) = String a (text l1 +:+ text l2)).
  by rewrite IH.
Qed.

Lemma lowerChar_of_match x a :
  a ∈ ["c"%char; "p"%char; "x"%char] →
  upperChar x = upperChar a → lowerChar x = a.
Proof.
  intros Ha.
  repeat (apply elem_of_cons in Ha as [-> | Ha]);
    [.. | by apply elem_of_nil in Ha];
    destruct x as [[] [] [] [] [] [] [] []]; vm_compute; congruence.
Qed.

(** X17.  [baseNameOf] returns the file name as it is, or the file name
    without its last dot and what follows, and then what follows is
    [cpp], [cc], [cxx] or [c] in any letter case. *)
Theorem baseName_strips_source_extension_only (file : ProjectFile) :
  baseNameOf file = fileName file ∨
  ∃ ext,
    fileName file = baseNameOf file +:+ "." +:+ ext ∧
    toLowerCase ext ∈ sourceExts.
Proof.
  unfold baseNameOf, replace.
  destruct (search sourceExtRegex (chars (fileName file)))
    as [[skipped [c rest]]|] eqn:Hs; [right | by left].
  apply search_inv in Hs as (s0 & Hname & H). unfold matchHere in H.
  change (matchRe (Chr ".")
            (matchRe
               (Group 1 (Alt (LitI "cpp") (Alt (LitI "cc")
                                             (Alt (LitI "cxx") (LitI "c")))))
               (matchRe AtEnd (matchRe Eps accept))) s0 ∅ = Some (c, rest)) in H.
  apply matchRe_sound in H as (u & s1 & c1 & -> & -> & H & _).
  apply matchRe_Group in H as (ext & s2 & c2 & -> & Hext & H).
  simpl in H. destruct s2; [| done]. unfold accept in H. simplify_eq.
  exists (text ext). split.
  - rewrite <- (string_of_list_ascii_of_string (fileName file)).
    fold (chars (fileName file)). fold (text (chars (fileName file))).
    rewrite Hname. simpl. rewrite !app_nil_r.
    by rewrite text_app.
  - unfold toLowerCase, sourceExts. rewrite chars_text.
    destruct Hext as [Hu | [Hu | [Hu | Hu]]]; simpl in Hu;
      repeat match goal with
      | H : ∃ _, _ |- _ => destruct H as [? H]
      | H : _ ∧ _ |- _ => destruct H as [? ?]
      end; subst; simpl;
      repeat match goal with
      | H : upperChar ?x = upperChar _ |- _ =>
          apply lowerChar_of_match in H; [rewrite H; clear H | set_solver]
      end; set_solver.
Qed.

End StageProperties.

(** ** Properties of the setup of the sidecar binaries *)

Section SetupProperties.

Variable join : string → string → string.
Variable ancestors : string → gset string.
Variable copyFileSync : string → string → copyResult.
Variable chmodThrows : string → bool.
Variable platform : string.
Variable PROJECT_ROOT : string.

Abbreviation copyBinary := (copyBinary copyFileSync chmodThrows platform).
Abbreviation copyLoop := (copyLoop copyFileSync chmodThrows platform).
Abbreviation setupFdeCliTools :=
  (setupFdeCliTools join ancestors copyFileSync chmodThrows platform
     PROJECT_ROOT).
Abbreviation setupYosysBinaries :=
  (setupYosysBinaries join ancestors copyFileSync chmodThrows platform
     PROJECT_ROOT).
Abbreviation validateSetup := (validateSetup join PROJECT_ROOT).
Abbreviation main :=
  (main join ancestors copyFileSync chmodThrows platform PROJECT_ROOT).
Abbreviation FDE_CLI_DIR := (FDE_CLI_DIR join PROJECT_ROOT).
Abbreviation BINARIES_DIR := (BINARIES_DIR join PROJECT_ROOT).

(** A copy that is reported to have gone well has added its target and
    removed nothing. *)
Lemma copyBinary_true sourceFile targetFile disk disk' :
  copyBinary sourceFile targetFile disk = (true, disk') →
  targetFile ∈ disk' ∧ disk ⊆ disk'.
Proof.
  unfold copyBinary. destruct (negb _); [done |].
  destruct (copyFileSync _ _); [| done].
  destruct (_ && _); intros ?; simplify_eq. set_solver.
Qed.

(** The count of the loop is the number of copies that went well: it
    reaches the number of files only when every copy went well, and
    then nothing was removed and every target is on the disk. *)
Lemma copyLoop_count files : ∀ n disk,
  ((copyLoop files n disk).1 ≤ n + length files)%nat ∧
  ((copyLoop files n disk).1 = (n + length files)%nat →
   disk ⊆ (copyLoop files n disk).2 ∧
   ∀ f, f ∈ files → f.2 ∈ (copyLoop files n disk).2).
Proof.
  induction files as [|[s t] files IH]; intros n disk; simpl.
  - split; [lia |]. intros _. split; [done |].
    intros f Hf. by apply elem_of_nil in Hf.
  - destruct (copyBinary s t disk) as [copied disk1] eqn:Hcopy.
    destruct (IH (if copied then S n else n) disk1) as [Hle Hall].
    destruct copied; [| split; [lia | intros Heq; lia]].
    split; [lia |]. intros Heq.
    destruct Hall as [Hg Hall]; [lia |].
    apply copyBinary_true in Hcopy as [Ht Hsub].
    split; [by etrans |].
    intros f [-> | Hf]%elem_of_cons; [by apply Hg | by apply Hall].
Qed.

Lemma ensureDir_grows dir disk : disk ⊆ ensureDir ancestors dir disk.
Proof. unfold ensureDir. destruct (negb _); set_solver. Qed.

Lemma setupFdeCliTools_true t disk disk' :
  setupFdeCliTools t disk = (true, disk') →
  disk ⊆ disk' ∧
  ∀ tool, tool ∈ FDE_CLI_TOOLS →
    join FDE_CLI_DIR (tool +:+ suffixOf t) ∈ disk'.
Proof.
  unfold setupFdeCliTools. destruct (negb _); [done |].
  match goal with |- context [copyLoop ?f ?n ?d] =>
    destruct (copyLoop_count f n d) as [_ Hall];
    destruct (copyLoop f n d) as [count disk2] end.
  cbn [fst snd] in Hall. intros [= Hc <-].
  apply Nat.eqb_eq in Hc. rewrite length_map in Hall.
  destruct (Hall Hc) as [Hg Htargets]. split.
  - etrans; [apply ensureDir_grows | exact Hg].
  - intros tool Htool.
    apply (Htargets (join (PUBLIC_FDE_BUILD join PROJECT_ROOT) tool,
                     join FDE_CLI_DIR (tool +:+ suffixOf t))).
    apply list_elem_of_In, in_map_iff. exists tool.
    split; [done | by apply list_elem_of_In].
Qed.

Lemma setupYosysBinaries_true t disk disk' :
  setupYosysBinaries t disk = (true, disk') →
  disk ⊆ disk' ∧
  ∀ binary, binary ∈ YOSYS_BINARIES →
    join BINARIES_DIR (binary +:+ suffixOf t) ∈ disk'.
Proof.
  unfold setupYosysBinaries. destruct (negb _); [done |].
  match goal with |- context [copyLoop ?f ?n ?d] =>
    destruct (copyLoop_count f n d) as [_ Hall];
    destruct (copyLoop f n d) as [count disk2] end.
  cbn [fst snd] in Hall. intros [= Hc <-].
  apply Nat.eqb_eq in Hc. rewrite length_map in Hall.
  destruct (Hall Hc) as [Hg Htargets]. split.
  - etrans; [apply ensureDir_grows | exact Hg].
  - intros binary Hbinary.
    apply (Htargets (join (PUBLIC_YOSYS_BUILD join PROJECT_ROOT)
                       (binary +:+ getExeExtension t),
                     join BINARIES_DIR (binary +:+ suffixOf t))).
    apply list_elem_of_In, in_map_iff. exists binary.
    split; [done | by apply list_elem_of_In].
Qed.

Lemma validateSetup_true t disk :
  validateSetup t disk = true ↔
  (∀ tool, tool ∈ FDE_CLI_TOOLS →
     join FDE_CLI_DIR (tool +:+ suffixOf t) ∈ disk) ∧
  (∀ binary, binary ∈ YOSYS_BINARIES →
     join BINARIES_DIR (binary +:+ suffixOf t) ∈ disk).
Proof.
  unfold validateSetup, existsSync.
  rewrite andb_true_iff, !forallb_forall.
  split; intros [Hf Hy]; split; intros x Hx.
  - apply list_elem_of_In in Hx. by apply Hf, bool_decide_eq_true in Hx.
  - apply list_elem_of_In in Hx. by apply Hy, bool_decide_eq_true in Hx.
  - apply bool_decide_eq_true, Hf. by apply list_elem_of_In.
  - apply bool_decide_eq_true, Hy. by apply list_elem_of_In.
Qed.

(** X18.  When both setups report success, the validation cannot fail:
    the script exits with 0 exactly when a target triple is known and
    both setups succeed, and then each of the eight tools and of the
    two yosys binaries is on the disk under its suffixed name. *)
Theorem setup_success_is_validated (env : option string) (arch : string)
    (disk : gset string) :
  ((main env arch disk).1 = 0 ↔
   ∃ t, getTargetTriple env platform arch = Some t ∧
        (setupFdeCliTools t disk).1 = true ∧
        (setupYosysBinaries t (setupFdeCliTools t disk).2).1 = true) ∧
  ((main env arch disk).1 = 0 →
   ∃ t, getTargetTriple env platform arch = Some t ∧
        (∀ tool, tool ∈ FDE_CLI_TOOLS →
           join FDE_CLI_DIR (tool +:+ suffixOf t) ∈ (main env arch disk).2) ∧
        (∀ binary, binary ∈ YOSYS_BINARIES →
           join BINARIES_DIR (binary +:+ suffixOf t) ∈ (main env arch disk).2)).
Proof.
  unfold main.
  destruct (getTargetTriple env platform arch) as [t|]; simpl.
  2: { split; [| done]. split; [done | by intros (? & ? & _)]. }
  destruct (setupFdeCliTools t disk) as [fdeCliOk disk1] eqn:Hfde.
  destruct (setupYosysBinaries t disk1) as [yosysOk disk2] eqn:Hyosys.
  simpl.
  assert (fdeCliOk = true → yosysOk = true →
          (∀ tool, tool ∈ FDE_CLI_TOOLS →
             join FDE_CLI_DIR (tool +:+ suffixOf t) ∈ disk2) ∧
          (∀ binary, binary ∈ YOSYS_BINARIES →
             join BINARIES_DIR (binary +:+ suffixOf t) ∈ disk2)) as Hall.
  { intros -> ->.
    destruct (setupFdeCliTools_true _ _ _ Hfde) as [_ Hf].
    destruct (setupYosysBinaries_true _ _ _ Hyosys) as [Hg Hy].
    split; [| done]. intros tool Htool. by apply Hg, Hf. }
  split; [split |].
  - intros H. exists t.
    destruct fdeCliOk, yosysOk; simpl in H; try done.
    rewrite Hfde. simpl. by rewrite Hyosys.
  - intros (t' & [= <-] & H1 & H2). rewrite Hfde in H1, H2. simpl in H1, H2.
    rewrite Hyosys in H2. simpl in H2. subst. simpl.
    destruct (Hall eq_refl eq_refl) as [Hf Hy].
    by rewrite (proj2 (validateSetup_true t disk2) (conj Hf Hy)).
  - intros H. exists t. split; [done |].
    destruct fdeCliOk, yosysOk; simpl in H; try done. by apply Hall.
Qed.

End SetupProperties.

(** X20.  Without a usable [CARGO_CFG_TARGET_TRIPLE], the triple the
    platform detection returns carries the [.exe] extension on [win32]
    and on no other platform. *)
Theorem fallback_extension_by_platform (env : option string)
    (platform arch t : string) :
  falsy env = true →
  getTargetTriple env platform arch = Some t →
  getExeExtension t = ".exe" ↔ platform = "win32".
Proof.
  intros Hfalsy. unfold getTargetTriple, truthy. rewrite Hfalsy. simpl.
  destruct (String.eqb_spec platform "win32") as [-> | Hwin].
  { intros [= <-]. by split. }
  destruct (String.eqb platform "linux").
  { intros [= <-]. destruct (String.eqb arch "x64");
      (split; [vm_compute; discriminate | done]). }
  destruct (String.eqb platform "darwin").
  { intros [= <-]. destruct (String.eqb arch "arm64");
      (split; [vm_compute; discriminate | done]). }
  intros ->. simpl in Hfalsy. apply String.eqb_eq in Hfalsy as ->.
  split; [vm_compute; discriminate | done].
Qed.

(** ** The further properties at concrete inputs *)

Lemma pins_in_catalog_order_witness :
  (∀ d, pinsOf d (portConstraints and3Alloc)
        = take (demand d and3Ports) (catalog eightPins ["Q1"] d)) ∧
  (∀ d, (demand d and3Ports ≤ length (catalog eightPins ["Q1"] d))%nat) ∧
  length (portConstraints and3Alloc)
  = (demand Input and3Ports + demand Output and3Ports)%nat.
Proof.
  apply (pins_in_catalog_order eightPins ["Q1"] and3Ports and3Alloc).
  reflexivity.
Defined.

Lemma allocation_succeeds_iff_witness :
  (∃ st, allocPorts eightPins ["Q1"] and3Ports initialAlloc = inr st) ↔
  Forall (λ port, isClock port = false → msb port ≠ lsb port →
                  msb port < 2 ^ 53 ∧ lsb port < 2 ^ 53) and3Ports ∧
  (demand Input and3Ports ≤ length eightPins)%nat ∧
  (demand Output and3Ports ≤ length ["Q1"])%nat.
Proof.
  apply (allocation_succeeds_iff eightPins ["Q1"] and3Ports);
    repeat constructor; discriminate.
Defined.

Lemma reported_direction_ran_out_witness :
  (length (catalog ["P1"; "P2"] ["Q1"] Input) < demand Input and3Ports)%nat ∨
  List.Exists (λ port, portDirection port = Input ∧ isClock port = false ∧
                       msb port ≠ lsb port ∧
                       ¬ (msb port < 2 ^ 53 ∧ lsb port < 2 ^ 53)) and3Ports.
Proof.
  apply (reported_direction_ran_out ["P1"; "P2"] ["Q1"] and3Ports Input);
    [reflexivity | repeat constructor; discriminate].
Defined.

Lemma empty_identifier_fails_witness :
  (∀ st, allocPorts ["P1"; ""; "P3"; "P4"] ["Q1"] and3Ports initialAlloc
         = inr st →
         Forall (λ a, pin a ≠ "") (portConstraints st)) ∧
  ∃ d', allocPorts ["P1"; ""; "P3"; "P4"] ["Q1"] and3Ports initialAlloc = inl d'.
Proof.
  apply (empty_identifier_fails ["P1"; ""; "P3"; "P4"] ["Q1"] and3Ports Input 1);
    [reflexivity | vm_compute; lia].
Defined.

Lemma extracted_names_are_words_witness :
  mangled "_Z3addii" = true ∧
  includes (toLowerCase "_Z3addii") (toLowerCase "ADD") = true ∧
  Forall (λ port, ∃ x u, chars (portName port) = x :: u ∧ isWord x = true ∧
                         Forall (λ y, isWord y = true) u)
    [mkPort "clock" Input 0 0; mkPort "b" Input 0 0; mkPort "s" Output 1 0].
Proof.
  apply (extracted_names_are_words twoModules "ADD"
           (mkParseResult "_Z3addii"
              [mkPort "clock" Input 0 0; mkPort "b" Input 0 0;
               mkPort "s" Output 1 0])).
  reflexivity.
Defined.

Lemma generation_writes_after_reading_witness :
  ∃ cppFile content parsed st,
    let verilog := demoDir (path demoProject) +:+ baseNameOf cppFile +:+ ".v" in
    let xml := xmlContent (moduleName parsed) (portConstraints st) in
    List.find isSource (file_lists demoProject) = Some cppFile ∧
    files demoWorld !! verilog = Some content ∧
    parseVerilogText content (topFunctionOf demoProject) = Some parsed ∧
    allocPorts eightPins ["Q1"] (ports parsed) initialAlloc = inr st ∧
    "/w/and3_bambu_cons.xml" = constraintPathOf demoDir demoProject ∧
    files (generateBambuConstraintFile eightPins ["Q1"] demoDir demoProject
             demoWorld).2
    = <["/w/and3_bambu_cons.xml" := xml]> (files demoWorld) ∧
    events (generateBambuConstraintFile eightPins ["Q1"] demoDir demoProject
              demoWorld).2
    = events demoWorld ++
      [Exists "/w/and3_bambu_cons.xml"; Exists verilog; ReadTextFile verilog;
       WriteTextFile "/w/and3_bambu_cons.xml" xml].
Proof.
  apply (generation_writes_after_reading eightPins ["Q1"] demoDir demoProject
           demoWorld); reflexivity.
Defined.

Lemma failed_placement_leaves_no_trace_witness :
  ∃ w',
    runBambuPlaceFlowCommand eightPins ["Q1"] demoDir demoResource
      unpinnedProject emptyWorld
    = (None, w') ∧
    files w' = files emptyWorld ∧
    files w' !! "/w/and3_bambu_cons.xml" = None.
Proof.
  eexists. split; [reflexivity |].
  destruct (failed_placement_leaves_no_trace eightPins ["Q1"] demoDir
              demoResource unpinnedProject emptyWorld _ eq_refl)
    as (Hfiles & Habsent & _).
  split; [exact Hfiles | exact Habsent].
Defined.

Lemma route_follows_place_witness :
  ∃ route w'',
    runBambuRouteFlowCommand demoDir demoResource demoProject
      (runBambuPlaceFlowCommand eightPins ["Q1"] demoDir demoResource
         demoProject demoWorld).2
    = (Some route, w'') ∧
    argAt 8 route = Some "/w/and3_bambu_cons.xml".
Proof.
  assert (∃ place,
            runBambuPlaceFlowCommand eightPins ["Q1"] demoDir demoResource
              demoProject demoWorld
            = (Some place,
               (runBambuPlaceFlowCommand eightPins ["Q1"] demoDir demoResource
                  demoProject demoWorld).2) ∧
            argAt 9 place = Some "/w/and3_bambu_cons.xml")
    as (place & Hplace & Harg) by (eexists; split; reflexivity).
  destruct (route_follows_place eightPins ["Q1"] demoDir demoResource
              demoProject demoWorld _ place Hplace)
    as (route & w'' & Hroute & Hsame & _).
  exists route, w''. split; [exact Hroute |]. by rewrite Hsame.
Defined.

Lemma placement_is_repeatable_witness :
  ∃ place w'',
    runBambuPlaceFlowCommand eightPins ["Q1"] demoDir demoResource demoProject
      (runBambuPlaceFlowCommand eightPins ["Q1"] demoDir demoResource
         demoProject demoWorld).2
    = (Some place, w'') ∧
    argAt 9 place = Some "/w/and3_bambu_cons.xml" ∧
    files w''
    = files (runBambuPlaceFlowCommand eightPins ["Q1"] demoDir demoResource
               demoProject demoWorld).2.
Proof.
  assert (∃ place,
            runBambuPlaceFlowCommand eightPins ["Q1"] demoDir demoResource
              demoProject demoWorld
            = (Some place,
               (runBambuPlaceFlowCommand eightPins ["Q1"] demoDir demoResource
                  demoProject demoWorld).2) ∧
            argAt 9 place = Some "/w/and3_bambu_cons.xml")
    as (place & Hplace & Harg) by (eexists; split; reflexivity).
  destruct (placement_is_repeatable eightPins ["Q1"] demoDir demoResource
              demoProject demoWorld _ place Hplace)
    as (w'' & Hagain & Hfiles & _).
  exists place, w''. by repeat split.
Defined.

Lemma generation_reads_synthesis_input_witness :
  ReadTextFile "/w/and3.v" ∈ events demoWorld ∨
  ∃ synth,
    runBambuSynthFlowCommand demoDir demoResource demoProject emptyWorld
    = (Some synth, emptyWorld) ∧
    argAt 2 synth = Some "/w/and3.v".
Proof.
  apply (generation_reads_synthesis_input eightPins ["Q1"] demoDir demoResource
           demoProject demoWorld emptyWorld "/w/and3.v").
  apply list_elem_of_In. vm_compute. tauto.
Defined.

Lemma stage_table_names_outputs_witness :
  cwd (runBambuMapFlowCommand demoDir demoResource demoProject) = "/w/" ∧
  (∀ target, Some "bambu_map.xml" = Some target →
     ∃ arg pre,
       arg ∈ args (runBambuMapFlowCommand demoDir demoResource demoProject) ∧
       arg = pre +:+ "and3" +:+ "_" +:+ target).
Proof.
  apply (stage_table_names_outputs eightPins ["Q1"] demoDir demoResource
           demoClock
           (mkFlow "bambu.map" (Some "bambu_map.xml")
              (λ project w,
                 (Some (runBambuMapFlowCommand demoDir demoResource project), w)))
           demoProject emptyWorld emptyWorld);
    [right; right; left | reflexivity].
Defined.

Lemma fallback_extension_by_platform_witness :
  getExeExtension "x86_64-unknown-linux-gnu" = ".exe" ↔ "linux" = "win32".
Proof.
  apply (fallback_extension_by_platform None "linux" "x64"
           "x86_64-unknown-linux-gnu"); reflexivity.
Defined.

Lemma bus_from_2_53_runs_pins_out_witness :
  ∃ d,
    allocPorts eightPins ["Q1"]
      [mkPort "a" Input 0 0;
       mkPort "port" Input 9007199254740994 9007199254740992] initialAlloc
    = inl d.
Proof.
  apply (bus_from_2_53_runs_pins_out eightPins ["Q1"]
           [mkPort "a" Input 0 0;
            mkPort "port" Input 9007199254740994 9007199254740992]
           (mkPort "port" Input 9007199254740994 9007199254740992)).
  - apply list_elem_of_In. simpl. tauto.
  - reflexivity.
  - discriminate.
  - left. by vm_compute.
Defined.
